(** * UR3 kinematics: forward kinematics and the multi-start inverse solver

    A shallow embedding of [urdf_forward_kinematics.py] and
    [inverse_kinematics.py], and of the placement of the link meshes in
    [mesh_loader.py].

    Conventions of the embedding.
    - A Python float is a real number of [R]: rounding is not modelled, so
      [np.pi] is [PI], [np.cos] is [cos], and so on, with the one exception
      below.
    - A numpy array of rank one is a [list R], an array of rank two a list of
      rows.  Indexing a joint vector ([q[i]]) raises [IndexError] when it is
      too short, and adding arrays of different lengths raises [ValueError],
      as in Python.
    - A float division whose divisor is a computed value is a checked
      division: numpy returns [inf] or [nan] for a zero divisor and carries
      on; the embedding ends the call there with the outcome [NonFinite].
      In [solve_ik] the loop over the seeds goes on: an iterate that is not
      finite fails every later comparison, so its seed gives no solution.
    - The one place where [np.pi] is not [PI] is the sine of an angle that
      [np.arccos] returned.  At a half turn that angle is the float
      [np.pi], whose sine is 1.2246467991473532e-16 and not zero: the code
      divides by it and carries on with a finite value, and so does the
      embedding ([sin_angle]).
    - [np.linalg.solve] is Gaussian elimination with partial pivoting (LAPACK
      [gesv]) in exact arithmetic; it raises [LinAlgError] on a matrix that
      has no pivot.
    - [np.random.RandomState] is abstract: a type of generator states, the
      state built from an integer seed, and one uniform draw on [0, 1).  The
      generator objects of a running program live in a store, where each
      draw changes the object it is drawn from.
    - The slices [T[:3, 3]] and [T[:3, :3]] of a target are those of a 4x4
      array; the theorems about the solver take a target of that shape. *)

From Stdlib Require Import String.
From Stdlib Require Import Reals Lra Lia ZArith Psatz Bool List.
From Stdlib Require Import RNsatz.
Import ListNotations.
Open Scope R_scope.

(** ** Outcomes of a call *)

Inductive exn : Type := IndexError | ValueError | LinAlgError.

Inductive result (A : Type) : Type :=
| Ok (a : A)
| Raised (e : exn)
| NonFinite.

Arguments Ok {A} a.
Arguments Raised {A} e.
Arguments NonFinite {A}.

Definition bind {A B : Type} (m : result A) (k : A -> result B) : result B :=
  match m with
  | Ok a => k a
  | Raised e => Raised e
  | NonFinite => NonFinite
  end.

Notation "x <- m ;; k" := (bind m (fun x => k))
  (at level 61, m at next level, right associativity).

Fixpoint mapM {A B : Type} (f : A -> result B) (l : list A) : result (list B) :=
  match l with
  | [] => Ok []
  | a :: l' => b <- f a ;; bs <- mapM f l' ;; Ok (b :: bs)
  end.

Definition Rltb (x y : R) : bool := if Rlt_dec x y then true else false.
Definition Rgtb (x y : R) : bool := if Rgt_dec x y then true else false.

(** A float division by a computed divisor. *)
Definition fdiv (x y : R) : result R :=
  if Req_dec_T y 0 then NonFinite else Ok (x / y).

(** ** The numpy operations the two classes use *)

Module np.

Abbreviation vec := (list R).
Abbreviation mat := (list (list R)).

Fixpoint zipWith (f : R -> R -> R) (u v : vec) : vec :=
  match u, v with
  | a :: u', b :: v' => f a b :: zipWith f u' v'
  | _, _ => []
  end.

Definition vadd : vec -> vec -> vec := zipWith Rplus.
Definition vsub : vec -> vec -> vec := zipWith Rminus.
Definition scale (c : R) (v : vec) : vec := map (Rmult c) v.
Definition zeros (n : nat) : vec := repeat 0 n.

(** [q + dq] on two arrays of rank one. *)
Definition add (u v : vec) : result vec :=
  if Nat.eqb (length u) (length v) then Ok (vadd u v) else Raised ValueError.

Fixpoint dot (u v : vec) : R :=
  match u, v with
  | a :: u', b :: v' => a * b + dot u' v'
  | _, _ => 0
  end.

(** [np.linalg.norm] of a vector. *)
Definition norm (v : vec) : R := sqrt (dot v v).

(** [np.linalg.norm(M, 'fro')]. *)
Definition norm_fro (M : mat) : R :=
  sqrt (fold_right (fun r acc => dot r r + acc) 0 M).

Definition clip (x lo hi : R) : R :=
  if Rlt_dec x lo then lo else if Rgt_dec x hi then hi else x.

Definition eye (n : nat) : mat :=
  map (fun i => map (fun j => if Nat.eqb i j then 1 else 0) (seq 0 n))
      (seq 0 n).

Definition zeros2 (m n : nat) : mat := repeat (zeros n) m.

Fixpoint columns (n : nat) (M : mat) : mat :=
  match n with
  | O => []
  | S k => map (hd 0) M :: columns k (map (@tl R) M)
  end.

(** [M.T] *)
Definition transpose (M : mat) : mat := columns (length (hd [] M)) M.

(** [A @ v] for a vector [v]. *)
Definition matvec (A : mat) (v : vec) : vec := map (fun r => dot r v) A.

(** [A @ B] *)
Definition matmul (A B : mat) : mat :=
  map (fun r => map (dot r) (transpose B)) A.

Definition madd (A B : mat) : mat :=
  map (fun p => vadd (fst p) (snd p)) (combine A B).

Definition msub (A B : mat) : mat :=
  map (fun p => vsub (fst p) (snd p)) (combine A B).

Definition mscale (c : R) (A : mat) : mat := map (scale c) A.

(** [M[i, j]] for indices inside the array. *)
Definition get (M : mat) (i j : nat) : R := nth j (nth i M []) 0.

Fixpoint trace_from (i : nat) (M : mat) : R :=
  match M with
  | [] => 0
  | r :: M' => nth i r 0 + trace_from (S i) M'
  end.

(** [np.trace] *)
Definition trace (M : mat) : R := trace_from 0 M.

(** [M[:3, 3]] and [M[:3, :3]] *)
Definition col3 (M : mat) : vec := map (fun r => nth 3 r 0) (firstn 3 M).
Definition block33 (M : mat) : mat := map (firstn 3) (firstn 3 M).

Fixpoint set_nth (j : nat) (x : R) (r : vec) : vec :=
  match r, j with
  | [], _ => []
  | _ :: t, O => x :: t
  | h :: t, S k => h :: set_nth k x t
  end.

(** [M[r0:r0+len(v), j] = v] *)
Fixpoint assign_col (M : mat) (r0 j : nat) (v : vec) : mat :=
  match M with
  | [] => []
  | row :: M' =>
    match r0 with
    | S r => row :: assign_col M' r j v
    | O =>
      match v with
      | [] => row :: M'
      | x :: v' => set_nth j x row :: assign_col M' O j v'
      end
    end
  end.

(** [M[:3, :3] = B] *)
Fixpoint assign_block (M B : mat) : mat :=
  match M, B with
  | row :: M', b :: B' => (b ++ skipn (length b) row) :: assign_block M' B'
  | _, _ => M
  end.

(** *** [np.linalg.solve]

    Rows of the system carry their right-hand side.  The pivot of a column
    is an entry of largest absolute value; a zero pivot is [LinAlgError]. *)

Abbreviation equation := (list R * R)%type.

Fixpoint pick_pivot (rows : list equation)
  : option (equation * list equation) :=
  match rows with
  | [] => None
  | r :: rows' =>
    match pick_pivot rows' with
    | None => Some (r, [])
    | Some (p, rest) =>
      if Rle_dec (Rabs (hd 0 (fst p))) (Rabs (hd 0 (fst r)))
      then Some (r, p :: rest)
      else Some (p, r :: rest)
    end
  end.

Definition eliminate (p r : equation) : equation :=
  let f := hd 0 (fst r) / hd 0 (fst p) in
  (tl (vsub (fst r) (scale f (fst p))), snd r - f * snd p).

Fixpoint gauss (n : nat) (rows : list equation) : option vec :=
  match n with
  | O => Some []
  | S m =>
    match pick_pivot rows with
    | None => None
    | Some (p, rest) =>
      if Req_dec_T (hd 0 (fst p)) 0 then None
      else
        match gauss m (map (eliminate p) rest) with
        | None => None
        | Some xs =>
          Some ((snd p - dot (tl (fst p)) xs) / hd 0 (fst p) :: xs)
        end
    end
  end.

(** [np.linalg.solve(A, b)] raises [LinAlgError] when [A] is not square or
    has no pivot, and [ValueError] when [b] has another length than [A]. *)
Definition is_square (A : mat) : bool :=
  forallb (fun r => Nat.eqb (length r) (length A)) A.

Definition linalg_solve (A : mat) (b : vec) : result vec :=
  if negb (is_square A) then Raised LinAlgError
  else if negb (Nat.eqb (length b) (length A)) then Raised ValueError
  else
    match gauss (length A) (combine A b) with
    | Some x => Ok x
    | None => Raised LinAlgError
    end.

End np.

Import np.

(** [q[i]] on a Python list or an array of rank one. *)
Definition getitem (q : list R) (i : nat) : result R :=
  match nth_error q i with
  | Some x => Ok x
  | None => Raised IndexError
  end.

(** ** [class UR3_URDF_ForwardKinematics] *)

Module UR3_URDF_ForwardKinematics.

Record self : Type := {
  d1 : R;
  a2 : R;
  a3 : R;
  d4 : R;
  d5 : R;
  d6 : R;
  shoulder_offset : R;
  elbow_offset : R;
  upper_arm_length : R;
  forearm_length : R;
  wrist_1_length : R;
  wrist_2_length : R;
  wrist_3_length : R;
  joint_limits : list (R * R)
}.

Definition __init__ : self :=
  let d1 := 0.1519 in
  let a2 := -0.24365 in
  let a3 := -0.21325 in
  let d4 := 0.11235 in
  let d5 := 0.08535 in
  let d6 := 0.0819 in
  let shoulder_offset := 0.1198 in
  let elbow_offset := -0.0925 in
  {| d1 := d1; a2 := a2; a3 := a3; d4 := d4; d5 := d5; d6 := d6;
     shoulder_offset := shoulder_offset;
     elbow_offset := elbow_offset;
     upper_arm_length := - a2;
     forearm_length := - a3;
     wrist_1_length := d4 - elbow_offset - shoulder_offset;
     wrist_2_length := d5;
     wrist_3_length := d6;
     joint_limits :=
       [ (-2 * PI, 2 * PI); (-2 * PI, 2 * PI); (-2 * PI, 2 * PI);
         (-2 * PI, 2 * PI); (-2 * PI, 2 * PI); (-2 * PI, 2 * PI) ] |}.

(** The object with its [joint_limits] attribute reassigned. *)
Definition with_joint_limits (limits : list (R * R)) (s : self) : self :=
  {| d1 := d1 s; a2 := a2 s; a3 := a3 s; d4 := d4 s; d5 := d5 s; d6 := d6 s;
     shoulder_offset := shoulder_offset s;
     elbow_offset := elbow_offset s;
     upper_arm_length := upper_arm_length s;
     forearm_length := forearm_length s;
     wrist_1_length := wrist_1_length s;
     wrist_2_length := wrist_2_length s;
     wrist_3_length := wrist_3_length s;
     joint_limits := limits |}.

(** The object with its [d6] and [wrist_3_length] attributes reassigned. *)
Definition with_wrist_3 (d6' wrist_3_length' : R) (s : self) : self :=
  {| d1 := d1 s; a2 := a2 s; a3 := a3 s; d4 := d4 s; d5 := d5 s; d6 := d6';
     shoulder_offset := shoulder_offset s;
     elbow_offset := elbow_offset s;
     upper_arm_length := upper_arm_length s;
     forearm_length := forearm_length s;
     wrist_1_length := wrist_1_length s;
     wrist_2_length := wrist_2_length s;
     wrist_3_length := wrist_3_length';
     joint_limits := joint_limits s |}.

Definition _rotx (angle : R) : mat :=
  let c := cos angle in
  let s := sin angle in
  [ [1; 0; 0; 0];
    [0; c; - s; 0];
    [0; s; c; 0];
    [0; 0; 0; 1] ].

Definition _roty (angle : R) : mat :=
  let c := cos angle in
  let s := sin angle in
  [ [c; 0; s; 0];
    [0; 1; 0; 0];
    [- s; 0; c; 0];
    [0; 0; 0; 1] ].

Definition _rotz (angle : R) : mat :=
  let c := cos angle in
  let s := sin angle in
  [ [c; - s; 0; 0];
    [s; c; 0; 0];
    [0; 0; 1; 0];
    [0; 0; 0; 1] ].

(** [xyz] and [rpy] are three-element list literals at every call. *)
Definition _create_transform (xyz rpy : R * R * R) : mat :=
  let '(x, y, z) := xyz in
  let T := eye 4 in
  let T := assign_col T 0 3 [x; y; z] in
  let '(r, p, y) := rpy in
  let Rx := _rotx r in
  let Ry := _roty p in
  let Rz := _rotz y in
  assign_block T (block33 (matmul (matmul Rz Ry) Rx)).

Definition joint_transform (xyz rpy : R * R * R) (q : R) (axis : string)
  : mat :=
  let T_origin := _create_transform xyz rpy in
  let T_joint :=
    if String.eqb axis "z" then _rotz q
    else if String.eqb axis "y" then _roty q
    else _rotx q in
  matmul T_origin T_joint.

(** The dictionary that [forward_kinematics] returns has the same seven keys
    on every call. *)
Record link_transforms : Type := {
  base : mat;
  shoulder : mat;
  upper_arm : mat;
  forearm : mat;
  wrist_1 : mat;
  wrist_2 : mat;
  wrist_3 : mat
}.

(** The items of the dictionary, in insertion order. *)
Definition items (t : link_transforms) : list (string * mat) :=
  [ ("base"%string, base t); ("shoulder"%string, shoulder t);
    ("upper_arm"%string, upper_arm t); ("forearm"%string, forearm t);
    ("wrist_1"%string, wrist_1 t); ("wrist_2"%string, wrist_2 t);
    ("wrist_3"%string, wrist_3 t) ].

Definition forward_kinematics (s : self) (joint_angles : list R)
  : result link_transforms :=
  let q := joint_angles in
  let T_base := eye 4 in
  q0 <- getitem q 0 ;;
  let T1 := joint_transform (0, 0, d1 s) (0, 0, 0) q0 "z" in
  let T_shoulder := matmul T_base T1 in
  q1 <- getitem q 1 ;;
  let T2 := joint_transform (0, shoulder_offset s, 0) (0, PI / 2, 0) q1 "y" in
  let T_upper_arm := matmul T_shoulder T2 in
  q2 <- getitem q 2 ;;
  let T3 :=
    joint_transform (0, elbow_offset s, upper_arm_length s) (0, 0, 0) q2 "y" in
  let T_forearm := matmul T_upper_arm T3 in
  q3 <- getitem q 3 ;;
  let T4 := joint_transform (0, 0, forearm_length s) (0, PI / 2, 0) q3 "y" in
  let T_wrist_1 := matmul T_forearm T4 in
  q4 <- getitem q 4 ;;
  let T5 := joint_transform (0, wrist_1_length s, 0) (0, 0, 0) q4 "z" in
  let T_wrist_2 := matmul T_wrist_1 T5 in
  q5 <- getitem q 5 ;;
  let T6 := joint_transform (0, 0, wrist_2_length s) (0, 0, 0) q5 "y" in
  let T_wrist_3 := matmul T_wrist_2 T6 in
  Ok {| base := T_base;
        shoulder := T_shoulder;
        upper_arm := T_upper_arm;
        forearm := T_forearm;
        wrist_1 := T_wrist_1;
        wrist_2 := T_wrist_2;
        wrist_3 := T_wrist_3 |}.

Definition get_joint_positions (s : self) (joint_angles : list R)
  : result (list vec) :=
  transforms <- forward_kinematics s joint_angles ;;
  Ok [ col3 (base transforms); col3 (shoulder transforms);
       col3 (upper_arm transforms); col3 (forearm transforms);
       col3 (wrist_1 transforms); col3 (wrist_2 transforms);
       col3 (wrist_3 transforms) ].

Fixpoint check_joint_limits_from (s : self) (i : nat) (joint_angles : list R)
  : result bool :=
  match joint_angles with
  | [] => Ok true
  | angle :: rest =>
    match nth_error (joint_limits s) i with
    | None => Raised IndexError
    | Some (lo, hi) =>
      if Rltb angle lo || Rgtb angle hi then Ok false
      else check_joint_limits_from s (S i) rest
    end
  end.

Definition check_joint_limits (s : self) (joint_angles : list R)
  : result bool :=
  check_joint_limits_from s 0 joint_angles.

(** [while x > np.pi: x -= 2 * np.pi], at most [fuel] times round the loop. *)
Fixpoint while_above (fuel : nat) (x : R) : R :=
  match fuel with
  | O => x
  | S f => if Rgt_dec x PI then while_above f (x - 2 * PI) else x
  end.

(** [while x < -np.pi: x += 2 * np.pi], at most [fuel] times round the loop. *)
Fixpoint while_below (fuel : nat) (x : R) : R :=
  match fuel with
  | O => x
  | S f => if Rlt_dec x (- PI) then while_below f (x + 2 * PI) else x
  end.

(** A number of rounds that either loop cannot exceed from [x]. *)
Definition rounds (x : R) : nat := Z.to_nat (up (Rabs x)).

Definition normalize_angle (x : R) : R :=
  let y := while_above (rounds x) x in
  while_below (rounds y) y.

Definition normalize_joint_angles (s : self) (joint_angles : list R) : vec :=
  map normalize_angle joint_angles.

Definition get_end_effector_transform (s : self) (joint_angles : list R)
  : result mat :=
  transforms <- forward_kinematics s joint_angles ;;
  Ok (wrist_3 transforms).

(** A method call on the kinematics object: no method assigns an attribute,
    so the object after the call is the object before. *)
Definition call_forward_kinematics (joint_angles : list R) (s : self)
  : result link_transforms * self :=
  (forward_kinematics s joint_angles, s).

End UR3_URDF_ForwardKinematics.

(** ** [class UR3_InverseKinematics] *)

Module UR3_InverseKinematics.

Module FK := UR3_URDF_ForwardKinematics.

Record self : Type := {
  fk : FK.self;
  epsilon : R;
  max_iter : nat;
  tol : R
}.

Definition __init__ : self :=
  {| fk := FK.__init__; epsilon := 1e-6; max_iter := 200; tol := 1e-6 |}.

(** The solver whose kinematics object has its [joint_limits] reassigned. *)
Definition with_joint_limits (limits : list (R * R)) (s : self) : self :=
  {| fk := FK.with_joint_limits limits (fk s);
     epsilon := epsilon s;
     max_iter := max_iter s;
     tol := tol s |}.

Fixpoint foldM {A B : Type} (f : B -> A -> result B) (l : list A) (b : B)
  : result B :=
  match l with
  | [] => Ok b
  | a :: l' => b' <- f b a ;; foldM f l' b'
  end.

(** [np.arccos(np.clip((np.trace(M) - 1) / 2, -1, 1))] *)
Definition rotation_angle (M : mat) : R :=
  acos (clip ((trace M - 1) / 2) (-1) 1).

(** [np.array([M[2, 1] - M[1, 2], M[0, 2] - M[2, 0], M[1, 0] - M[0, 1]])] *)
Definition skew_part (M : mat) : vec :=
  [ get M 2 1 - get M 1 2; get M 0 2 - get M 2 0; get M 1 0 - get M 0 1 ].

(** [np.sin(angle)] for an [angle] that [np.arccos] returned.  The largest
    such angle is the float [np.pi], and [np.sin(np.pi)] is
    1.2246467991473532e-16, where the sine of [PI] is zero. *)
Definition sin_angle (angle : R) : R :=
  if Req_dec_T angle PI then 1.2246467991473532e-16 else sin angle.

(** Lines 114-122 of [_solve_single]: the orientation error [dw]. *)
Definition orientation_error (s : self) (R_err : mat) : result vec :=
  let angle := rotation_angle R_err in
  if Rltb angle (epsilon s) then Ok (zeros 3)
  else
    c <- fdiv angle (2 * sin_angle angle) ;;
    Ok (scale c (skew_part R_err)).

(** Lines 104-122 of [_solve_single]: the pair [(dp, dw)] at the iterate
    [q]. *)
Definition pose_error (s : self) (T_desired : mat) (q : vec)
  : result (vec * vec) :=
  let p_desired := col3 T_desired in
  let R_desired := block33 T_desired in
  T_current <- FK.get_end_effector_transform (fk s) q ;;
  let p_current := col3 T_current in
  let R_current := block33 T_current in
  let dp := vsub p_desired p_current in
  let R_err := matmul R_desired (transpose R_current) in
  dw <- orientation_error s R_err ;;
  Ok (dp, dw).

(** Line 131: the convergence test. *)
Definition converged (s : self) (dp dw : vec) : bool :=
  let pos_err := norm dp in
  let rot_err := norm dw in
  Rltb pos_err (tol s) && Rltb rot_err (tol s * 5).

(** The [try] of [_verify] turns any exception into [False]. *)
Definition _verify (s : self) (q : vec) (T_desired : mat) (pos_tol rot_tol : R)
  : bool :=
  match FK.get_end_effector_transform (fk s) q with
  | Ok T_actual =>
    let pos_err := norm (vsub (col3 T_actual) (col3 T_desired)) in
    let R_err := norm_fro (msub (block33 T_actual) (block33 T_desired)) in
    Rltb pos_err pos_tol && Rltb R_err rot_tol
  | _ => false
  end.

(** [q_plus[i] += delta] *)
Fixpoint add_at (i : nat) (delta : R) (q : vec) : result vec :=
  match q, i with
  | [], _ => Raised IndexError
  | x :: t, O => Ok (x + delta :: t)
  | x :: t, S k => t' <- add_at k delta t ;; Ok (x :: t')
  end.

(** [v / delta] on an array. *)
Definition vdiv (v : vec) (delta : R) : result vec :=
  mapM (fun x => fdiv x delta) v.

(** Lines 171-179 of [_numerical_jacobian]: the angular rows of a column. *)
Definition angular_velocity (dR : mat) (delta : R) : result vec :=
  let angle := rotation_angle dR in
  if Rltb angle 1e-10 then Ok (zeros 3)
  else
    c <- fdiv angle (2 * sin_angle angle * delta) ;;
    Ok (scale c (skew_part dR)).

(** The body of the loop of [_numerical_jacobian] for the column [i]. *)
Definition jacobian_column (s : self) (q : vec) (delta : R)
    (p0 : vec) (R0 : mat) (J : mat) (i : nat) : result mat :=
  q_plus <- add_at i delta q ;;
  T_plus <- FK.get_end_effector_transform (fk s) q_plus ;;
  let p_plus := col3 T_plus in
  let R_plus := block33 T_plus in
  lin <- vdiv (vsub p_plus p0) delta ;;
  let J := assign_col J 0 i lin in
  let dR := matmul R_plus (transpose R0) in
  ang <- angular_velocity dR delta ;;
  Ok (assign_col J 3 i ang).

Definition _numerical_jacobian (s : self) (q : vec) (delta : R) : result mat :=
  let J := zeros2 6 6 in
  T0 <- FK.get_end_effector_transform (fk s) q ;;
  let p0 := col3 T0 in
  let R0 := block33 T0 in
  foldM (jacobian_column s q delta p0 R0) (seq 0 6) J.

(** Lines 142-143: [J @ J.T + damping**2 * np.eye(6)] and the step [dq]. *)
Definition damped_matrix (J : mat) (damping : R) : mat :=
  madd (matmul J (transpose J)) (mscale (damping ^ 2) (eye 6)).

Definition damped_step (J : mat) (damping : R) (error : vec) : result vec :=
  let JJT := damped_matrix J damping in
  y <- linalg_solve JJT error ;;
  Ok (matvec (transpose J) y).

(** Lines 138-146: the update of the iterate. *)
Definition update (s : self) (damping : R) (q error : vec) : result vec :=
  J <- _numerical_jacobian s q 1e-6 ;;
  dq <- damped_step J damping error ;;
  add q dq.

(** The loop of [_solve_single] with [n] iterations left. *)
Fixpoint solve_loop (s : self) (T_desired : mat) (damping : R)
    (n : nat) (q : vec) : result (option vec) :=
  match n with
  | O => Ok None
  | S n' =>
    e <- pose_error s T_desired q ;;
    let dp := fst e in
    let dw := snd e in
    let error := dp ++ dw in
    if converged s dp dw then
      if _verify s q T_desired 1e-4 5e-3 then Ok (Some q) else Ok None
    else
      q' <- update s damping q error ;;
      solve_loop s T_desired damping n' q'
  end.

Definition _solve_single (s : self) (T_desired : mat) (q_init : vec)
  : result (option vec) :=
  let q := q_init in
  let damping := 0.01 in
  solve_loop s T_desired damping (max_iter s) q.

(** The inner loop of [solve_ik]: [False] at the first accepted solution
    that is within 0.05 of [result] in every joint. *)
Fixpoint is_new (s : self) (result : vec) (solutions : list vec) : bool :=
  match solutions with
  | [] => true
  | existing :: rest =>
    let diff :=
      map Rabs (vsub result (FK.normalize_joint_angles (fk s) existing)) in
    if forallb (fun d => Rltb d 0.05) diff then false
    else is_new s result rest
  end.

(** The body of the outer loop of [solve_ik] once [_solve_single] has
    returned. *)
Definition collect (s : self) (solutions : list vec) (result : option vec)
  : list vec :=
  match result with
  | None => solutions
  | Some result =>
    let result := FK.normalize_joint_angles (fk s) result in
    if is_new s result solutions then solutions ++ [result] else solutions
  end.

(** The outer loop of [solve_ik].  An exception of a seed ends the call.  A
    seed whose iterate stopped being finite ends with [None] in the code,
    every later comparison failing on [nan]: the loop goes on with the next
    seed and the solutions it has. *)
Fixpoint solve_ik_loop (s : self) (T_desired : mat) (seeds : list vec)
    (solutions : list vec) : result (list vec) :=
  match seeds with
  | [] => Ok solutions
  | seed :: rest =>
    match _solve_single s T_desired seed with
    | Ok result => solve_ik_loop s T_desired rest (collect s solutions result)
    | NonFinite => solve_ik_loop s T_desired rest (collect s solutions None)
    | Raised e => Raised e
    end
  end.

Definition configs : list vec :=
  [ [0; - PI / 2; PI / 2; - PI / 2; - PI / 2; 0];
    [0; 0; 0; 0; 0; 0];
    [0; - PI / 2; - PI / 2; 0; PI / 2; 0];
    [PI; - PI / 2; PI / 2; - PI / 2; PI / 2; 0];
    [0; - PI / 4; PI / 4; - PI / 2; - PI / 2; 0];
    [PI; - PI / 2; - PI / 2; PI / 2; PI / 2; 0];
    [0; - PI; PI / 2; 0; - PI / 2; PI];
    [- PI; - PI / 2; PI / 2; PI / 2; - PI / 2; 0] ].

Section RandomState.

(** [np.random.RandomState]: the generator states, the state that a seed
    builds, and one draw of [random_sample], uniform on [0, 1). *)
Variable RandomState : Type.
Variable RandomState_seed : Z -> RandomState.
Variable random_sample : RandomState -> R * RandomState.

(** [rng.uniform(low, high, size)]: [size] draws, each scaled to
    [low + (high - low) * u]. *)
Fixpoint uniform (low high : R) (size : nat) (rng : RandomState)
  : vec * RandomState :=
  match size with
  | O => ([], rng)
  | S n =>
    let (u, rng1) := random_sample rng in
    let (v, rng2) := uniform low high n rng1 in
    (low + (high - low) * u :: v, rng2)
  end.

(** [for _ in range(n): seeds.append(list(rng.uniform(-np.pi, np.pi, 6)))] *)
Fixpoint random_seeds (n : nat) (rng : RandomState) : list vec :=
  match n with
  | O => []
  | S k =>
    let (seed, rng') := uniform (- PI) PI 6 rng in
    seed :: random_seeds k rng'
  end.

Definition _generate_seeds (s : self) : list vec :=
  let rng := RandomState_seed 42 in
  configs ++ random_seeds 24 rng.

Definition solve_ik (s : self) (T_desired : mat) : result (list vec) :=
  let seeds := _generate_seeds s in
  solve_ik_loop s T_desired seeds [].

(** *** The generator objects

    [np.random.RandomState(seed)] builds a new generator object, and every
    draw changes the state of the object it is drawn from.  A store holds
    the states of the generator objects that exist, by address; [next] is
    the address of the object that is built next. *)
Record store : Type := {
  cells : nat -> RandomState;
  next : nat
}.

Definition new_RandomState (seed : Z) (h : store) : nat * store :=
  (next h,
   {| cells := fun a =>
                 if Nat.eqb a (next h) then RandomState_seed seed
                 else cells h a;
      next := S (next h) |}).

(** One draw from the object at the address [rng]. *)
Definition sample_at (rng : nat) (h : store) : R * store :=
  let (u, g) := random_sample (cells h rng) in
  (u,
   {| cells := fun a => if Nat.eqb a rng then g else cells h a;
      next := next h |}).

Fixpoint uniform_at (low high : R) (size : nat) (rng : nat) (h : store)
  : vec * store :=
  match size with
  | O => ([], h)
  | S n =>
    let (u, h1) := sample_at rng h in
    let (v, h2) := uniform_at low high n rng h1 in
    (low + (high - low) * u :: v, h2)
  end.

Fixpoint random_seeds_at (n : nat) (rng : nat) (h : store)
  : list vec * store :=
  match n with
  | O => ([], h)
  | S k =>
    let (seed, h1) := uniform_at (- PI) PI 6 rng h in
    let (seeds, h2) := random_seeds_at k rng h1 in
    (seed :: seeds, h2)
  end.

(** [_generate_seeds] and [solve_ik] as calls that run on a store: the
    seeds, or the solutions, and the store that the call leaves. *)
Definition run_generate_seeds (s : self) (h : store) : list vec * store :=
  let (rng, h1) := new_RandomState 42 h in
  let (seeds, h2) := random_seeds_at 24 rng h1 in
  (configs ++ seeds, h2).

Definition run_solve_ik (s : self) (T_desired : mat) (h : store)
  : result (list vec) * store :=
  let (seeds, h') := run_generate_seeds s h in
  (solve_ik_loop s T_desired seeds [], h').

End RandomState.

End UR3_InverseKinematics.

(** ** Python dictionaries

    A dictionary is the list of its items in insertion order. *)

Fixpoint dict_get {K V : Type} (eqb : K -> K -> bool) (d : list (K * V))
    (k : K) : option V :=
  match d with
  | [] => None
  | (k', v) :: d' => if eqb k k' then Some v else dict_get eqb d' k
  end.

(** [d[k] = v]: the value of an existing key is replaced where it stands, a
    new key goes to the end. *)
Fixpoint dict_set {K V : Type} (eqb : K -> K -> bool) (d : list (K * V))
    (k : K) (v : V) : list (K * V) :=
  match d with
  | [] => [(k, v)]
  | (k', v') :: d' =>
    if eqb k k' then (k, v) :: d' else (k', v') :: dict_set eqb d' k v
  end.

(** [KeyError], which [d[k]] raises on a missing key. *)
Inductive key_error : Type := KeyError.

(** ** [mesh_loader.py]

    [trimesh.Trimesh] is abstract: a type of meshes with the two methods
    that the classes call, [copy] and [apply_transform]; the latter gives
    the mesh that the in-place transformation leaves.  Reading the STL files
    and building the fallback shapes are not modelled: the theorems hold for
    every content of the [meshes] dictionary. *)

Module UR3_MeshLoader.

Module FK := UR3_URDF_ForwardKinematics.

Section Trimesh.

Variable Trimesh : Type.
Variable copy : Trimesh -> Trimesh.
Variable apply_transform : mat -> Trimesh -> Trimesh.

Record self : Type := {
  mesh_files : list (string * string);
  meshes : list (string * Trimesh);
  mesh_offsets : list (string * mat)
}.

Definition __init__ : self :=
  {| mesh_files :=
       [ ("base", "base.stl"); ("shoulder", "shoulder.stl");
         ("upper_arm", "upperarm.stl"); ("forearm", "forearm.stl");
         ("wrist_1", "wrist1.stl"); ("wrist_2", "wrist2.stl");
         ("wrist_3", "wrist3.stl") ]%string;
     meshes := [];
     mesh_offsets :=
       [ ("base", eye 4); ("shoulder", eye 4); ("upper_arm", eye 4);
         ("forearm", eye 4); ("wrist_1", eye 4); ("wrist_2", eye 4);
         ("wrist_3", eye 4) ]%string |}.

(** The loader with its [meshes] attribute reassigned, as [load_meshes] and
    [create_fallback_meshes] leave it. *)
Definition with_meshes (loaded : list (string * Trimesh)) (s : self) : self :=
  {| mesh_files := mesh_files s;
     meshes := loaded;
     mesh_offsets := mesh_offsets s |}.

Definition _create_transform (translation rotation_rpy : R * R * R) : mat :=
  let T := eye 4 in
  let '(roll, pitch, yaw) := rotation_rpy in
  let Rx := [ [1; 0; 0];
              [0; cos roll; - sin roll];
              [0; sin roll; cos roll] ] in
  let Ry := [ [cos pitch; 0; sin pitch];
              [0; 1; 0];
              [- sin pitch; 0; cos pitch] ] in
  let Rz := [ [cos yaw; - sin yaw; 0];
              [sin yaw; cos yaw; 0];
              [0; 0; 1] ] in
  let R := matmul (matmul Rz Ry) Rx in
  let T := assign_block T R in
  let '(x, y, z) := translation in
  assign_col T 0 3 [x; y; z].

Definition get_mesh (s : self) (link_name : string) : option Trimesh :=
  dict_get String.eqb (meshes s) link_name.

Definition get_all_meshes (s : self) : list (string * Trimesh) := meshes s.

Definition apply_transform_to_mesh (s : self) (mesh : Trimesh)
    (transform_matrix : mat) (mesh_name : string) : Trimesh :=
  let mesh_copy := copy mesh in
  let final_transform :=
    match dict_get String.eqb (mesh_offsets s) mesh_name with
    | Some offset => matmul transform_matrix offset
    | None => transform_matrix
    end in
  apply_transform final_transform mesh_copy.

End Trimesh.

End UR3_MeshLoader.

Module UR3_MeshVisualizer.

Module FK := UR3_URDF_ForwardKinematics.
Module Loader := UR3_MeshLoader.

(** The keys of [link_mesh_mapping] and of the dictionary of
    [get_link_transforms]: the string ['base'] and the integers. *)
Inductive key : Type := Str (name : string) | Int (i : Z).

Definition key_eqb (a b : key) : bool :=
  match a, b with
  | Str x, Str y => String.eqb x y
  | Int i, Int j => Z.eqb i j
  | _, _ => false
  end.

Section Trimesh.

Variable Trimesh : Type.
Variable copy : Trimesh -> Trimesh.
Variable apply_transform : mat -> Trimesh -> Trimesh.

Record self : Type := {
  fk : FK.self;
  mesh_loader : Loader.self Trimesh;
  link_mesh_mapping : list (key * string)
}.

Definition __init__ (forward_kinematics : FK.self)
    (mesh_loader : Loader.self Trimesh) : self :=
  {| fk := forward_kinematics;
     mesh_loader := mesh_loader;
     link_mesh_mapping :=
       [ (Str "base", "base"); (Int 0, "shoulder"); (Int 1, "upper_arm");
         (Int 2, "forearm"); (Int 3, "wrist_1"); (Int 4, "wrist_2");
         (Int 5, "wrist_3") ]%string |}.

(** The kinematics object is a [UR3_URDF_ForwardKinematics], which has the
    attribute [forward_kinematics]: the branch of the other kinematics class
    is not taken. *)
Definition get_link_transforms (s : self) (joint_angles : list R)
  : result (list (key * mat)) :=
  urdf_transforms <- FK.forward_kinematics (fk s) joint_angles ;;
  Ok [ (Str "base", FK.base urdf_transforms);
       (Int 0, FK.shoulder urdf_transforms);
       (Int 1, FK.upper_arm urdf_transforms);
       (Int 2, FK.forearm urdf_transforms);
       (Int 3, FK.wrist_1 urdf_transforms);
       (Int 4, FK.wrist_2 urdf_transforms);
       (Int 5, FK.wrist_3 urdf_transforms) ].

(** The loop of [get_transformed_meshes] over the items of
    [link_mesh_mapping] that are left. *)
Fixpoint transform_links (s : self) (transforms : list (key * mat))
    (items : list (key * string))
    (transformed_meshes : list (string * Trimesh))
  : key_error + list (string * Trimesh) :=
  match items with
  | [] => inr transformed_meshes
  | (link_id, mesh_name) :: rest =>
    match Loader.get_mesh Trimesh (mesh_loader s) mesh_name with
    | None => transform_links s transforms rest transformed_meshes
    | Some mesh =>
      match dict_get key_eqb transforms link_id with
      | None => inl KeyError
      | Some transform =>
        let transformed_mesh :=
          Loader.apply_transform_to_mesh Trimesh copy apply_transform
            (mesh_loader s) mesh transform mesh_name in
        transform_links s transforms rest
          (dict_set String.eqb transformed_meshes mesh_name transformed_mesh)
      end
    end
  end.

Definition get_transformed_meshes (s : self) (joint_angles : list R)
  : result (key_error + list (string * Trimesh)) :=
  transforms <- get_link_transforms s joint_angles ;;
  Ok (transform_links s transforms (link_mesh_mapping s) []).

End Trimesh.

End UR3_MeshVisualizer.

(** ** The kinematic chain as the specification describes it

    The definitions of this module follow the words of the specification,
    not the code: a chain is a sequence of joint specifications, a joint's
    local transform is its fixed origin followed by a right-handed rotation
    about its axis, and the pose of a link is the pose of the previous link
    times the local transform of the joint between them. *)

Module Chain.

Module FK := UR3_URDF_ForwardKinematics.

Inductive axis_id : Type := AxisX | AxisY | AxisZ.

Definition unit_vector (a : axis_id) : R * R * R :=
  match a with
  | AxisX => (1, 0, 0)
  | AxisY => (0, 1, 0)
  | AxisZ => (0, 0, 1)
  end.

(** The right-handed rotation by [angle] about the unit vector of an axis
    (Rodrigues' formula), as a homogeneous matrix. *)
Definition rotation (a : axis_id) (angle : R) : mat :=
  let '(kx, ky, kz) := unit_vector a in
  let c := cos angle in
  let s := sin angle in
  let v := 1 - c in
  [ [c + kx * kx * v; kx * ky * v - kz * s; kx * kz * v + ky * s; 0];
    [ky * kx * v + kz * s; c + ky * ky * v; ky * kz * v - kx * s; 0];
    [kz * kx * v - ky * s; kz * ky * v + kx * s; c + kz * kz * v; 0];
    [0; 0; 0; 1] ].

(** The fixed origin of a joint: the translation [xyz] and the orientation
    of the fixed-axis roll, pitch and yaw angles [rpy]. *)
Definition fixedOrigin (xyz rpy : R * R * R) : mat :=
  let '(x, y, z) := xyz in
  let '(roll, pitch, yaw) := rpy in
  let cr := cos roll in let sr := sin roll in
  let cp := cos pitch in let sp := sin pitch in
  let cy := cos yaw in let sy := sin yaw in
  [ [cy * cp; cy * sp * sr - sy * cr; cy * sp * cr + sy * sr; x];
    [sy * cp; sy * sp * sr + cy * cr; sy * sp * cr - cy * sr; y];
    [- sp; cp * sr; cp * cr; z];
    [0; 0; 0; 1] ].

Record joint_spec : Type := {
  origin_xyz : R * R * R;
  origin_rpy : R * R * R;
  axis : axis_id
}.

Definition local_transform (j : joint_spec) (angle : R) : mat :=
  matmul (fixedOrigin (origin_xyz j) (origin_rpy j)) (rotation (axis j) angle).

(** The poses of the links after the one whose pose is [pose]. *)
Fixpoint cumulative (pose : mat) (chain : list joint_spec) (angles : list R)
  : list mat :=
  match chain, angles with
  | j :: chain', angle :: angles' =>
    let pose' := matmul pose (local_transform j angle) in
    pose' :: cumulative pose' chain' angles'
  | _, _ => []
  end.

(** Link 0 is the identity pose. *)
Definition link_poses (chain : list joint_spec) (angles : list R) : list mat :=
  eye 4 :: cumulative (eye 4) chain angles.

Definition link_names : list string :=
  [ "base"; "shoulder"; "upper_arm"; "forearm"; "wrist_1"; "wrist_2";
    "wrist_3" ]%string.

(** The six joints of the arm, in the words of the specification. *)
Definition ur3 (g : FK.self) : list joint_spec :=
  [ (* shoulder-pan: Z axis, offset by the shoulder height *)
    {| origin_xyz := (0, 0, FK.d1 g); origin_rpy := (0, 0, 0); axis := AxisZ |};
    (* shoulder-lift: Y axis, shoulder Y-offset, fixed 90 degree pitch *)
    {| origin_xyz := (0, FK.shoulder_offset g, 0);
       origin_rpy := (0, PI / 2, 0); axis := AxisY |};
    (* elbow: Y axis, elbow Y-offset and upper-arm length along Z *)
    {| origin_xyz := (0, FK.elbow_offset g, FK.upper_arm_length g);
       origin_rpy := (0, 0, 0); axis := AxisY |};
    (* wrist-1: Y axis, forearm length, fixed 90 degree pitch *)
    {| origin_xyz := (0, 0, FK.forearm_length g);
       origin_rpy := (0, PI / 2, 0); axis := AxisY |};
    (* wrist-2: Z axis, the derived wrist-1 length *)
    {| origin_xyz := (0, FK.wrist_1_length g, 0);
       origin_rpy := (0, 0, 0); axis := AxisZ |};
    (* wrist-3: Y axis, wrist-2 length *)
    {| origin_xyz := (0, 0, FK.wrist_2_length g);
       origin_rpy := (0, 0, 0); axis := AxisY |} ].

End Chain.

(** ** Definitions of the verification *)

Module FK := UR3_URDF_ForwardKinematics.
Module IK := UR3_InverseKinematics.

(** An array of [m] rows and [n] columns. *)
Definition shape (m n : nat) (A : mat) : Prop :=
  length A = m /\ Forall (fun r => length r = n) A.

(** A system of [n] equations in [n] unknowns whose homogeneous part has
    the zero vector as only solution. *)
Definition regular (n : nat) (rows : list equation) : Prop :=
  length rows = n /\
  (forall r, In r rows -> length (fst r) = n) /\
  (forall x, length x = n ->
     (forall r, In r rows -> dot (fst r) x = 0) -> x = zeros n).

(** The Gram matrix of the rows of [J]. *)
Definition gram (J : mat) : mat := map (fun r => map (dot r) J) J.

(** The combination of the rows of [J] with the coefficients [x]. *)
Fixpoint comb (n : nat) (x : vec) (J : mat) : vec :=
  match x, J with
  | a :: x', r :: J' => vadd (scale a r) (comb n x' J')
  | _, _ => zeros n
  end.

(** A call that raises nothing: it stops on a non-finite value or returns a
    value that satisfies [P]. *)
Definition returns {A : Type} (P : A -> Prop) (m : result A) : Prop :=
  m = NonFinite \/ exists a, m = Ok a /\ P a.

(** Every joint of [a] is within the threshold of the same joint of [b]. *)
Definition within (a b : vec) : Prop :=
  forall k x y, nth_error a k = Some x -> nth_error b k = Some y ->
                Rabs (x - y) < 0.05.

(** Some joint of [a] and [b] differs by the threshold or more. *)
Definition far (a b : vec) : Prop :=
  exists k x y, nth_error a k = Some x /\ nth_error b k = Some y /\
                0.05 <= Rabs (x - y).

Definition normalized (q : vec) : Prop := Forall (fun a => - PI <= a <= PI) q.

(** What every accumulator of the outer loop of [solve_ik] satisfies. *)
Definition distinct (solutions : list vec) : Prop :=
  Forall normalized solutions /\ ForallOrdPairs far solutions.

Inductive Subseq {A : Type} : list A -> list A -> Prop :=
| Subseq_nil : Subseq [] []
| Subseq_skip a l1 l2 : Subseq l1 l2 -> Subseq l1 (a :: l2)
| Subseq_keep a l1 l2 : Subseq l1 l2 -> Subseq (a :: l1) (a :: l2).

(** The results of the seeds that succeeded, in seed order. *)
Fixpoint successes (results : list (option vec)) : list vec :=
  match results with
  | [] => []
  | Some q :: rest => q :: successes rest
  | None :: rest => successes rest
  end.

(** What the outer loop of [solve_ik] has from a seed: the solution that
    [_solve_single] returned, or [None]. *)
Definition seed_result (s : IK.self) (T : mat) (seed : vec) : option vec :=
  match IK._solve_single s T seed with
  | Ok result => result
  | _ => None
  end.

(** [reaches s T d k q0 q]: from the iterate [q0], [k] rounds of the loop of
    [_solve_single] fail the convergence test and leave the iterate [q]. *)
Inductive reaches (s : IK.self) (T : mat) (d : R) : nat -> vec -> vec -> Prop :=
| reaches_here q : reaches s T d O q q
| reaches_round k q q' q'' dp dw :
    IK.pose_error s T q = Ok (dp, dw) ->
    IK.converged s dp dw = false ->
    IK.update s d q (dp ++ dw) = Ok q' ->
    reaches s T d k q' q'' ->
    reaches s T d (S k) q q''.

(** The two loops of [normalize_joint_angles] on one angle, as relations
    between the angle on entry and the angle on exit. *)
Inductive loop_above : R -> R -> Prop :=
| above_exit x : ~ x > PI -> loop_above x x
| above_round x y : x > PI -> loop_above (x - 2 * PI) y -> loop_above x y.

Inductive loop_below : R -> R -> Prop :=
| below_exit x : ~ x < - PI -> loop_below x x
| below_round x y : x < - PI -> loop_below (x + 2 * PI) y -> loop_below x y.

(** The name that [forward_kinematics] passes to [joint_transform] for an
    axis. *)
Definition axis_name (a : Chain.axis_id) : string :=
  match a with
  | Chain.AxisX => "x"
  | Chain.AxisY => "y"
  | Chain.AxisZ => "z"
  end.

Definition home : vec := [0; 0; 0; 0; 0; 0].

(** The link poses of the home configuration for the reference geometry. *)
Definition home_transforms : FK.link_transforms :=
  {| FK.base := [ [1; 0; 0; 0]; [0; 1; 0; 0]; [0; 0; 1; 0]; [0; 0; 0; 1] ];
     FK.shoulder :=
       [ [1; 0; 0; 0]; [0; 1; 0; 0]; [0; 0; 1; 0.1519]; [0; 0; 0; 1] ];
     FK.upper_arm :=
       [ [0; 0; 1; 0]; [0; 1; 0; 0.1198]; [-1; 0; 0; 0.1519]; [0; 0; 0; 1] ];
     FK.forearm :=
       [ [0; 0; 1; 0.24365]; [0; 1; 0; 0.0273]; [-1; 0; 0; 0.1519];
         [0; 0; 0; 1] ];
     FK.wrist_1 :=
       [ [-1; 0; 0; 0.4569]; [0; 1; 0; 0.0273]; [0; 0; -1; 0.1519];
         [0; 0; 0; 1] ];
     FK.wrist_2 :=
       [ [-1; 0; 0; 0.4569]; [0; 1; 0; 0.11235]; [0; 0; -1; 0.1519];
         [0; 0; 0; 1] ];
     FK.wrist_3 :=
       [ [-1; 0; 0; 0.4569]; [0; 1; 0; 0.11235]; [0; 0; -1; 0.06655];
         [0; 0; 0; 1] ] |}.

(** The home configuration with a half turn of the last joint, and its link
    poses: only the last link has moved. *)
Definition wrist_turned : vec := [0; 0; 0; 0; 0; PI].

Definition wrist_turned_transforms : FK.link_transforms :=
  {| FK.base := FK.base home_transforms;
     FK.shoulder := FK.shoulder home_transforms;
     FK.upper_arm := FK.upper_arm home_transforms;
     FK.forearm := FK.forearm home_transforms;
     FK.wrist_1 := FK.wrist_1 home_transforms;
     FK.wrist_2 := FK.wrist_2 home_transforms;
     FK.wrist_3 :=
       [ [1; 0; 0; 0.4569]; [0; 1; 0; 0.11235]; [0; 0; 1; 0.06655];
         [0; 0; 0; 1] ] |}.

(** The home pose with its rotation block doubled: a target that is not a
    rigid transform. *)
Definition stretched_home : mat :=
  [ [-2; 0; 0; 0.4569]; [0; 2; 0; 0.11235]; [0; 0; -2; 0.06655];
    [0; 0; 0; 1] ].

(** A linear congruential generator, to run the solver's seeding on a
    concrete [RandomState]. *)
Definition lcg_seed (seed : Z) : Z := (seed mod 2147483648)%Z.

Definition lcg_sample (g : Z) : R * Z :=
  (IZR g / 2147483648, ((1103515245 * g + 12345) mod 2147483648)%Z).

Section Generators.

Variable RandomState : Type.
Variable RandomState_seed : Z -> RandomState.
Variable random_sample : RandomState -> R * RandomState.

(** The state of a generator after [n] draws, and the draw number [n] of
    the generator, counted from 0. *)
Fixpoint advance (n : nat) (g : RandomState) : RandomState :=
  match n with
  | O => g
  | S k => advance k (snd (random_sample g))
  end.

Definition nth_sample (n : nat) (g : RandomState) : R :=
  fst (random_sample (advance n g)).

(** A program that holds one kinematics object and one solver object, with
    the store of the generator objects that its calls have built. *)
Record world : Type := {
  fk_object : FK.self;
  ik_object : IK.self;
  generators : IK.store RandomState
}.

Inductive call : Type :=
| Call_forward_kinematics (joint_angles : list R)
| Call_solve_ik (T_desired : mat).

Inductive outcome : Type :=
| Link_transforms (r : result FK.link_transforms)
| Solutions (r : result (list vec)).

(** One call in a world: what it returns and the world it leaves. *)
Definition run (c : call) (w : world) : outcome * world :=
  match c with
  | Call_forward_kinematics joint_angles =>
    let (r, g) := FK.call_forward_kinematics joint_angles (fk_object w) in
    (Link_transforms r,
     {| fk_object := g; ik_object := ik_object w;
        generators := generators w |})
  | Call_solve_ik T_desired =>
    let (r, h) :=
      IK.run_solve_ik RandomState RandomState_seed random_sample
        (ik_object w) T_desired (generators w) in
    (Solutions r,
     {| fk_object := fk_object w; ik_object := ik_object w;
        generators := h |})
  end.

(** The world after a sequence of calls, the first of the list first. *)
Definition run_all (calls : list call) (w : world) : world :=
  fold_left (fun w c => snd (run c w)) calls w.

End Generators.

(** The states of the linear congruential generator, as integers. *)
Definition lcg_next (g : Z) : Z := ((1103515245 * g + 12345) mod 2147483648)%Z.

Fixpoint lcg_state (n : nat) (g : Z) : Z :=
  match n with
  | O => g
  | S k => lcg_state k (lcg_next g)
  end.

(** A program with two new objects and no generator object yet. *)
Definition home_world : world Z :=
  {| fk_object := FK.__init__;
     ik_object := IK.__init__;
     generators := {| IK.cells := fun _ => 0%Z; IK.next := 0 |} |}.

(** A rotation block: a 3x3 array that its transpose inverts on both
    sides. *)
Definition rotation3 (A : mat) : Prop :=
  shape 3 3 A /\
  matmul A (transpose A) = eye 3 /\
  matmul (transpose A) A = eye 3.

(** A homogeneous transform: a 4x4 array whose last row is [0, 0, 0, 1]. *)
Definition homogeneous (H : mat) : Prop :=
  shape 4 4 H /\ nth 3 H [] = [0; 0; 0; 1].

(** The rotation of a joint about its axis, by the name of the axis: the
    second factor of [joint_transform]. *)
Definition joint_rotation (axis : string) (q : R) : mat :=
  if String.eqb axis "z" then FK._rotz q
  else if String.eqb axis "y" then FK._roty q
  else FK._rotx q.

(** The six local transforms that [forward_kinematics] multiplies. *)
Definition joint_transforms (s : FK.self) (q : vec) : list mat :=
  match q with
  | q0 :: q1 :: q2 :: q3 :: q4 :: q5 :: _ =>
    [ FK.joint_transform (0, 0, FK.d1 s) (0, 0, 0) q0 "z";
      FK.joint_transform (0, FK.shoulder_offset s, 0) (0, PI / 2, 0) q1 "y";
      FK.joint_transform (0, FK.elbow_offset s, FK.upper_arm_length s)
        (0, 0, 0) q2 "y";
      FK.joint_transform (0, 0, FK.forearm_length s) (0, PI / 2, 0) q3 "y";
      FK.joint_transform (0, FK.wrist_1_length s, 0) (0, 0, 0) q4 "z";
      FK.joint_transform (0, 0, FK.wrist_2_length s) (0, 0, 0) q5 "y" ]
  | _ => []
  end.

(** Equality of two arrays, entry by entry. *)
Tactic Notation "mat_eq" tactic3(tac) :=
  repeat match goal with
         | |- _ :: _ = _ :: _ => apply f_equal2
         | |- @eq R _ _ => solve [ tac ]
         | |- @nil _ = @nil _ => reflexivity
         end.

(** A list of a known length, taken apart into its elements. *)
Ltac list_of_length H :=
  match type of H with
  | length ?l = S _ =>
    let a := fresh "a" in let t := fresh "t" in
    destruct l as [|a t]; [discriminate H|];
    cbn [length] in H; apply eq_add_S in H; list_of_length H
  | length ?l = O => destruct l; [clear H | discriminate H]
  end.

Ltac rows_of_shape H :=
  match type of H with
  | Forall _ (_ :: _) =>
    let H1 := fresh "Hr" in let H2 := fresh "Hrs" in
    inversion H as [|? ? H1 H2]; subst; clear H;
    list_of_length H1; rows_of_shape H2
  | Forall _ [] => clear H
  end.

Ltac matrix_of_shape H :=
  let Hl := fresh "Hl" in let Hr := fresh "Hr" in
  destruct H as [Hl Hr]; list_of_length Hl; rows_of_shape Hr.

(** The product that gives a link of the home configuration. *)
Ltac link_at_home A link :=
  lazymatch goal with
  | |- context [matmul A ?B] =>
    replace (matmul A B) with link
      by (symmetry; cbn -[cos sin PI]; mat_eq lra)
  end.

(** ** Rigid transforms, joint positions and meshes *)

Module Loader := UR3_MeshLoader.
Module Visualizer := UR3_MeshVisualizer.

(** The determinant of a 3x3 array. *)
Definition det3 (A : mat) : R :=
  get A 0 0 * (get A 1 1 * get A 2 2 - get A 1 2 * get A 2 1)
  - get A 0 1 * (get A 1 0 * get A 2 2 - get A 1 2 * get A 2 0)
  + get A 0 2 * (get A 1 0 * get A 2 1 - get A 1 1 * get A 2 0).

(** A rigid transform: a homogeneous transform whose rotation block is
    orthogonal and has determinant one. *)
Definition rigid (H : mat) : Prop :=
  homogeneous H /\ rotation3 (block33 H) /\ det3 (block33 H) = 1.

(** A proper rotation block: orthogonal, with determinant one. *)
Definition special (M : mat) : Prop := rotation3 M /\ det3 M = 1.

(** The vectors between consecutive points of a list. *)
Fixpoint segments (ps : list vec) : list vec :=
  match ps with
  | p :: (p' :: _) as rest => vsub p' p :: segments rest
  | _ => []
  end.

(** The origin offsets of the six joints, as [forward_kinematics] passes
    them to [joint_transform]. *)
Definition joint_offsets (s : FK.self) : list vec :=
  [ [0; 0; FK.d1 s];
    [0; FK.shoulder_offset s; 0];
    [0; FK.elbow_offset s; FK.upper_arm_length s];
    [0; 0; FK.forearm_length s];
    [0; FK.wrist_1_length s; 0];
    [0; 0; FK.wrist_2_length s] ].

(** An angle within a pair of limits, both ends included. *)
Definition in_limits (angle : R) (limits : R * R) : Prop :=
  fst limits <= angle <= snd limits.

(** [M[:, j]] for a column inside the array. *)
Definition column (j : nat) (M : mat) : vec := map (fun r => nth j r 0) M.

(** The meshes that are loaded, each moved by the pose of the link of its
    name, in the order of the links. *)
Definition placed {Trimesh : Type} (copy : Trimesh -> Trimesh)
    (apply_transform : mat -> Trimesh -> Trimesh)
    (loaded : list (string * Trimesh)) (links : list (string * mat))
  : list (string * Trimesh) :=
  flat_map
    (fun link =>
       match dict_get String.eqb loaded (fst link) with
       | Some mesh => [(fst link, apply_transform (snd link) (copy mesh))]
       | None => []
       end)
    links.

(** A mesh reduced to the list of its vertices, to run the visualizer on a
    concrete [Trimesh]. *)
Definition vertex_mesh : Type := list vec.

Definition vertex_copy (mesh : vertex_mesh) : vertex_mesh := mesh.

Definition vertex_apply_transform (T : mat) (mesh : vertex_mesh)
  : vertex_mesh :=
  map (fun v => firstn 3 (matvec T (v ++ [1]))) mesh.

(** The pose of the end effector once the base joint has turned by one
    radian from the home configuration. *)
Definition base_turned : mat :=
  fold_left matmul (joint_transforms FK.__init__ [0 + 1; 0; 0; 0; 0; 0])
            (eye 4).

(** ** Forward kinematics *)

Section ForwardKinematics.

Lemma create_transform_fixedOrigin (xyz rpy : R * R * R) :
  FK._create_transform xyz rpy = Chain.fixedOrigin xyz rpy.
Proof.
  destruct xyz as [[x y] z], rpy as [[r p] yw].
  unfold FK._create_transform, Chain.fixedOrigin.
  cbn -[cos sin].
  mat_eq ring.
Qed.

Lemma rotz_rotation q : FK._rotz q = Chain.rotation Chain.AxisZ q.
Proof. unfold FK._rotz, Chain.rotation; cbn -[cos sin]. mat_eq ring. Qed.
Lemma roty_rotation q : FK._roty q = Chain.rotation Chain.AxisY q.
Proof. unfold FK._roty, Chain.rotation; cbn -[cos sin]. mat_eq ring. Qed.
Lemma rotx_rotation q : FK._rotx q = Chain.rotation Chain.AxisX q.
Proof. unfold FK._rotx, Chain.rotation; cbn -[cos sin]. mat_eq ring. Qed.

Lemma joint_transform_local (j : Chain.joint_spec) (q : R) :
  FK.joint_transform (Chain.origin_xyz j) (Chain.origin_rpy j) q
    (axis_name (Chain.axis j))
  = Chain.local_transform j q.
Proof.
  unfold FK.joint_transform, Chain.local_transform.
  rewrite create_transform_fixedOrigin.
  destruct (Chain.axis j); cbn [axis_name String.eqb Ascii.eqb Bool.eqb];
    [ rewrite rotx_rotation | rewrite roty_rotation | rewrite rotz_rotation ];
    reflexivity.
Qed.

Lemma joint_transform_z (x y z q : R) :
  FK.joint_transform (x, y, z) (0, 0, 0) q "z" =
  [ [cos q; - sin q; 0; x]; [sin q; cos q; 0; y]; [0; 0; 1; z]; [0; 0; 0; 1] ].
Proof.
  unfold FK.joint_transform, FK._create_transform.
  cbn -[cos sin]. rewrite cos_0, sin_0. mat_eq ring.
Qed.

Lemma joint_transform_y (x y z q : R) :
  FK.joint_transform (x, y, z) (0, 0, 0) q "y" =
  [ [cos q; 0; sin q; x]; [0; 1; 0; y]; [- sin q; 0; cos q; z]; [0; 0; 0; 1] ].
Proof.
  unfold FK.joint_transform, FK._create_transform.
  cbn -[cos sin]. rewrite cos_0, sin_0. mat_eq ring.
Qed.

Lemma joint_transform_y_pitch (x y z q : R) :
  FK.joint_transform (x, y, z) (0, PI / 2, 0) q "y" =
  [ [- sin q; 0; cos q; x]; [0; 1; 0; y]; [- cos q; 0; - sin q; z];
    [0; 0; 0; 1] ].
Proof.
  unfold FK.joint_transform, FK._create_transform.
  cbn -[cos sin PI]. rewrite cos_0, sin_0, cos_PI2, sin_PI2. mat_eq ring.
Qed.

Lemma forward_kinematics_home :
  FK.forward_kinematics FK.__init__ [0; 0; 0; 0; 0; 0] = Ok home_transforms.
Proof.
  unfold FK.forward_kinematics. cbn [getitem nth_error bind].
  rewrite !joint_transform_z, !joint_transform_y, !joint_transform_y_pitch.
  rewrite cos_0, sin_0.
  link_at_home (eye 4) (FK.shoulder home_transforms).
  link_at_home (FK.shoulder home_transforms) (FK.upper_arm home_transforms).
  link_at_home (FK.upper_arm home_transforms) (FK.forearm home_transforms).
  link_at_home (FK.forearm home_transforms) (FK.wrist_1 home_transforms).
  link_at_home (FK.wrist_1 home_transforms) (FK.wrist_2 home_transforms).
  link_at_home (FK.wrist_2 home_transforms) (FK.wrist_3 home_transforms).
  reflexivity.
Qed.

Lemma forward_kinematics_wrist_turned :
  FK.forward_kinematics FK.__init__ wrist_turned = Ok wrist_turned_transforms.
Proof.
  unfold FK.forward_kinematics, wrist_turned. cbn [getitem nth_error bind].
  rewrite !joint_transform_z, !joint_transform_y, !joint_transform_y_pitch.
  rewrite cos_0, sin_0, cos_PI, sin_PI.
  link_at_home (eye 4) (FK.shoulder home_transforms).
  link_at_home (FK.shoulder home_transforms) (FK.upper_arm home_transforms).
  link_at_home (FK.upper_arm home_transforms) (FK.forearm home_transforms).
  link_at_home (FK.forearm home_transforms) (FK.wrist_1 home_transforms).
  link_at_home (FK.wrist_1 home_transforms) (FK.wrist_2 home_transforms).
  link_at_home (FK.wrist_2 home_transforms)
               (FK.wrist_3 wrist_turned_transforms).
  reflexivity.
Qed.

(** A quarter turn about X takes Y to Z, about Y takes Z to X, and about Z
    takes X to Y. *)
Lemma rotation_right_handed :
  matvec (Chain.rotation Chain.AxisX (PI / 2)) [0; 1; 0; 1] = [0; 0; 1; 1] /\
  matvec (Chain.rotation Chain.AxisY (PI / 2)) [0; 0; 1; 1] = [1; 0; 0; 1] /\
  matvec (Chain.rotation Chain.AxisZ (PI / 2)) [1; 0; 0; 1] = [0; 1; 0; 1].
Proof.
  unfold Chain.rotation. cbn -[cos sin PI]. rewrite cos_PI2, sin_PI2.
  repeat split; mat_eq ring.
Qed.

End ForwardKinematics.

(** ** Normalisation of joint angles *)

Section Normalize.

Lemma PI_gt_3 : 3 < PI.
Proof. pose proof PI_4 as H4. pose proof PI2_3_2 as H. lra. Qed.

(** The loop that subtracts. *)
Lemma while_above_id fuel x : x <= PI -> FK.while_above fuel x = x.
Proof.
  intros Hx. destruct fuel as [|f]; cbn; [reflexivity|].
  destruct (Rgt_dec x PI); [lra | reflexivity].
Qed.

Lemma while_above_shift fuel x :
  exists k : nat, FK.while_above fuel x = x - 2 * PI * INR k.
Proof.
  revert x. induction fuel as [|f IH]; intros x.
  - exists 0%nat. cbn. lra.
  - cbn [FK.while_above]. destruct (Rgt_dec x PI).
    + destruct (IH (x - 2 * PI)) as [k Hk]. exists (S k).
      rewrite Hk, S_INR. lra.
    + exists 0%nat. cbn. lra.
Qed.

Lemma while_above_exit fuel x :
  x <= PI + 2 * PI * INR fuel -> FK.while_above fuel x <= PI.
Proof.
  revert x. induction fuel as [|f IH]; intros x Hx.
  - cbn in *. lra.
  - cbn [FK.while_above]. destruct (Rgt_dec x PI); [|lra].
    apply IH. rewrite S_INR in Hx. lra.
Qed.

Lemma while_above_lower fuel x : PI < x -> - PI < FK.while_above fuel x.
Proof.
  pose proof PI_gt_3.
  revert x. induction fuel as [|f IH]; intros x Hx.
  - cbn. lra.
  - cbn [FK.while_above]. destruct (Rgt_dec x PI); [|lra].
    destruct (Rle_or_lt (x - 2 * PI) PI) as [Hle|Hgt].
    + rewrite while_above_id by assumption. lra.
    + apply IH, Hgt.
Qed.

Lemma while_below_id fuel x : - PI <= x -> FK.while_below fuel x = x.
Proof.
  intros Hx. destruct fuel as [|f]; cbn; [reflexivity|].
  destruct (Rlt_dec x (- PI)); [lra | reflexivity].
Qed.

Lemma while_below_shift fuel x :
  exists k : nat, FK.while_below fuel x = x + 2 * PI * INR k.
Proof.
  revert x. induction fuel as [|f IH]; intros x.
  - exists 0%nat. cbn. lra.
  - cbn [FK.while_below]. destruct (Rlt_dec x (- PI)).
    + destruct (IH (x + 2 * PI)) as [k Hk]. exists (S k).
      rewrite Hk, S_INR. lra.
    + exists 0%nat. cbn. lra.
Qed.

Lemma while_below_exit fuel x :
  - PI - 2 * PI * INR fuel <= x -> - PI <= FK.while_below fuel x.
Proof.
  revert x. induction fuel as [|f IH]; intros x Hx.
  - cbn in *. lra.
  - cbn [FK.while_below]. destruct (Rlt_dec x (- PI)); [|lra].
    apply IH. rewrite S_INR in Hx. lra.
Qed.

Lemma while_below_upper fuel x : x < - PI -> FK.while_below fuel x < PI.
Proof.
  pose proof PI_gt_3.
  revert x. induction fuel as [|f IH]; intros x Hx.
  - cbn. lra.
  - cbn [FK.while_below]. destruct (Rlt_dec x (- PI)); [|lra].
    destruct (Rle_or_lt (- PI) (x + 2 * PI)) as [Hle|Hgt].
    + rewrite while_below_id by assumption. lra.
    + apply IH, Hgt.
Qed.

Lemma rounds_bound x : Rabs x <= INR (FK.rounds x).
Proof.
  unfold FK.rounds.
  destruct (archimed (Rabs x)) as [Hup _].
  pose proof (Rabs_pos x) as Hpos.
  assert (0 <= up (Rabs x))%Z as Hz.
  { apply le_IZR. lra. }
  rewrite INR_IZR_INZ, Z2Nat.id by assumption. lra.
Qed.

Lemma while_above_runs fuel x :
  x <= PI + 2 * PI * INR fuel -> loop_above x (FK.while_above fuel x).
Proof.
  revert x. induction fuel as [|f IH]; intros x Hx.
  - cbn in *. apply above_exit. lra.
  - cbn [FK.while_above]. destruct (Rgt_dec x PI) as [Hgt|Hle].
    + apply above_round; [assumption|]. apply IH. rewrite S_INR in Hx. lra.
    + now apply above_exit.
Qed.

Lemma while_below_runs fuel x :
  - PI - 2 * PI * INR fuel <= x -> loop_below x (FK.while_below fuel x).
Proof.
  revert x. induction fuel as [|f IH]; intros x Hx.
  - cbn in *. apply below_exit. lra.
  - cbn [FK.while_below]. destruct (Rlt_dec x (- PI)) as [Hlt|Hge].
    + apply below_round; [assumption|]. apply IH. rewrite S_INR in Hx. lra.
    + now apply below_exit.
Qed.

Lemma rounds_above x : x <= PI + 2 * PI * INR (FK.rounds x).
Proof.
  pose proof PI_gt_3. pose proof (rounds_bound x). pose proof (Rle_abs x).
  pose proof (pos_INR (FK.rounds x)). nra.
Qed.

Lemma rounds_below x : - PI - 2 * PI * INR (FK.rounds x) <= x.
Proof.
  pose proof PI_gt_3. pose proof (rounds_bound x).
  pose proof (Rle_abs (- x)) as Habs. rewrite Rabs_Ropp in Habs.
  pose proof (pos_INR (FK.rounds x)). nra.
Qed.

Lemma normalize_angle_runs x :
  exists m, loop_above x m /\ loop_below m (FK.normalize_angle x).
Proof.
  exists (FK.while_above (FK.rounds x) x). split.
  - apply while_above_runs, rounds_above.
  - apply while_below_runs, rounds_below.
Qed.

Lemma normalize_angle_range x :
  - PI <= FK.normalize_angle x <= PI.
Proof.
  pose proof PI_gt_3 as Hpi.
  unfold FK.normalize_angle.
  set (y := FK.while_above (FK.rounds x) x).
  assert (Hy : y <= PI).
  { apply while_above_exit. pose proof (rounds_bound x). pose proof (Rle_abs x).
    pose proof (pos_INR (FK.rounds x)). nra. }
  split.
  - apply while_below_exit. pose proof (rounds_bound y).
    pose proof (Rle_abs (- y)) as Habs. rewrite Rabs_Ropp in Habs.
    pose proof (pos_INR (FK.rounds y)). nra.
  - destruct (Rle_or_lt (- PI) y) as [Hle|Hlt].
    + rewrite while_below_id; assumption.
    + left. apply while_below_upper, Hlt.
Qed.

Lemma normalize_angle_shift x :
  exists k : Z, FK.normalize_angle x = x + 2 * PI * IZR k.
Proof.
  unfold FK.normalize_angle.
  destruct (while_above_shift (FK.rounds x) x) as [k Hk].
  destruct (while_below_shift (FK.rounds (FK.while_above (FK.rounds x) x))
              (FK.while_above (FK.rounds x) x)) as [m Hm].
  exists (Z.of_nat m - Z.of_nat k)%Z.
  rewrite Hm, Hk, minus_IZR, <- !INR_IZR_INZ. lra.
Qed.

Lemma normalize_angle_open x :
  - PI < x -> - PI < FK.normalize_angle x.
Proof.
  intros Hx. unfold FK.normalize_angle.
  set (y := FK.while_above (FK.rounds x) x).
  assert (Hy : - PI < y).
  { destruct (Rle_or_lt x PI) as [Hle|Hgt].
    - subst y. rewrite while_above_id; assumption.
    - apply while_above_lower, Hgt. }
  rewrite while_below_id; lra.
Qed.

Lemma normalize_angle_id x :
  - PI <= x <= PI -> FK.normalize_angle x = x.
Proof.
  intros [Hlo Hhi]. unfold FK.normalize_angle.
  rewrite (while_above_id _ x Hhi). apply while_below_id, Hlo.
Qed.

End Normalize.

(** ** Vectors *)

Section Vectors.

Lemma length_zipWith f u v :
  length (zipWith f u v) = Nat.min (length u) (length v).
Proof.
  revert v. induction u as [|a u IH]; intros [|b v]; cbn; auto.
Qed.

Lemma length_scale c v : length (scale c v) = length v.
Proof. apply length_map. Qed.

Lemma length_zeros n : length (zeros n) = n.
Proof. apply repeat_length. Qed.

Lemma dot_nil_r u : dot u [] = 0.
Proof. destruct u; reflexivity. Qed.

Lemma dot_comm u v : dot u v = dot v u.
Proof.
  revert v. induction u as [|a u IH]; intros [|b v]; cbn; auto.
  rewrite IH. ring.
Qed.

Lemma dot_scale_l c u v : dot (scale c u) v = c * dot u v.
Proof.
  revert v. induction u as [|a u IH]; intros [|b v]; cbn; try ring.
  unfold scale in IH. rewrite IH. ring.
Qed.

Lemma dot_vsub_l u v w :
  length u = length v -> dot (vsub u v) w = dot u w - dot v w.
Proof.
  revert v w. induction u as [|a u IH]; intros [|b v] [|c w] H; cbn in *;
    try discriminate; try ring.
  unfold vsub in IH. rewrite IH by congruence. ring.
Qed.

Lemma dot_vadd_l u v w :
  length u = length v -> dot (vadd u v) w = dot u w + dot v w.
Proof.
  revert v w. induction u as [|a u IH]; intros [|b v] [|c w] H; cbn in *;
    try discriminate; try ring.
  unfold vadd in IH. rewrite IH by congruence. ring.
Qed.

Lemma dot_zeros_l n v : dot (zeros n) v = 0.
Proof.
  revert v. induction n as [|n IH]; intros [|b v]; cbn; auto.
  fold (zeros n). rewrite IH. ring.
Qed.

Lemma dot_self_nonneg v : 0 <= dot v v.
Proof. induction v as [|a v IH]; cbn; [lra | nra]. Qed.

Lemma dot_self_zero v : dot v v = 0 -> v = zeros (length v).
Proof.
  induction v as [|a v IH]; cbn; intros H; [reflexivity|].
  pose proof (dot_self_nonneg v).
  assert (a = 0) by nra. subst a.
  fold (zeros (length v)). rewrite <- IH by nra. reflexivity.
Qed.

End Vectors.

(** ** Gaussian elimination *)

Section Gauss.

Lemma pick_pivot_spec rows p rest :
  pick_pivot rows = Some (p, rest) ->
  length rows = S (length rest) /\
  (forall r, In r rows <-> r = p \/ In r rest) /\
  (forall r, In r rows -> Rabs (hd 0 (fst r)) <= Rabs (hd 0 (fst p))).
Proof.
  revert p rest. induction rows as [|r0 rows IH]; intros p rest H; cbn in H.
  - discriminate.
  - destruct (pick_pivot rows) as [[p' rest']|] eqn:E.
    + destruct (IH _ _ eq_refl) as (Hlen & Hin & Hmax).
      destruct (Rle_dec _ _) as [Hle|Hnle]; inversion H; subst; clear H.
      * split; [cbn; lia|]. split.
        -- intros r. cbn. rewrite Hin. intuition auto.
        -- intros r [->|Hr]; [lra|]. specialize (Hmax r Hr). lra.
      * split; [cbn; lia|]. split.
        -- intros r. cbn. rewrite Hin. intuition auto.
        -- intros r [->|Hr]; [lra|]. apply Hmax, Hr.
    + inversion H; subst; clear H.
      destruct rows; [|cbn in E; destruct (pick_pivot rows) as [[? ?]|];
                        [destruct (Rle_dec _ _)|]; discriminate].
      split; [reflexivity|]. split.
      * intros r. cbn. intuition auto.
      * intros r [->|[]]. lra.
Qed.

Lemma pick_pivot_some r rows : pick_pivot (r :: rows) <> None.
Proof.
  cbn. destruct (pick_pivot rows) as [[p rest]|]; [|discriminate].
  destruct (Rle_dec _ _); discriminate.
Qed.


Lemma dot_zeros_r n v : dot v (zeros n) = 0.
Proof. rewrite dot_comm. apply dot_zeros_l. Qed.

Lemma dot_eliminate p r y :
  length (fst r) = length (fst p) ->
  dot (fst (eliminate p r)) y =
  dot (tl (fst r)) y - hd 0 (fst r) / hd 0 (fst p) * dot (tl (fst p)) y.
Proof.
  intros Hlen. unfold eliminate. cbn [fst].
  destruct r as [[|a c] b], p as [[|ap cp] bp]; cbn in *; try discriminate.
  - ring.
  - fold (scale (a / ap) cp). fold (vsub c (scale (a / ap) cp)).
    rewrite dot_vsub_l, dot_scale_l; [reflexivity|].
    rewrite length_scale. congruence.
Qed.

Lemma length_eliminate p r :
  length (fst r) = length (fst p) ->
  length (fst (eliminate p r)) = pred (length (fst p)).
Proof.
  intros Hlen. unfold eliminate. cbn [fst].
  destruct r as [[|a c] b], p as [[|ap cp] bp]; cbn in *; try discriminate;
    [reflexivity|].
  fold (scale (a / ap) cp). fold (vsub c (scale (a / ap) cp)).
  unfold vsub. rewrite length_zipWith, length_scale.
  injection Hlen as Hlen. rewrite Hlen. apply Nat.min_id.
Qed.

Lemma gauss_regular n : forall rows,
  regular n rows ->
  exists x, gauss n rows = Some x /\ length x = n /\
            forall r, In r rows -> dot (fst r) x = snd r.
Proof.
  induction n as [|m IH]; intros rows (Hlen & Hrow & Hker).
  - exists []. destruct rows; [|discriminate].
    repeat split. intros r [].
  - destruct rows as [|r0 rows']; [discriminate|].
    cbn [gauss].
    destruct (pick_pivot (r0 :: rows')) as [[p rest]|] eqn:Epiv;
      [|exfalso; eapply pick_pivot_some; eassumption].
    destruct (pick_pivot_spec _ _ _ Epiv) as (Hlen' & Hin & Hmax).
    assert (Hp : In p (r0 :: rows')) by (apply Hin; auto).
    assert (Hrest : forall r, In r rest -> In r (r0 :: rows'))
      by (intros; apply Hin; auto).
    assert (Hlenrest : length rest = m) by lia.
    pose proof (Hrow p Hp) as Hlp.
    destruct p as [[|ap cp] bp]; [discriminate|].
    cbn [fst snd hd tl] in *.
    assert (Hcp : length cp = m) by (injection Hlp; auto).
    destruct (Req_dec_T ap 0) as [Hap|Hap].
    { exfalso. subst ap.
      assert (H1 : 1 :: zeros m = zeros (S m)).
      { apply Hker; [cbn; now rewrite length_zeros|].
        intros r Hr. pose proof (Hmax r Hr) as Hm. pose proof (Hrow r Hr) as Hl.
        destruct r as [[|h t] b]; [discriminate|]. cbn [fst hd] in *.
        rewrite Rabs_R0 in Hm. pose proof (Rabs_pos h).
        assert (Hh : Rabs h = 0) by lra.
        destruct (Req_dec h 0) as [->|Hne];
          [|exfalso; apply (Rabs_no_R0 h); assumption].
        cbn. rewrite dot_zeros_r. ring. }
      cbn in H1. injection H1. intros. lra. }
    assert (Hreg : regular m (map (eliminate (ap :: cp, bp)) rest)).
    { split; [now rewrite length_map|]. split.
      - intros r' Hr'. apply in_map_iff in Hr' as (r & <- & Hr).
        pose proof (Hrow r (Hrest r Hr)) as Hl.
        rewrite length_eliminate; cbn [fst]; [cbn; lia|].
        rewrite Hl. cbn. congruence.
      - intros y Hy Hzero.
        set (x0 := - dot cp y / ap).
        assert (Hx : x0 :: y = zeros (S m)).
        { apply Hker; [cbn; congruence|].
          intros r Hr. apply Hin in Hr as [->|Hr].
          - cbn. unfold x0. field. assumption.
          - pose proof (Hrow r (Hrest r Hr)) as Hl.
            assert (Hz := Hzero (eliminate (ap :: cp, bp) r) (in_map _ _ _ Hr)).
            rewrite dot_eliminate in Hz by (cbn [fst]; cbn; congruence).
            destruct r as [[|h t] b]; [discriminate|]. cbn [fst hd tl] in *.
            cbn. unfold x0.
            replace (dot t y) with (h / ap * dot cp y) by lra.
            field. assumption. }
        cbn in Hx. injection Hx. intros. assumption. }
    destruct (IH _ Hreg) as (xs & -> & Hxs & Hsol).
    eexists. split; [reflexivity|]. split; [cbn; congruence|].
    intros r Hr. apply Hin in Hr as [->|Hr].
    + cbn. field. assumption.
    + pose proof (Hrow r (Hrest r Hr)) as Hl.
      assert (Hs := Hsol (eliminate (ap :: cp, bp) r) (in_map _ _ _ Hr)).
      rewrite dot_eliminate in Hs by (cbn [fst]; cbn; congruence).
      destruct r as [[|h t] b]; [discriminate|].
      cbn [fst snd hd tl eliminate] in *.
      cbn [dot].
      replace (dot t xs) with (b - h / ap * bp + h / ap * dot cp xs) by lra.
      field. assumption.
Qed.

End Gauss.

(** ** [np.linalg.solve] on a regular matrix *)

Section Solve.

Lemma dot_vsub_r u v w :
  length v = length w -> dot u (vsub v w) = dot u v - dot u w.
Proof.
  intros H. rewrite dot_comm, dot_vsub_l by assumption.
  now rewrite (dot_comm v), (dot_comm w).
Qed.

Lemma dot_vadd_r u v w :
  length v = length w -> dot u (vadd v w) = dot u v + dot u w.
Proof.
  intros H. rewrite dot_comm, dot_vadd_l by assumption.
  now rewrite (dot_comm v), (dot_comm w).
Qed.

Lemma dot_scale_r c u v : dot u (scale c v) = c * dot u v.
Proof. now rewrite dot_comm, dot_scale_l, dot_comm. Qed.

Lemma vsub_zeros u v :
  length u = length v -> vsub u v = zeros (length u) -> u = v.
Proof.
  revert v. induction u as [|a u IH]; intros [|b v] Hlen H; cbn in *;
    try discriminate; [reflexivity|].
  injection H as Hab Hrest. injection Hlen as Hlen.
  f_equal; [lra|]. apply IH; assumption.
Qed.

Lemma is_square_shape n A : shape n n A -> is_square A = true.
Proof.
  intros [Hlen Hrows]. unfold is_square. apply forallb_forall.
  intros r Hr. rewrite Forall_forall in Hrows.
  rewrite (Hrows r Hr), Hlen. apply Nat.eqb_refl.
Qed.

Lemma in_combine_fst (A : mat) (b : vec) (P : vec -> Prop) :
  length A = length b ->
  (forall r, In r (combine A b) -> P (fst r)) <-> Forall P A.
Proof.
  revert b. induction A as [|r A IH]; intros [|c b] Hlen; cbn in *;
    try discriminate.
  - split; [constructor | intros _ ? []].
  - injection Hlen as Hlen. specialize (IH b Hlen). split.
    + intros H. constructor; [apply (H (r, c)); auto|].
      apply IH. intros; apply H; auto.
    + intros H r' [<-|Hr']; inversion H; subst; [assumption|].
      apply IH; assumption.
Qed.

Lemma matvec_zeros (A : mat) x :
  matvec A x = zeros (length A) <-> Forall (fun r => dot r x = 0) A.
Proof.
  induction A as [|r A IH]; cbn.
  - split; [constructor | reflexivity].
  - fold (zeros (length A)). split.
    + intros H. injection H as H0 H. constructor; [assumption|]. now apply IH.
    + intros H. inversion H; subst. f_equal; [assumption|]. now apply IH.
Qed.

Lemma matvec_combine (A : mat) (b : vec) x :
  length A = length b ->
  (forall r, In r (combine A b) -> dot (fst r) x = snd r) -> matvec A x = b.
Proof.
  revert b. induction A as [|r A IH]; intros [|c b] Hlen H; cbn in *;
    try discriminate; [reflexivity|].
  f_equal; [apply (H (r, c)); auto|].
  apply IH; [congruence|]. intros; apply H; auto.
Qed.

Lemma matvec_vsub (A : mat) n y x :
  Forall (fun r => length r = n) A -> length y = length x ->
  matvec A (vsub y x) = vsub (matvec A y) (matvec A x).
Proof.
  intros HA Hlen. unfold matvec.
  induction HA as [|r A Hr HA IH]; cbn [map]; [reflexivity|].
  rewrite IH. cbn. f_equal. apply dot_vsub_r, Hlen.
Qed.

Lemma vsub_diag b : vsub b b = zeros (length b).
Proof.
  unfold vsub, zeros.
  induction b as [|c b IH]; cbn [zipWith length repeat]; [reflexivity|].
  rewrite IH. f_equal. ring.
Qed.

Lemma length_matvec (A : mat) x : length (matvec A x) = length A.
Proof. apply length_map. Qed.

Lemma linalg_solve_regular n (A : mat) (b : vec) :
  shape n n A -> length b = n ->
  (forall x, length x = n -> matvec A x = zeros n -> x = zeros n) ->
  exists x,
    linalg_solve A b = Ok x /\ length x = n /\ matvec A x = b /\
    forall y, length y = n -> matvec A y = b -> y = x.
Proof.
  intros HA Hb Hker.
  pose proof (is_square_shape _ _ HA) as Hsq.
  destruct HA as [Hlen Hrows].
  assert (Hlenb : length A = length b) by congruence.
  destruct (gauss_regular n (combine A b)) as (x & Hg & Hx & Hsol).
  { split; [rewrite length_combine; lia|]. split.
    - apply (in_combine_fst A b (fun r => length r = n)); assumption.
    - intros x Hx Hzero. apply (Hker x Hx).
      rewrite <- Hlen. apply matvec_zeros.
      apply (in_combine_fst A b (fun r => dot r x = 0)); assumption. }
  exists x. unfold linalg_solve.
  rewrite Hsq, Hb, Hlen, Nat.eqb_refl. cbn [negb]. rewrite Hg.
  split; [reflexivity|]. split; [assumption|].
  assert (HAx : matvec A x = b) by (apply matvec_combine; assumption).
  split; [assumption|].
  intros y Hy HAy. apply vsub_zeros; [congruence|]. rewrite Hy.
  apply (Hker _); [unfold vsub; rewrite length_zipWith; lia|].
  rewrite (matvec_vsub A n) by (assumption || congruence).
  rewrite HAy, HAx, vsub_diag. congruence.
Qed.

End Solve.

(** ** The damped matrix *)

Section Damped.

Lemma matmul_transpose_66 J : shape 6 6 J -> matmul J (transpose J) = gram J.
Proof.
  intros H. matrix_of_shape H. reflexivity.
Qed.

Lemma length_comb n x J :
  Forall (fun r => length r = n) J -> length (comb n x J) = n.
Proof.
  intros HJ. revert x. induction HJ as [|r J Hr HJ IH]; intros [|a x];
    cbn [comb]; try apply length_zeros.
  unfold vadd. rewrite length_zipWith, length_scale, IH, Hr. apply Nat.min_id.
Qed.

Lemma dot_gram_row n r J x :
  Forall (fun r => length r = n) J ->
  dot (map (dot r) J) x = dot r (comb n x J).
Proof.
  intros HJ. revert x. induction HJ as [|r1 J Hr HJ IH]; intros [|a x];
    cbn [map comb dot]; rewrite ?dot_zeros_r, ?dot_nil_r; try reflexivity.
  rewrite dot_vadd_r, dot_scale_r, IH; [ring|].
  now rewrite length_scale, length_comb.
Qed.

Lemma dot_matvec_comb n J x w :
  Forall (fun r => length r = n) J ->
  dot x (matvec J w) = dot (comb n x J) w.
Proof.
  intros HJ. unfold matvec. revert x.
  induction HJ as [|r J Hr HJ IH]; intros [|a x];
    cbn [map comb dot]; rewrite ?dot_zeros_l; try reflexivity.
  rewrite dot_vadd_l, dot_scale_l, IH; [ring|].
  now rewrite length_scale, length_comb.
Qed.

Lemma gram_quadratic n J x :
  Forall (fun r => length r = n) J ->
  dot x (matvec (gram J) x) = dot (comb n x J) (comb n x J).
Proof.
  intros HJ.
  assert (E : matvec (gram J) x = matvec J (comb n x J)).
  { unfold matvec, gram. rewrite map_map. apply map_ext.
    intros r. now apply dot_gram_row. }
  rewrite E. now apply dot_matvec_comb.
Qed.

Lemma matvec_madd (A B : mat) n x :
  Forall (fun r => length r = n) A -> Forall (fun r => length r = n) B ->
  matvec (madd A B) x = vadd (matvec A x) (matvec B x).
Proof.
  intros HA. revert B. unfold matvec, madd, vadd.
  induction HA as [|r A Hr HA IH]; intros [|r' B] HB;
    cbn [combine map zipWith]; try reflexivity.
  inversion HB; subst. rewrite IH by assumption. cbn [fst snd]. f_equal.
  apply dot_vadd_l. congruence.
Qed.

Lemma matvec_scaled_eye6 c x :
  length x = 6%nat -> matvec (mscale c (eye 6)) x = scale c x.
Proof.
  intros H. list_of_length H. cbn. mat_eq ring.
Qed.

Lemma shape_gram n J : shape n n J -> shape n n (gram J).
Proof.
  intros [Hl Hr]. split; unfold gram; [now rewrite length_map|].
  apply Forall_map, Forall_forall. intros r _. now rewrite length_map.
Qed.

Lemma shape_scaled_eye6 c : shape 6 6 (mscale c (eye 6)).
Proof. split; [reflexivity | repeat constructor]. Qed.

Lemma damped_quadratic J d x :
  shape 6 6 J -> length x = 6%nat ->
  dot x (matvec (IK.damped_matrix J d) x) =
  dot (comb 6 x J) (comb 6 x J) + d ^ 2 * dot x x.
Proof.
  intros HJ Hx. unfold IK.damped_matrix.
  rewrite matmul_transpose_66 by assumption.
  pose proof (shape_gram _ _ HJ) as [HGl HGr].
  pose proof (shape_scaled_eye6 (d ^ 2)) as [HEl HEr].
  rewrite (matvec_madd _ _ 6) by assumption.
  rewrite matvec_scaled_eye6 by assumption.
  rewrite dot_vadd_r by (now rewrite length_matvec, length_scale, HGl, Hx).
  rewrite dot_scale_r, (gram_quadratic 6) by apply HJ.
  reflexivity.
Qed.

Lemma shape_damped J d : shape 6 6 J -> shape 6 6 (IK.damped_matrix J d).
Proof.
  intros H. matrix_of_shape H. split; [reflexivity | repeat constructor].
Qed.

Lemma damped_symmetric J d :
  shape 6 6 J -> transpose (IK.damped_matrix J d) = IK.damped_matrix J d.
Proof.
  intros H. matrix_of_shape H.
  cbn. mat_eq ring.
Qed.

Lemma damped_positive J d x :
  shape 6 6 J -> d <> 0 -> length x = 6%nat -> x <> zeros 6 ->
  0 < dot x (matvec (IK.damped_matrix J d) x).
Proof.
  intros HJ Hd Hx Hne. rewrite damped_quadratic by assumption.
  pose proof (dot_self_nonneg (comb 6 x J)).
  pose proof (dot_self_nonneg x) as Hxx.
  assert (0 < d ^ 2) by (simpl; nra).
  destruct Hxx as [Hpos|Hz]; [nra|].
  exfalso. apply Hne. rewrite <- Hx. apply dot_self_zero. congruence.
Qed.

Lemma damped_kernel J d x :
  shape 6 6 J -> d <> 0 -> length x = 6%nat ->
  matvec (IK.damped_matrix J d) x = zeros 6 -> x = zeros 6.
Proof.
  intros HJ Hd Hx Hz.
  destruct (list_eq_dec Req_dec_T x (zeros 6)) as [|Hne]; [assumption|].
  pose proof (damped_positive J d x HJ Hd Hx Hne) as Hpos.
  rewrite Hz, dot_zeros_r in Hpos. lra.
Qed.

End Damped.

(** ** The solver raises nothing *)

Section Returns.

Context {A B : Type}.

Lemma returns_ok (P : A -> Prop) a : P a -> returns P (Ok a).
Proof. intros H. right. eauto. Qed.

Lemma returns_bind (P : A -> Prop) (Q : B -> Prop) m k :
  returns P m -> (forall a, P a -> returns Q (k a)) -> returns Q (bind m k).
Proof.
  intros [->|(a & -> & Ha)] Hk; [now left|]. cbn. apply Hk, Ha.
Qed.

End Returns.

Lemma returns_foldM {A B : Type} (P : B -> Prop) (f : B -> A -> result B) l :
  (forall b a, In a l -> P b -> returns P (f b a)) ->
  forall b, P b -> returns P (IK.foldM f l b).
Proof.
  induction l as [|a l IH]; intros Hf b Hb; cbn [IK.foldM].
  - now apply returns_ok.
  - apply (returns_bind P); [apply Hf; cbn; auto|].
    intros b' Hb'. apply IH; [|assumption]. intros; apply Hf; cbn; auto.
Qed.

Section Shapes.

Lemma Rltb_true x y : x < y -> Rltb x y = true.
Proof.
  intros H. unfold Rltb.
  destruct (Rlt_dec x y); [reflexivity | contradiction].
Qed.

Lemma Rltb_false x y : ~ x < y -> Rltb x y = false.
Proof.
  intros H. unfold Rltb.
  destruct (Rlt_dec x y); [contradiction | reflexivity].
Qed.

Lemma Rltb_iff x y : Rltb x y = true <-> x < y.
Proof.
  unfold Rltb. destruct (Rlt_dec x y); split; auto; discriminate.
Qed.

Lemma fdiv_ok x y : y <> 0 -> fdiv x y = Ok (x / y).
Proof.
  intros H. unfold fdiv.
  destruct (Req_dec_T y 0); [contradiction | reflexivity].
Qed.

Lemma fdiv_returns x y : returns (fun _ => True) (fdiv x y).
Proof.
  unfold fdiv. destruct (Req_dec_T y 0); [now left | now apply returns_ok].
Qed.

Lemma length_matmul (A B : mat) : length (matmul A B) = length A.
Proof. apply length_map. Qed.

Lemma length_col3 (M : mat) : (3 <= length M)%nat -> length (col3 M) = 3%nat.
Proof.
  intros H. unfold col3. rewrite length_map, length_firstn. lia.
Qed.

Lemma forward_kinematics_ok s q :
  length q = 6%nat ->
  exists t, FK.forward_kinematics s q = Ok t /\ length (FK.wrist_3 t) = 4%nat.
Proof.
  intros H. list_of_length H. eexists. split; [reflexivity|].
  cbn [FK.wrist_3]. now rewrite !length_matmul.
Qed.

Lemma end_effector_ok s q :
  length q = 6%nat ->
  exists T, FK.get_end_effector_transform s q = Ok T /\ length T = 4%nat.
Proof.
  intros H. destruct (forward_kinematics_ok s q H) as (t & Ht & Hl).
  exists (FK.wrist_3 t). unfold FK.get_end_effector_transform. now rewrite Ht.
Qed.

Lemma orientation_error_returns s M :
  returns (fun dw => length dw = 3%nat) (IK.orientation_error s M).
Proof.
  unfold IK.orientation_error. destruct (Rltb _ _).
  - now apply returns_ok.
  - apply (returns_bind (fun _ => True)); [apply fdiv_returns|].
    intros c _. now apply returns_ok.
Qed.

Lemma angular_velocity_returns dR delta :
  returns (fun w => length w = 3%nat) (IK.angular_velocity dR delta).
Proof.
  unfold IK.angular_velocity. destruct (Rltb _ _).
  - now apply returns_ok.
  - apply (returns_bind (fun _ => True)); [apply fdiv_returns|].
    intros c _. now apply returns_ok.
Qed.

Lemma pose_error_returns s T q :
  (3 <= length T)%nat -> length q = 6%nat ->
  returns (fun e => length (fst e) = 3%nat /\ length (snd e) = 3%nat)
          (IK.pose_error s T q).
Proof.
  intros HT Hq. unfold IK.pose_error.
  destruct (end_effector_ok (IK.fk s) q Hq) as (Tc & -> & HTc). cbn [bind].
  apply (returns_bind (fun dw => length dw = 3%nat));
    [apply orientation_error_returns|].
  intros dw Hdw. apply returns_ok. cbn [fst snd]. split; [|assumption].
  unfold vsub. rewrite length_zipWith, !length_col3 by lia. reflexivity.
Qed.

Lemma add_at_ok i delta q :
  (i < length q)%nat ->
  exists q', IK.add_at i delta q = Ok q' /\ length q' = length q.
Proof.
  revert i. induction q as [|x q IH]; intros i Hi; cbn in Hi; [lia|].
  destruct i as [|i]; cbn [IK.add_at].
  - eexists; split; reflexivity.
  - destruct (IH i) as (q' & -> & Hl); [lia|]. cbn [bind].
    eexists; split; [reflexivity|]. cbn. congruence.
Qed.

Lemma vdiv_ok v delta :
  delta <> 0 -> IK.vdiv v delta = Ok (map (fun x => x / delta) v).
Proof.
  intros H. unfold IK.vdiv. induction v as [|x v IH]; cbn [mapM map];
    [reflexivity|].
  rewrite fdiv_ok, IH by assumption. reflexivity.
Qed.

Lemma length_set_nth j x r : length (set_nth j x r) = length r.
Proof.
  revert j. induction r as [|h r IH]; intros [|j]; cbn; auto.
Qed.

Lemma shape_assign_col m n (M : mat) r0 j v :
  shape m n M -> shape m n (assign_col M r0 j v).
Proof.
  intros [Hl Hr]. subst m. revert r0 v.
  induction Hr as [|row M Hrow Hr IH]; intros r0 v; cbn [assign_col].
  - split; [reflexivity | constructor].
  - destruct r0 as [|r0].
    + destruct v as [|x v].
      * split; [reflexivity | now constructor].
      * destruct (IH O v) as [Hl' Hr'].
        split; [cbn; congruence|]. constructor; [|assumption].
        now rewrite length_set_nth.
    + destruct (IH r0 v) as [Hl' Hr'].
      split; [cbn; congruence|]. now constructor.
Qed.

Lemma jacobian_column_returns s q delta p0 R0 J i :
  delta <> 0 -> length q = 6%nat -> (i < 6)%nat -> shape 6 6 J ->
  returns (shape 6 6) (IK.jacobian_column s q delta p0 R0 J i).
Proof.
  intros Hd Hq Hi HJ. unfold IK.jacobian_column.
  destruct (add_at_ok i delta q) as (q' & -> & Hq'); [lia|]. cbn [bind].
  destruct (end_effector_ok (IK.fk s) q') as (Tp & -> & HTp); [congruence|].
  cbn [bind]. rewrite vdiv_ok by assumption. cbn [bind].
  apply (returns_bind (fun w => length w = 3%nat));
    [apply angular_velocity_returns|].
  intros w _. apply returns_ok. now do 2 apply shape_assign_col.
Qed.

Lemma numerical_jacobian_returns s q delta :
  delta <> 0 -> length q = 6%nat ->
  returns (shape 6 6) (IK._numerical_jacobian s q delta).
Proof.
  intros Hd Hq. unfold IK._numerical_jacobian.
  destruct (end_effector_ok (IK.fk s) q Hq) as (T0 & -> & _). cbn [bind].
  apply returns_foldM.
  - intros J i Hi HJ. apply jacobian_column_returns; try assumption.
    apply in_seq in Hi. lia.
  - split; [reflexivity | repeat constructor].
Qed.

Lemma length_columns n (M : mat) : length (columns n M) = n.
Proof.
  revert M. induction n as [|n IH]; intros M; cbn; [reflexivity|].
  now rewrite IH.
Qed.

Lemma length_transpose n m (M : mat) :
  shape (S m) n M -> length (transpose M) = n.
Proof.
  intros [Hl Hr]. unfold transpose. rewrite length_columns.
  destruct M as [|r M]; [discriminate|]. now inversion Hr.
Qed.

Lemma damped_step_ok J d error :
  shape 6 6 J -> d <> 0 -> length error = 6%nat ->
  exists y,
    linalg_solve (IK.damped_matrix J d) error = Ok y /\
    IK.damped_step J d error = Ok (matvec (transpose J) y) /\
    length (matvec (transpose J) y) = 6%nat /\
    matvec (IK.damped_matrix J d) y = error /\
    forall y', length y' = 6%nat ->
               matvec (IK.damped_matrix J d) y' = error -> y' = y.
Proof.
  intros HJ Hd He.
  destruct (linalg_solve_regular 6 (IK.damped_matrix J d) error)
    as (y & Hy & Hl & Hsol & Huniq).
  - now apply shape_damped.
  - assumption.
  - intros x Hx. now apply damped_kernel.
  - exists y. unfold IK.damped_step. rewrite Hy. cbn [bind].
    repeat split; try assumption.
    rewrite length_matvec. now apply (length_transpose 6 5).
Qed.

Lemma update_returns s d q error :
  d <> 0 -> length q = 6%nat -> length error = 6%nat ->
  returns (fun q' => length q' = 6%nat) (IK.update s d q error).
Proof.
  intros Hd Hq He. unfold IK.update.
  apply (returns_bind (shape 6 6)).
  { apply numerical_jacobian_returns; [lra | assumption]. }
  intros J HJ.
  destruct (damped_step_ok J d error HJ Hd He) as (y & _ & -> & Hl & _).
  cbn [bind]. unfold add. rewrite Hq, Hl. cbn [Nat.eqb].
  apply returns_ok. unfold vadd. rewrite length_zipWith, Hq, Hl. reflexivity.
Qed.

Lemma solve_loop_returns s T d n q :
  d <> 0 -> (3 <= length T)%nat -> length q = 6%nat ->
  returns (fun r => forall q', r = Some q' -> length q' = 6%nat)
          (IK.solve_loop s T d n q).
Proof.
  intros Hd HT. revert q. induction n as [|n IH]; intros q Hq;
    cbn [IK.solve_loop].
  - apply returns_ok. discriminate.
  - apply (returns_bind _ _ _ _ (pose_error_returns s T q HT Hq)).
    intros [dp dw] [Hdp Hdw]. cbn [fst snd] in *.
    destruct (IK.converged s dp dw).
    + destruct (IK._verify _ _ _ _ _); apply returns_ok; [|discriminate].
      intros q' E. injection E as <-. assumption.
    + apply (returns_bind (fun q' => length q' = 6%nat)).
      * apply update_returns; try assumption.
        rewrite length_app. lia.
      * intros q' Hq'. apply IH, Hq'.
Qed.

Lemma solve_single_returns s T q :
  (3 <= length T)%nat -> length q = 6%nat ->
  returns (fun r => forall q', r = Some q' -> length q' = 6%nat)
          (IK._solve_single s T q).
Proof.
  intros HT Hq. unfold IK._solve_single.
  apply solve_loop_returns; try assumption. lra.
Qed.

End Shapes.

(** ** Deduplication *)

Section Dedup.

Variable s : IK.self.

Lemma close_within (a b : vec) :
  forallb (fun d => Rltb d 0.05) (map Rabs (vsub a b)) = true <-> within a b.
Proof.
  unfold within, vsub. revert b.
  induction a as [|x a IH]; intros [|y b]; cbn [zipWith map forallb].
  - split; [intros _ [|k] ? ? H; discriminate H | reflexivity].
  - split; [intros _ [|k] ? ? H; discriminate H | reflexivity].
  - split; [intros _ [|k] ? ? _ H; discriminate H | reflexivity].
  - rewrite andb_true_iff, Rltb_iff, IH. split.
    + intros [H0 H] [|k] x' y' Hx Hy; cbn in Hx, Hy.
      * injection Hx as <-. injection Hy as <-. assumption.
      * eapply H; eassumption.
    + intros H. split; [apply (H O); reflexivity|].
      intros k x' y' Hx Hy. apply (H (S k)); assumption.
Qed.

Lemma is_new_false result solutions :
  IK.is_new s result solutions = false <->
  exists existing, In existing solutions /\
    within result (FK.normalize_joint_angles (IK.fk s) existing).
Proof.
  induction solutions as [|e sols IH]; cbn [IK.is_new].
  - split; [discriminate | intros (? & [] & _)].
  - destruct (forallb _ _) eqn:E.
    + split; [|reflexivity]. intros _. exists e. split; [now left|].
      now apply close_within.
    + rewrite IH. split.
      * intros (e' & Hin & Hw). exists e'. split; [now right | assumption].
      * intros (e' & [<-|Hin] & Hw); [|eauto].
        apply close_within in Hw. congruence.
Qed.


Lemma far_sym a b : far a b -> far b a.
Proof.
  intros (k & x & y & Hx & Hy & H). exists k, y, x.
  rewrite Rabs_minus_sym. auto.
Qed.

Lemma not_close_far (a b : vec) :
  forallb (fun d => Rltb d 0.05) (map Rabs (vsub a b)) = false -> far a b.
Proof.
  unfold far, vsub. revert b.
  induction a as [|x a IH]; intros [|y b]; cbn [zipWith map forallb];
    try discriminate.
  rewrite andb_false_iff. intros [H|H].
  - exists O, x, y. repeat split.
    destruct (Rlt_dec (Rabs (x - y)) 0.05) as [Hlt|Hge]; [|lra].
    rewrite (Rltb_true _ _ Hlt) in H. discriminate.
  - destruct (IH b H) as (k & x' & y' & Hx & Hy & Hk).
    exists (S k), x', y'. auto.
Qed.

Lemma is_new_true result solutions :
  IK.is_new s result solutions = true ->
  Forall (fun existing =>
            far result (FK.normalize_joint_angles (IK.fk s) existing))
         solutions.
Proof.
  induction solutions as [|e sols IH]; cbn [IK.is_new]; [constructor|].
  destruct (forallb _ _) eqn:E; [discriminate|].
  intros H. constructor; [now apply not_close_far | now apply IH].
Qed.

Lemma normalize_normalized q :
  normalized (FK.normalize_joint_angles (IK.fk s) q).
Proof.
  unfold normalized, FK.normalize_joint_angles. apply Forall_map.
  apply Forall_forall. intros a _. apply normalize_angle_range.
Qed.

Lemma normalize_fixed q :
  normalized q -> FK.normalize_joint_angles (IK.fk s) q = q.
Proof.
  unfold normalized, FK.normalize_joint_angles.
  induction 1 as [|a q Ha _ IH]; cbn [map]; [reflexivity|].
  now rewrite IH, normalize_angle_id.
Qed.

Lemma ForallOrdPairs_snoc {A : Type} (Rel : A -> A -> Prop) l a :
  ForallOrdPairs Rel l -> Forall (fun b => Rel b a) l ->
  ForallOrdPairs Rel (l ++ [a]).
Proof.
  induction 1 as [|b l Hb Hl IH]; intros Ha; cbn.
  - repeat constructor.
  - inversion Ha; subst. constructor; [|now apply IH].
    apply Forall_app. split; [assumption | now constructor].
Qed.

Lemma collect_distinct solutions result :
  distinct solutions -> distinct (IK.collect s solutions result).
Proof.
  intros [Hn Hp]. destruct result as [r|]; cbn [IK.collect]; [|now split].
  destruct (IK.is_new _ _ _) eqn:E; [|now split].
  apply is_new_true in E. split.
  - apply Forall_app. split; [assumption|].
    constructor; [apply normalize_normalized | constructor].
  - apply ForallOrdPairs_snoc; [assumption|].
    rewrite Forall_forall in *. intros e He.
    apply far_sym. rewrite <- (normalize_fixed e) at 1 by auto. auto.
Qed.

Lemma fold_collect_distinct results solutions :
  distinct solutions -> distinct (fold_left (IK.collect s) results solutions).
Proof.
  revert solutions. induction results as [|r results IH]; intros sols H;
    cbn [fold_left]; [assumption|].
  apply IH, collect_distinct, H.
Qed.

Lemma Subseq_nil_l {A : Type} (l : list A) : Subseq [] l.
Proof. induction l; constructor; assumption. Qed.

Lemma fold_collect_subseq results solutions :
  exists kept,
    fold_left (IK.collect s) results solutions = solutions ++ kept /\
    Subseq kept
      (map (FK.normalize_joint_angles (IK.fk s)) (successes results)).
Proof.
  revert solutions. induction results as [|r results IH]; intros sols;
    cbn [fold_left successes map].
  - exists []. rewrite app_nil_r. split; [reflexivity | constructor].
  - destruct r as [r|]; cbn [IK.collect]; [|apply IH].
    destruct (IK.is_new _ _ _).
    + destruct (IH (sols ++ [FK.normalize_joint_angles (IK.fk s) r]))
        as (kept & -> & Hk).
      eexists. rewrite <- app_assoc. split; [reflexivity|].
      cbn. now constructor.
    + destruct (IH sols) as (kept & -> & Hk).
      exists kept. split; [reflexivity | now constructor].
Qed.

Lemma fold_collect_length results solutions :
  (length (fold_left (IK.collect s) results solutions)
   <= length solutions + length results)%nat.
Proof.
  revert solutions. induction results as [|r results IH]; intros sols;
    cbn [fold_left length]; [lia|].
  specialize (IH (IK.collect s sols r)).
  assert (length (IK.collect s sols r) <= S (length sols))%nat; [|lia].
  destruct r as [r|]; cbn [IK.collect]; [|lia].
  destruct (IK.is_new _ _ _); [|lia].
  rewrite length_app. cbn. lia.
Qed.

Lemma fold_collect_first results q rest :
  successes results = q :: rest ->
  hd_error (fold_left (IK.collect s) results []) =
  Some (FK.normalize_joint_angles (IK.fk s) q).
Proof.
  induction results as [|r results IH]; cbn [successes fold_left];
    [discriminate|].
  destruct r as [r|]; [|apply IH].
  intros E. injection E as -> _. cbn [IK.collect IK.is_new app].
  destruct (fold_collect_subseq results
              [FK.normalize_joint_angles (IK.fk s) q]) as (kept & -> & _).
  reflexivity.
Qed.

Lemma solve_ik_loop_fold T seeds solutions :
  (forall seed e, In seed seeds -> IK._solve_single s T seed <> Raised e) ->
  IK.solve_ik_loop s T seeds solutions =
  Ok (fold_left (IK.collect s) (map (seed_result s T) seeds) solutions).
Proof.
  revert solutions. induction seeds as [|seed seeds IH]; intros sols Hr;
    cbn [IK.solve_ik_loop map fold_left]; [reflexivity|].
  unfold seed_result at 2.
  destruct (IK._solve_single s T seed) as [r|e|] eqn:E.
  - apply IH. intros seed' e' Hin. apply Hr. now right.
  - exfalso. apply (Hr seed e); [now left | exact E].
  - apply IH. intros seed' e' Hin. apply Hr. now right.
Qed.

End Dedup.

Section Seeds.

Variable RandomState : Type.
Variable RandomState_seed : Z -> RandomState.
Variable random_sample : RandomState -> R * RandomState.

Lemma length_uniform low high size rng :
  length (fst (IK.uniform RandomState random_sample low high size rng)) = size.
Proof.
  revert rng. induction size as [|n IH]; intros rng; cbn [IK.uniform];
    [reflexivity|].
  destruct (random_sample rng) as [u rng1]. specialize (IH rng1).
  destruct (IK.uniform _ _ low high n rng1) as [v rng2]. cbn in *. congruence.
Qed.

Lemma random_seeds_shape n rng :
  shape n 6 (IK.random_seeds RandomState random_sample n rng).
Proof.
  revert rng. induction n as [|n IH]; intros rng; cbn [IK.random_seeds].
  - split; [reflexivity | constructor].
  - pose proof (length_uniform (- PI) PI 6 rng) as Hl.
    destruct (IK.uniform _ _ (- PI) PI 6 rng) as [seed rng'].
    destruct (IH rng') as [Hn Hr]. split; [cbn; congruence|].
    constructor; assumption.
Qed.

Lemma generate_seeds_shape s :
  shape 32 6 (IK._generate_seeds RandomState RandomState_seed random_sample s).
Proof.
  unfold IK._generate_seeds.
  destruct (random_seeds_shape 24 (RandomState_seed 42)) as [Hn Hr].
  split.
  - rewrite length_app, Hn. reflexivity.
  - apply Forall_app. split; [repeat constructor | assumption].
Qed.

(** [solve_ik] returns a list for every target with three rows or more:
    what the seeds gave, collected in seed order. *)
Lemma solve_ik_returns s T :
  (3 <= length T)%nat ->
  IK.solve_ik RandomState RandomState_seed random_sample s T =
  Ok (fold_left (IK.collect s)
        (map (seed_result s T)
           (IK._generate_seeds RandomState RandomState_seed random_sample s))
        []).
Proof.
  intros HT. unfold IK.solve_ik. apply solve_ik_loop_fold.
  destruct (generate_seeds_shape s) as [Hn Hr].
  intros seed e Hin E.
  destruct (solve_single_returns s T seed) as [E'|(r & E' & _)];
    [assumption | | congruence..].
  rewrite Forall_forall in Hr. now apply Hr.
Qed.

End Seeds.

(** ** The loop of [_solve_single] *)

Section Loop.

Variables (s : IK.self) (T : mat) (d : R).

Lemma solve_loop_found n q0 q :
  IK.solve_loop s T d n q0 = Ok (Some q) ->
  exists k dp dw,
    (k < n)%nat /\ reaches s T d k q0 q /\
    IK.pose_error s T q = Ok (dp, dw) /\
    IK.converged s dp dw = true /\
    IK._verify s q T 1e-4 5e-3 = true.
Proof.
  revert q0. induction n as [|n IH]; intros q0; cbn [IK.solve_loop];
    [discriminate|].
  destruct (IK.pose_error s T q0) as [[dp dw]| |] eqn:Ee; cbn [bind fst snd];
    try discriminate.
  destruct (IK.converged s dp dw) eqn:Ec.
  - destruct (IK._verify s q0 T _ _) eqn:Ev; [|discriminate].
    intros E. injection E as <-.
    exists O, dp, dw. repeat split; (lia || assumption || constructor).
  - destruct (IK.update s d q0 (dp ++ dw)) as [q'| |] eqn:Eu; cbn [bind];
      try discriminate.
    intros E. destruct (IH _ E) as (k & dp' & dw' & Hk & Hr & H).
    exists (S k), dp', dw'. split; [lia|]. split; [|assumption].
    econstructor; eassumption.
Qed.

Lemma solve_loop_at n k q0 q :
  reaches s T d k q0 q ->
  IK.solve_loop s T d (k + n) q0 = IK.solve_loop s T d n q.
Proof.
  induction 1 as [q|k q q' q'' dp dw He Hc Hu _ IH]; [reflexivity|].
  cbn [Nat.add IK.solve_loop]. rewrite He. cbn [bind fst snd].
  rewrite Hc, Hu. cbn [bind]. exact IH.
Qed.

Lemma solve_loop_converged n q dp dw :
  IK.pose_error s T q = Ok (dp, dw) ->
  IK.converged s dp dw = true ->
  IK.solve_loop s T d (S n) q =
  Ok (if IK._verify s q T 1e-4 5e-3 then Some q else None).
Proof.
  intros He Hc. cbn [IK.solve_loop]. rewrite He. cbn [bind fst snd].
  rewrite Hc. destruct (IK._verify _ _ _ _ _); reflexivity.
Qed.

Lemma solve_loop_discards n k q0 q dp dw :
  (k < n)%nat -> reaches s T d k q0 q ->
  IK.pose_error s T q = Ok (dp, dw) ->
  IK.converged s dp dw = true ->
  IK._verify s q T 1e-4 5e-3 = false ->
  IK.solve_loop s T d n q0 = Ok None.
Proof.
  intros Hk Hr He Hc Hv.
  replace n with (k + S (n - S k))%nat by lia.
  rewrite (solve_loop_at _ _ _ _ Hr), (solve_loop_converged _ _ _ _ He Hc), Hv.
  reflexivity.
Qed.

Lemma solve_loop_exhausted n q0 q :
  reaches s T d n q0 q -> IK.solve_loop s T d n q0 = Ok None.
Proof.
  intros Hr. rewrite <- (Nat.add_0_r n) at 1.
  now rewrite (solve_loop_at _ _ _ _ Hr).
Qed.

Lemma converged_iff dp dw :
  IK.converged s dp dw = true <->
  norm dp < IK.tol s /\ norm dw < IK.tol s * 5.
Proof.
  unfold IK.converged. now rewrite andb_true_iff, !Rltb_iff.
Qed.

Lemma verify_iff q pos_tol rot_tol :
  IK._verify s q T pos_tol rot_tol = true <->
  exists T_actual,
    FK.get_end_effector_transform (IK.fk s) q = Ok T_actual /\
    norm (vsub (col3 T_actual) (col3 T)) < pos_tol /\
    norm_fro (msub (block33 T_actual) (block33 T)) < rot_tol.
Proof.
  unfold IK._verify.
  destruct (FK.get_end_effector_transform (IK.fk s) q) as [Ta| |].
  - rewrite andb_true_iff, !Rltb_iff. split.
    + intros [H1 H2]. eauto.
    + intros (Ta' & E & H1 & H2). injection E as <-. auto.
  - split; [discriminate | intros (? & E & _); discriminate E].
  - split; [discriminate | intros (? & E & _); discriminate E].
Qed.

End Loop.

(** ** The guard of the axis-angle extraction *)

Section Guard.

Lemma clip_inside x lo hi : lo <= x <= hi -> clip x lo hi = x.
Proof.
  intros [H1 H2]. unfold clip.
  destruct (Rlt_dec x lo); [lra|]. destruct (Rgt_dec x hi); [lra | reflexivity].
Qed.

Lemma clip_above x lo hi : lo <= hi -> hi <= x -> clip x lo hi = hi.
Proof.
  intros H1 H2. unfold clip.
  destruct (Rlt_dec x lo); [lra|]. destruct (Rgt_dec x hi); lra.
Qed.

Lemma clip_bounds x lo hi : lo <= hi -> lo <= clip x lo hi <= hi.
Proof.
  intros H. unfold clip.
  destruct (Rlt_dec x lo); [lra|]. destruct (Rgt_dec x hi); lra.
Qed.

Lemma rotation_angle_bounds M : 0 <= IK.rotation_angle M <= PI.
Proof. apply acos_bound. Qed.

Lemma rotation_angle_large_trace M :
  3 <= trace M -> IK.rotation_angle M = 0.
Proof.
  intros H. unfold IK.rotation_angle.
  rewrite clip_above by lra. apply acos_1.
Qed.

Lemma rotation_angle_eye3 : IK.rotation_angle (eye 3) = 0.
Proof. apply rotation_angle_large_trace. cbn. lra. Qed.

Lemma orientation_error_guard s M :
  IK.rotation_angle M < IK.epsilon s ->
  IK.orientation_error s M = Ok (zeros 3).
Proof.
  intros H. unfold IK.orientation_error. now rewrite Rltb_true.
Qed.

Lemma angular_velocity_guard dR delta :
  IK.rotation_angle dR < 1e-10 -> IK.angular_velocity dR delta = Ok (zeros 3).
Proof.
  intros H. unfold IK.angular_velocity. now rewrite Rltb_true.
Qed.

Lemma sin_angle_pos a : 0 < a <= PI -> 0 < IK.sin_angle a.
Proof.
  intros [H0 H1]. unfold IK.sin_angle.
  destruct (Req_dec_T a PI) as [E|E]; [lra|]. apply sin_gt_0; lra.
Qed.

Lemma sin_angle_below a : a < PI -> IK.sin_angle a = sin a.
Proof.
  intros H. unfold IK.sin_angle. destruct (Req_dec_T a PI); [lra | reflexivity].
Qed.

(** With a positive [epsilon] the orientation error is finite for every
    relative rotation, the half turn included. *)
Lemma orientation_error_ok s M :
  0 < IK.epsilon s ->
  exists dw, IK.orientation_error s M = Ok dw /\ length dw = 3%nat.
Proof.
  intros He. unfold IK.orientation_error.
  pose proof (rotation_angle_bounds M) as Hb.
  set (angle := IK.rotation_angle M) in *.
  unfold Rltb. destruct (Rlt_dec angle (IK.epsilon s)) as [Hlt|Hge].
  - eexists. split; reflexivity.
  - assert (0 < IK.sin_angle angle) by (apply sin_angle_pos; lra).
    rewrite fdiv_ok by lra. cbn [bind]. eexists. split; reflexivity.
Qed.

(** Without the guard the division is by zero at the identity rotation. *)
Lemma orientation_error_unguarded s M :
  IK.epsilon s <= 0 -> IK.rotation_angle M = 0 ->
  IK.orientation_error s M = NonFinite.
Proof.
  intros He Ha. unfold IK.orientation_error. rewrite Ha.
  pose proof PI_RGT_0 as Hpi.
  rewrite Rltb_false by lra. rewrite sin_angle_below, sin_0 by lra.
  unfold fdiv. destruct (Req_dec_T (2 * 0) 0) as [_|H]; [reflexivity | lra].
Qed.

End Guard.

(** ** Rotation blocks *)

Section Blocks.

Lemma shape_matmul33 A B :
  shape 3 3 A -> shape 3 3 B -> shape 3 3 (matmul A B).
Proof.
  intros HA HB. matrix_of_shape HA. matrix_of_shape HB.
  split; [reflexivity | repeat constructor].
Qed.

Lemma shape_transpose33 A : shape 3 3 A -> shape 3 3 (transpose A).
Proof.
  intros HA. matrix_of_shape HA. split; [reflexivity | repeat constructor].
Qed.

Lemma matmul_assoc33 A B C :
  shape 3 3 A -> shape 3 3 B -> shape 3 3 C ->
  matmul (matmul A B) C = matmul A (matmul B C).
Proof.
  intros HA HB HC. matrix_of_shape HA. matrix_of_shape HB. matrix_of_shape HC.
  cbn. mat_eq ring.
Qed.

Lemma transpose_matmul33 A B :
  shape 3 3 A -> shape 3 3 B ->
  transpose (matmul A B) = matmul (transpose B) (transpose A).
Proof.
  intros HA HB. matrix_of_shape HA. matrix_of_shape HB.
  cbn. mat_eq ring.
Qed.

Lemma matmul_eye_r33 A : shape 3 3 A -> matmul A (eye 3) = A.
Proof. intros HA. matrix_of_shape HA. cbn. mat_eq ring. Qed.

Lemma matmul_eye_l33 A : shape 3 3 A -> matmul (eye 3) A = A.
Proof. intros HA. matrix_of_shape HA. cbn. mat_eq ring. Qed.

Lemma trace_matmul_comm33 A B :
  shape 3 3 A -> shape 3 3 B -> trace (matmul A B) = trace (matmul B A).
Proof.
  intros HA HB. matrix_of_shape HA. matrix_of_shape HB. cbn. ring.
Qed.

Lemma rotation3_eye : rotation3 (eye 3).
Proof.
  split; [split; [reflexivity | repeat constructor]|].
  split; cbn; mat_eq ring.
Qed.

Lemma rotation3_matmul A B :
  rotation3 A -> rotation3 B -> rotation3 (matmul A B).
Proof.
  intros (HA & HA1 & HA2) (HB & HB1 & HB2).
  pose proof (shape_transpose33 A HA) as HAt.
  pose proof (shape_transpose33 B HB) as HBt.
  split; [now apply shape_matmul33|].
  rewrite transpose_matmul33 by assumption. split.
  - rewrite matmul_assoc33, <- (matmul_assoc33 B), HB1, matmul_eye_l33, HA1;
      auto using shape_matmul33.
  - rewrite matmul_assoc33, <- (matmul_assoc33 (transpose A)), HA2,
      matmul_eye_l33, HB2; auto using shape_matmul33.
Qed.

Lemma cancel_right X X' Y :
  shape 3 3 X -> shape 3 3 X' -> rotation3 Y ->
  matmul (matmul X' Y) (transpose (matmul X Y)) = matmul X' (transpose X).
Proof.
  intros HX HX' (HY & HY1 & _).
  pose proof (shape_transpose33 X HX). pose proof (shape_transpose33 Y HY).
  rewrite transpose_matmul33 by assumption.
  rewrite matmul_assoc33, <- (matmul_assoc33 Y), HY1, matmul_eye_l33;
    auto using shape_matmul33.
Qed.

Lemma fold_cancel rs : forall X X',
  shape 3 3 X -> shape 3 3 X' -> Forall rotation3 rs ->
  matmul (fold_left matmul rs X') (transpose (fold_left matmul rs X)) =
  matmul X' (transpose X).
Proof.
  induction rs as [|Y rs IH]; intros X X' HX HX' Hrs; cbn [fold_left];
    [reflexivity|].
  inversion Hrs as [|? ? HY Hrs']; subst.
  rewrite IH; auto using shape_matmul33.
  - now apply cancel_right.
  - apply shape_matmul33; [assumption | apply HY].
  - apply shape_matmul33; [assumption | apply HY].
Qed.

Lemma trace_conjugate P r r' :
  rotation3 P -> shape 3 3 r -> shape 3 3 r' ->
  trace (matmul (matmul P r') (transpose (matmul P r))) =
  trace (matmul r' (transpose r)).
Proof.
  intros (HP & _ & HP2) Hr Hr'.
  pose proof (shape_transpose33 P HP). pose proof (shape_transpose33 r Hr).
  rewrite transpose_matmul33 by assumption.
  rewrite <- matmul_assoc33; auto using shape_matmul33.
  rewrite trace_matmul_comm33; auto using shape_matmul33.
  rewrite <- !matmul_assoc33; auto using shape_matmul33.
  rewrite HP2, matmul_eye_l33 by assumption.
  reflexivity.
Qed.

Lemma fold_rotation3 rs : forall P,
  rotation3 P -> Forall rotation3 rs -> rotation3 (fold_left matmul rs P).
Proof.
  induction rs as [|r rs IH]; intros P HP Hrs; cbn [fold_left]; [assumption|].
  inversion Hrs; subst. apply IH; [now apply rotation3_matmul | assumption].
Qed.

(** Replacing one factor of a product of rotation blocks. *)
Lemma trace_replace_factor rs1 r r' rs2 P :
  rotation3 P -> Forall rotation3 rs1 -> Forall rotation3 rs2 ->
  shape 3 3 r -> shape 3 3 r' ->
  trace (matmul (fold_left matmul (rs1 ++ r' :: rs2) P)
           (transpose (fold_left matmul (rs1 ++ r :: rs2) P))) =
  trace (matmul r' (transpose r)).
Proof.
  intros HP H1 H2 Hr Hr'. rewrite !fold_left_app. cbn [fold_left].
  pose proof (fold_rotation3 rs1 P HP H1) as HP1.
  rewrite fold_cancel; auto using shape_matmul33.
  - now apply trace_conjugate.
  - apply shape_matmul33; [apply HP1 | assumption].
  - apply shape_matmul33; [apply HP1 | assumption].
Qed.

Lemma block33_matmul A B :
  shape 4 4 A -> homogeneous B ->
  block33 (matmul A B) = matmul (block33 A) (block33 B).
Proof.
  intros HA [HB Hlast]. matrix_of_shape HA. matrix_of_shape HB.
  cbn in Hlast. injection Hlast as -> -> -> ->.
  cbn. mat_eq ring.
Qed.

Lemma homogeneous_matmul A B :
  homogeneous A -> homogeneous B -> homogeneous (matmul A B).
Proof.
  intros [HA HAl] [HB HBl]. matrix_of_shape HA. matrix_of_shape HB.
  cbn in HAl, HBl. injection HAl as -> -> -> ->. injection HBl as -> -> -> ->.
  split; [split; [reflexivity | repeat constructor]|].
  cbn. mat_eq ring.
Qed.

Lemma homogeneous_eye : homogeneous (eye 4).
Proof.
  split; [split; [reflexivity | repeat constructor] | reflexivity].
Qed.

Lemma block33_fold Ts : forall P,
  homogeneous P -> Forall homogeneous Ts ->
  block33 (fold_left matmul Ts P) =
  fold_left matmul (map block33 Ts) (block33 P).
Proof.
  induction Ts as [|T Ts IH]; intros P HP HTs; cbn [fold_left map];
    [reflexivity|].
  inversion HTs; subst.
  rewrite IH by (auto using homogeneous_matmul).
  rewrite block33_matmul; [reflexivity | apply HP | assumption].
Qed.

Lemma sin_cos_square a : sin a * sin a + cos a * cos a = 1.
Proof. pose proof (sin2_cos2 a) as H. unfold Rsqr in H. exact H. Qed.

Lemma rotation3_rotx a : rotation3 (block33 (FK._rotx a)).
Proof.
  pose proof (sin_cos_square a).
  split; [split; [reflexivity | repeat constructor]|].
  split; cbn -[cos sin]; mat_eq nra.
Qed.

Lemma rotation3_roty a : rotation3 (block33 (FK._roty a)).
Proof.
  pose proof (sin_cos_square a).
  split; [split; [reflexivity | repeat constructor]|].
  split; cbn -[cos sin]; mat_eq nra.
Qed.

Lemma rotation3_rotz a : rotation3 (block33 (FK._rotz a)).
Proof.
  pose proof (sin_cos_square a).
  split; [split; [reflexivity | repeat constructor]|].
  split; cbn -[cos sin]; mat_eq nra.
Qed.

Lemma homogeneous_rotx a : homogeneous (FK._rotx a).
Proof. split; [split; [reflexivity | repeat constructor] | reflexivity]. Qed.

Lemma homogeneous_roty a : homogeneous (FK._roty a).
Proof. split; [split; [reflexivity | repeat constructor] | reflexivity]. Qed.

Lemma homogeneous_rotz a : homogeneous (FK._rotz a).
Proof. split; [split; [reflexivity | repeat constructor] | reflexivity]. Qed.

Lemma homogeneous_joint_rotation axis q : homogeneous (joint_rotation axis q).
Proof.
  unfold joint_rotation.
  destruct (String.eqb axis "z"); [apply homogeneous_rotz|].
  destruct (String.eqb axis "y"); [apply homogeneous_roty|].
  apply homogeneous_rotx.
Qed.

Lemma rotation3_joint_rotation axis q :
  rotation3 (block33 (joint_rotation axis q)).
Proof.
  unfold joint_rotation.
  destruct (String.eqb axis "z"); [apply rotation3_rotz|].
  destruct (String.eqb axis "y"); [apply rotation3_roty|].
  apply rotation3_rotx.
Qed.

Lemma homogeneous_create_transform xyz rpy :
  homogeneous (FK._create_transform xyz rpy).
Proof.
  destruct xyz as [[x y] z], rpy as [[r p] yw].
  split; [split; [reflexivity | repeat constructor] | reflexivity].
Qed.

Lemma block33_create_transform xyz rpy :
  block33 (FK._create_transform xyz rpy) =
  matmul (matmul (block33 (FK._rotz (snd rpy)))
                 (block33 (FK._roty (snd (fst rpy)))))
         (block33 (FK._rotx (fst (fst rpy)))).
Proof.
  destruct xyz as [[x y] z], rpy as [[r p] yw].
  cbn -[cos sin]. mat_eq ring.
Qed.

Lemma rotation3_create_transform xyz rpy :
  rotation3 (block33 (FK._create_transform xyz rpy)).
Proof.
  rewrite block33_create_transform.
  auto using rotation3_matmul, rotation3_rotx, rotation3_roty, rotation3_rotz.
Qed.

Lemma joint_transform_product xyz rpy q axis :
  FK.joint_transform xyz rpy q axis =
  matmul (FK._create_transform xyz rpy) (joint_rotation axis q).
Proof. reflexivity. Qed.

Lemma homogeneous_joint_transform xyz rpy q axis :
  homogeneous (FK.joint_transform xyz rpy q axis).
Proof.
  rewrite joint_transform_product.
  apply homogeneous_matmul;
    [apply homogeneous_create_transform | apply homogeneous_joint_rotation].
Qed.

Lemma block33_joint_transform xyz rpy q axis :
  block33 (FK.joint_transform xyz rpy q axis) =
  matmul (block33 (FK._create_transform xyz rpy))
         (block33 (joint_rotation axis q)).
Proof.
  rewrite joint_transform_product. apply block33_matmul.
  - apply homogeneous_create_transform.
  - apply homogeneous_joint_rotation.
Qed.

Lemma rotation3_joint_transform xyz rpy q axis :
  rotation3 (block33 (FK.joint_transform xyz rpy q axis)).
Proof.
  rewrite block33_joint_transform.
  apply rotation3_matmul;
    [apply rotation3_create_transform | apply rotation3_joint_rotation].
Qed.

Lemma trace_joint_rotation axis q q' :
  trace (matmul (block33 (joint_rotation axis q'))
           (transpose (block33 (joint_rotation axis q)))) =
  1 + 2 * cos (q' - q).
Proof.
  rewrite cos_minus. unfold joint_rotation.
  destruct (String.eqb axis "z"); [|destruct (String.eqb axis "y")];
    cbn -[cos sin]; ring.
Qed.

Lemma trace_joint_transform xyz rpy axis q q' :
  trace (matmul (block33 (FK.joint_transform xyz rpy q' axis))
           (transpose (block33 (FK.joint_transform xyz rpy q axis)))) =
  1 + 2 * cos (q' - q).
Proof.
  rewrite !block33_joint_transform, trace_conjugate.
  - apply trace_joint_rotation.
  - apply rotation3_create_transform.
  - apply rotation3_joint_rotation.
  - apply rotation3_joint_rotation.
Qed.

End Blocks.

(** ** The rotation between an iterate and its perturbation *)

Ltac replace_factor n :=
  lazymatch goal with
  | |- trace (matmul (fold_left matmul ?l' ?P)
                (transpose (fold_left matmul ?l ?P))) = ?rhs =>
    let rs1 := eval cbn [firstn] in (firstn n l) in
    let rs2 := eval cbn [skipn] in (skipn (S n) l) in
    let r := eval cbn [nth] in (nth n l []) in
    let r' := eval cbn [nth] in (nth n l' []) in
    change (trace (matmul (fold_left matmul (rs1 ++ r' :: rs2) P)
                     (transpose (fold_left matmul (rs1 ++ r :: rs2) P)))
            = rhs);
    rewrite (trace_replace_factor rs1 r r' rs2 P)
  end.

Section Jacobian.

Lemma end_effector_fold s q :
  length q = 6%nat ->
  FK.get_end_effector_transform s q =
  Ok (fold_left matmul (joint_transforms s q) (eye 4)).
Proof. intros H. list_of_length H. reflexivity. Qed.

Lemma homogeneous_joint_transforms s q :
  Forall homogeneous (joint_transforms s q).
Proof.
  unfold joint_transforms.
  do 6 (destruct q as [|? q]; [constructor|]).
  repeat constructor; apply homogeneous_joint_transform.
Qed.

Lemma rotation3_joint_transforms s q :
  Forall rotation3 (map block33 (joint_transforms s q)).
Proof.
  unfold joint_transforms.
  do 6 (destruct q as [|? q]; [constructor|]).
  repeat constructor; apply rotation3_joint_transform.
Qed.

Lemma end_effector_rotation s q :
  length q = 6%nat ->
  exists T,
    FK.get_end_effector_transform s q = Ok T /\
    block33 T = fold_left matmul (map block33 (joint_transforms s q)) (eye 3).
Proof.
  intros H. eexists. split; [now apply end_effector_fold|].
  rewrite block33_fold;
    [reflexivity | apply homogeneous_eye | apply homogeneous_joint_transforms].
Qed.

Ltac perturbed_column n T0 HT0 HR0 :=
  eexists; eexists; exists T0;
  split; [reflexivity|]; split; [reflexivity|];
  split; [apply end_effector_fold; reflexivity|];
  split; [exact HT0|];
  rewrite HR0, block33_fold
    by (apply homogeneous_eye || apply homogeneous_joint_transforms);
  cbn [joint_transforms map];
  change (block33 (eye 4)) with (eye 3);
  replace_factor n;
  [ rewrite trace_joint_transform; do 3 f_equal; ring
  | exact rotation3_eye
  | repeat constructor; apply rotation3_joint_transform
  | repeat constructor; apply rotation3_joint_transform
  | apply rotation3_joint_transform
  | apply rotation3_joint_transform ].

Lemma perturbed_trace s q delta i :
  length q = 6%nat -> (i < 6)%nat ->
  exists q_plus T_plus T0,
    IK.add_at i delta q = Ok q_plus /\
    length q_plus = 6%nat /\
    FK.get_end_effector_transform s q_plus = Ok T_plus /\
    FK.get_end_effector_transform s q = Ok T0 /\
    trace (matmul (block33 T_plus) (transpose (block33 T0))) =
    1 + 2 * cos delta.
Proof.
  intros Hq Hi.
  destruct (end_effector_rotation s q Hq) as (T0 & HT0 & HR0).
  list_of_length Hq.
  destruct i as [|[|[|[|[|[|i]]]]]]; [..|lia].
  - perturbed_column 0%nat T0 HT0 HR0.
  - perturbed_column 1%nat T0 HT0 HR0.
  - perturbed_column 2%nat T0 HT0 HR0.
  - perturbed_column 3%nat T0 HT0 HR0.
  - perturbed_column 4%nat T0 HT0 HR0.
  - perturbed_column 5%nat T0 HT0 HR0.
Qed.

End Jacobian.

(** ** The Jacobian and the update are finite *)

Section JacobianFinite.

Lemma rotation_angle_of_trace M delta :
  trace M = 1 + 2 * cos delta -> 0 <= delta <= PI ->
  IK.rotation_angle M = delta.
Proof.
  intros Ht Hd. unfold IK.rotation_angle. rewrite Ht.
  replace ((1 + 2 * cos delta - 1) / 2) with (cos delta) by field.
  rewrite clip_inside by apply COS_bound. now apply acos_cos.
Qed.

Lemma angular_velocity_ok dR delta :
  IK.rotation_angle dR = delta -> 1e-10 <= delta -> delta < PI ->
  exists w, IK.angular_velocity dR delta = Ok w /\ length w = 3%nat.
Proof.
  intros Ha Hlo Hhi. unfold IK.angular_velocity. rewrite Ha.
  rewrite Rltb_false by lra. rewrite sin_angle_below by assumption.
  assert (0 < sin delta) by (apply sin_gt_0; lra).
  rewrite fdiv_ok by nra. cbn [bind]. eexists. split; reflexivity.
Qed.

Lemma foldM_ok {A B : Type} (P : B -> Prop) (f : B -> A -> result B) l :
  (forall b a, In a l -> P b -> exists b', f b a = Ok b' /\ P b') ->
  forall b, P b -> exists b', IK.foldM f l b = Ok b' /\ P b'.
Proof.
  induction l as [|a l IH]; intros Hf b Hb; cbn [IK.foldM]; [eauto|].
  destruct (Hf b a) as (b' & -> & Hb'); [now left | assumption|].
  cbn [bind]. apply IH; [|assumption]. intros; apply Hf; [now right|assumption].
Qed.

Lemma jacobian_column_ok s q delta T0 J i :
  1e-10 <= delta -> delta < PI -> length q = 6%nat -> (i < 6)%nat ->
  FK.get_end_effector_transform (IK.fk s) q = Ok T0 ->
  shape 6 6 J ->
  exists J',
    IK.jacobian_column s q delta (col3 T0) (block33 T0) J i = Ok J' /\
    shape 6 6 J'.
Proof.
  intros Hlo Hhi Hq Hi HT0 HJ. unfold IK.jacobian_column.
  destruct (perturbed_trace (IK.fk s) q delta i Hq Hi)
    as (q_plus & Tp & T0' & Hadd & _ & HTp & HT0' & Htr).
  rewrite HT0 in HT0'. injection HT0' as <-.
  rewrite Hadd. cbn [bind]. rewrite HTp. cbn [bind].
  rewrite vdiv_ok by lra. cbn [bind].
  destruct (angular_velocity_ok
              (matmul (block33 Tp) (transpose (block33 T0))) delta)
    as (w & -> & _); try assumption.
  { apply rotation_angle_of_trace; [assumption | lra]. }
  cbn [bind]. eexists. split; [reflexivity|].
  now do 2 apply shape_assign_col.
Qed.

Lemma numerical_jacobian_ok s q delta :
  1e-10 <= delta -> delta < PI -> length q = 6%nat ->
  exists J, IK._numerical_jacobian s q delta = Ok J /\ shape 6 6 J.
Proof.
  intros Hlo Hhi Hq. unfold IK._numerical_jacobian.
  destruct (end_effector_ok (IK.fk s) q Hq) as (T0 & HT0 & _).
  rewrite HT0. cbn [bind]. apply foldM_ok.
  - intros J i Hi HJ. apply jacobian_column_ok; try assumption.
    apply in_seq in Hi. lia.
  - split; [reflexivity | repeat constructor].
Qed.

Lemma update_ok s d q error :
  d <> 0 -> length q = 6%nat -> length error = 6%nat ->
  exists q', IK.update s d q error = Ok q' /\ length q' = 6%nat.
Proof.
  intros Hd Hq He. unfold IK.update. pose proof PI_gt_3.
  destruct (numerical_jacobian_ok s q 1e-6) as (J & -> & HJ);
    [lra | lra | assumption |].
  cbn [bind].
  destruct (damped_step_ok J d error HJ Hd He) as (y & _ & -> & Hl & _).
  cbn [bind]. unfold add. rewrite Hq, Hl. cbn [Nat.eqb].
  eexists. split; [reflexivity|].
  unfold vadd. rewrite length_zipWith, Hq, Hl. reflexivity.
Qed.

Lemma pose_error_ok s T q :
  0 < IK.epsilon s -> (3 <= length T)%nat -> length q = 6%nat ->
  exists dp dw,
    IK.pose_error s T q = Ok (dp, dw) /\
    length dp = 3%nat /\ length dw = 3%nat.
Proof.
  intros He HT Hq.
  destruct (pose_error_returns s T q HT Hq) as [E|([dp dw] & E & Hdp & Hdw)].
  - exfalso. revert E. unfold IK.pose_error.
    destruct (end_effector_ok (IK.fk s) q Hq) as (Tc & -> & _). cbn [bind].
    destruct (orientation_error_ok s
                (matmul (block33 T) (transpose (block33 Tc))) He)
      as (dw & -> & _).
    discriminate.
  - exists dp, dw. auto.
Qed.

(** With a positive [epsilon] the loop of [_solve_single] ends with a
    solution or with [None] from every seed of six angles. *)
Lemma solve_loop_ok s T d n q0 :
  0 < IK.epsilon s -> d <> 0 -> (3 <= length T)%nat -> length q0 = 6%nat ->
  exists r, IK.solve_loop s T d n q0 = Ok r.
Proof.
  intros He Hd HT. revert q0. induction n as [|n IH]; intros q0 Hq;
    cbn [IK.solve_loop]; [eauto|].
  destruct (pose_error_ok s T q0 He HT Hq) as (dp & dw & -> & Hdp & Hdw).
  cbn [bind fst snd].
  destruct (IK.converged s dp dw).
  - destruct (IK._verify _ _ _ _ _); eauto.
  - destruct (update_ok s d q0 (dp ++ dw)) as (q' & -> & Hq');
      [assumption | assumption | rewrite length_app; lia |].
    cbn [bind]. apply IH, Hq'.
Qed.

Lemma solve_single_ok s T q :
  0 < IK.epsilon s -> (3 <= length T)%nat -> length q = 6%nat ->
  exists r, IK._solve_single s T q = Ok r.
Proof.
  intros He HT Hq. unfold IK._solve_single.
  apply solve_loop_ok; try assumption. lra.
Qed.

Lemma end_effector_finite s q :
  FK.get_end_effector_transform s q <> NonFinite.
Proof.
  unfold FK.get_end_effector_transform, FK.forward_kinematics.
  do 6 (destruct q as [|? q]; [cbn [getitem nth_error bind]; discriminate|]).
  cbn [getitem nth_error bind]. discriminate.
Qed.

End JacobianFinite.

(** ** The solver at the home pose *)

Section Home.

Lemma end_effector_home :
  FK.get_end_effector_transform (IK.fk IK.__init__) home =
  Ok (FK.wrist_3 home_transforms).
Proof.
  unfold FK.get_end_effector_transform. cbn [IK.fk IK.__init__].
  unfold home. rewrite forward_kinematics_home. reflexivity.
Qed.

Lemma norm_zeros n : norm (zeros n) = 0.
Proof. unfold norm. rewrite dot_zeros_l. apply sqrt_0. Qed.

Lemma pose_error_home_like (T : mat) :
  col3 T = col3 (FK.wrist_3 home_transforms) ->
  3 <= trace (matmul (block33 T)
                (transpose (block33 (FK.wrist_3 home_transforms)))) ->
  IK.pose_error IK.__init__ T home = Ok (zeros 3, zeros 3).
Proof.
  intros Hp Ht. unfold IK.pose_error. rewrite end_effector_home. cbn [bind].
  rewrite orientation_error_guard.
  - cbn [bind]. rewrite Hp, vsub_diag. reflexivity.
  - rewrite rotation_angle_large_trace by assumption. cbn. lra.
Qed.

Lemma converged_zeros : IK.converged IK.__init__ (zeros 3) (zeros 3) = true.
Proof.
  apply converged_iff. rewrite norm_zeros. cbn. lra.
Qed.

Lemma pose_error_home :
  IK.pose_error IK.__init__ (FK.wrist_3 home_transforms) home =
  Ok (zeros 3, zeros 3).
Proof.
  apply pose_error_home_like; [reflexivity|]. cbn. lra.
Qed.

Lemma pose_error_stretched :
  IK.pose_error IK.__init__ stretched_home home = Ok (zeros 3, zeros 3).
Proof.
  apply pose_error_home_like; [reflexivity|]. cbn. lra.
Qed.

Lemma verify_home :
  IK._verify IK.__init__ home (FK.wrist_3 home_transforms) 1e-4 5e-3 = true.
Proof.
  apply verify_iff. eexists. split; [apply end_effector_home|].
  rewrite vsub_diag, norm_zeros. split; [lra|].
  unfold norm_fro.
  replace (fold_right _ _ _) with 0; [rewrite sqrt_0; lra|].
  cbn. lra.
Qed.

Lemma verify_stretched :
  IK._verify IK.__init__ home stretched_home 1e-4 5e-3 = false.
Proof.
  unfold IK._verify. rewrite end_effector_home.
  rewrite (Rltb_false (norm_fro _)); [apply andb_false_r|].
  unfold norm_fro.
  replace (fold_right _ _ _) with 3 by (cbn; lra).
  assert (1 <= sqrt 3); [|lra].
  rewrite <- sqrt_1 at 1. apply sqrt_le_1; lra.
Qed.

Lemma solve_single_home :
  IK._solve_single IK.__init__ (FK.wrist_3 home_transforms) home =
  Ok (Some home).
Proof.
  unfold IK._solve_single. cbn [IK.max_iter IK.__init__].
  rewrite (solve_loop_converged _ _ _ _ _ _ _ pose_error_home converged_zeros).
  now rewrite verify_home.
Qed.

End Home.

(** ** Joint limits *)

Section Limits.

Lemma check_joint_limits_from_spec s q : forall i,
  (i + length q <= length (FK.joint_limits s))%nat ->
  exists b,
    FK.check_joint_limits_from s i q = Ok b /\
    (b = true <->
     forall k angle lo hi,
       nth_error q k = Some angle ->
       nth_error (FK.joint_limits s) (i + k) = Some (lo, hi) ->
       lo <= angle <= hi).
Proof.
  induction q as [|angle q IH]; intros i Hlen; cbn [FK.check_joint_limits_from].
  - exists true. split; [reflexivity|]. split; [|reflexivity].
    intros _ [|k] ? ? ? H; discriminate H.
  - cbn [length] in Hlen.
    destruct (nth_error (FK.joint_limits s) i) as [[lo hi]|] eqn:Ei.
    2:{ apply nth_error_None in Ei. lia. }
    unfold Rltb, Rgtb.
    destruct (Rlt_dec angle lo) as [Hlo|Hlo]; cbn [orb].
    { exists false. split; [reflexivity|]. split; [discriminate|].
      intros H. specialize (H O angle lo hi eq_refl).
      rewrite Nat.add_0_r in H. specialize (H Ei). lra. }
    destruct (Rgt_dec angle hi) as [Hhi|Hhi].
    { exists false. split; [reflexivity|]. split; [discriminate|].
      intros H. specialize (H O angle lo hi eq_refl).
      rewrite Nat.add_0_r in H. specialize (H Ei). lra. }
    destruct (IH (S i)) as (b & -> & Hb); [lia|].
    exists b. split; [reflexivity|]. rewrite Hb. split.
    + intros H [|k] a l h Ha Hl.
      * cbn in Ha. injection Ha as <-. rewrite Nat.add_0_r, Ei in Hl.
        injection Hl as <- <-. lra.
      * cbn in Ha. apply (H k); [assumption|].
        now rewrite Nat.add_succ_comm.
    + intros H k a l h Ha Hl. apply (H (S k)); [assumption|].
      now rewrite <- Nat.add_succ_comm.
Qed.

Lemma forward_kinematics_limits limits g q :
  FK.forward_kinematics (FK.with_joint_limits limits g) q =
  FK.forward_kinematics g q.
Proof. reflexivity. Qed.

Variables (limits : list (R * R)) (s : IK.self).

Local Abbreviation s' := (IK.with_joint_limits limits s).

Lemma pose_error_limits T q : IK.pose_error s' T q = IK.pose_error s T q.
Proof. reflexivity. Qed.

Lemma verify_limits q T a b : IK._verify s' q T a b = IK._verify s q T a b.
Proof. reflexivity. Qed.

Lemma update_limits d q e : IK.update s' d q e = IK.update s d q e.
Proof. reflexivity. Qed.

Lemma solve_loop_limits T d n q :
  IK.solve_loop s' T d n q = IK.solve_loop s T d n q.
Proof.
  revert q. induction n as [|n IH]; intros q; cbn [IK.solve_loop];
    [reflexivity|].
  rewrite pose_error_limits.
  destruct (IK.pose_error s T q) as [e| |]; cbn [bind]; try reflexivity.
  change (IK.converged s' (fst e) (snd e))
    with (IK.converged s (fst e) (snd e)).
  rewrite verify_limits, update_limits.
  destruct (IK.converged s (fst e) (snd e)); [reflexivity|].
  destruct (IK.update s d q (fst e ++ snd e)); cbn [bind]; auto.
Qed.

Lemma collect_limits sols r : IK.collect s' sols r = IK.collect s sols r.
Proof.
  destruct r as [r|]; cbn [IK.collect]; [|reflexivity].
  assert (E : forall x l, IK.is_new s' x l = IK.is_new s x l).
  { intros x l. induction l as [|e l IHl]; cbn [IK.is_new]; [reflexivity|].
    now rewrite IHl. }
  now rewrite E.
Qed.

Lemma solve_ik_loop_limits T seeds sols :
  IK.solve_ik_loop s' T seeds sols = IK.solve_ik_loop s T seeds sols.
Proof.
  revert sols. induction seeds as [|seed seeds IH]; intros sols;
    cbn [IK.solve_ik_loop]; [reflexivity|].
  unfold IK._solve_single. rewrite solve_loop_limits.
  change (IK.max_iter s') with (IK.max_iter s).
  destruct (IK.solve_loop s T 0.01 (IK.max_iter s) seed); cbn [bind]; auto.
  now rewrite collect_limits, IH.
Qed.

End Limits.

(** ** Examples *)

Section Examples.

Example normalize_angle_three_pi : FK.normalize_angle (3 * PI) = PI.
Proof.
  pose proof PI_gt_3 as Hpi.
  destruct (normalize_angle_shift (3 * PI)) as [k Hk].
  pose proof (normalize_angle_range (3 * PI)) as [_ Hhi].
  pose proof (normalize_angle_open (3 * PI)) as Hlo.
  rewrite Hk in *.
  assert (k = (-1)%Z) as ->.
  { assert (-2 < k)%Z by (apply lt_IZR; nra).
    assert (k <= -1)%Z by (apply le_IZR; nra). lia. }
  lra.
Qed.

Example normalize_angle_minus_three_pi :
  FK.normalize_angle (- 3 * PI) = - PI.
Proof.
  pose proof PI_gt_3 as Hpi.
  destruct (normalize_angle_shift (- 3 * PI)) as [k Hk].
  pose proof (normalize_angle_range (- 3 * PI)) as [Hlo _].
  assert (Hhi : FK.normalize_angle (- 3 * PI) < PI).
  { unfold FK.normalize_angle. rewrite (while_above_id _ (- 3 * PI)) by lra.
    apply while_below_upper. lra. }
  rewrite Hk in *.
  assert (k = 1%Z) as ->.
  { assert (0 < k)%Z by (apply lt_IZR; nra).
    assert (k < 2)%Z by (apply lt_IZR; nra). lia. }
  lra.
Qed.

(** The outer loop of [solve_ik] on four results: the second success
    repeats the first and is dropped, the third is a radian away in the
    first joint and is kept. *)
Example collect_example :
  fold_left (IK.collect IK.__init__)
    [Some home; None; Some home; Some [1; 0; 0; 0; 0; 0]] [] =
  [home; [1; 0; 0; 0; 0; 0]].
Proof.
  pose proof PI_gt_3 as Hpi.
  assert (Hn0 : FK.normalize_joint_angles (IK.fk IK.__init__)
                  [0; 0; 0; 0; 0; 0] = [0; 0; 0; 0; 0; 0]).
  { apply normalize_fixed. repeat constructor; lra. }
  assert (Hn1 : FK.normalize_joint_angles (IK.fk IK.__init__)
                  [1; 0; 0; 0; 0; 0] = [1; 0; 0; 0; 0; 0]).
  { apply normalize_fixed. repeat constructor; lra. }
  assert (H00 : Rltb (Rabs (0 - 0)) 0.05 = true).
  { apply Rltb_true. rewrite Rminus_diag, Rabs_R0. lra. }
  assert (H10 : Rltb (Rabs (1 - 0)) 0.05 = false).
  { apply Rltb_false. rewrite Rminus_0_r, Rabs_R1. lra. }
  repeat (cbn [fold_left IK.collect IK.is_new app zipWith map forallb andb];
          rewrite ?Hn0, ?Hn1; unfold home, vsub;
          rewrite ?H00, ?H10).
  reflexivity.
Qed.

End Examples.

(** ** The claims about forward kinematics *)

Section ForwardKinematicsClaims.

(** C1. For every six joint angles, and for any geometry of the object,
    [forward_kinematics] returns the seven link poses of the chain of the
    specification, under their names and in chain order: the base is the
    identity, and the pose of each further link is the pose of the link
    before it times the local transform of the joint between them, which is
    the fixed origin [xyz], [rpy] of the joint followed by the right-handed
    rotation about the joint's axis by the joint's angle (a quarter turn
    about X takes Y to Z, about Y takes Z to X, about Z takes X to Y).  The
    axes and the offsets of the six joints are those of [Chain.ur3]. *)
Theorem forward_kinematics_follows_chain
    (s : FK.self) (q0 q1 q2 q3 q4 q5 : R) :
  (exists t,
     FK.forward_kinematics s [q0; q1; q2; q3; q4; q5] = Ok t /\
     FK.items t =
       combine Chain.link_names
         (Chain.link_poses (Chain.ur3 s) [q0; q1; q2; q3; q4; q5])) /\
  matvec (Chain.rotation Chain.AxisX (PI / 2)) [0; 1; 0; 1] = [0; 0; 1; 1] /\
  matvec (Chain.rotation Chain.AxisY (PI / 2)) [0; 0; 1; 1] = [1; 0; 0; 1] /\
  matvec (Chain.rotation Chain.AxisZ (PI / 2)) [1; 0; 0; 1] = [0; 1; 0; 1].
Proof.
  split; [|exact rotation_right_handed].
  eexists; split.
  - unfold FK.forward_kinematics. cbn [getitem nth_error bind]. reflexivity.
  - unfold FK.items, Chain.link_poses, Chain.ur3, Chain.link_names.
    cbn [Chain.cumulative combine FK.base FK.shoulder FK.upper_arm FK.forearm
         FK.wrist_1 FK.wrist_2 FK.wrist_3].
    rewrite <- !joint_transform_local.
    cbn [Chain.origin_xyz Chain.origin_rpy Chain.axis axis_name].
    reflexivity.
Qed.

(** C5. At the home configuration the reference geometry gives the constant
    chain [home_transforms]; the translation of [wrist_3] there is
    x = upper_arm_length + forearm_length = 0.4569, y = d4 = 0.11235 and
    z = d1 - d5 = 0.06655, and neither [d6] nor [wrist_3_length] has any
    effect on the chain. *)
Theorem forward_kinematics_home_pose :
  FK.forward_kinematics FK.__init__ [0; 0; 0; 0; 0; 0] = Ok home_transforms /\
  col3 (FK.wrist_3 home_transforms) = [0.4569; 0.11235; 0.06655] /\
  FK.upper_arm_length FK.__init__ + FK.forearm_length FK.__init__ = 0.4569 /\
  0.24365 + 0.21325 = 0.4569 /\
  FK.d4 FK.__init__ = 0.11235 /\
  FK.d1 FK.__init__ - FK.d5 FK.__init__ = 0.06655 /\
  0.1519 - 0.08535 = 0.06655 /\
  (forall d6' wrist_3_length' g q,
     FK.forward_kinematics (FK.with_wrist_3 d6' wrist_3_length' g) q =
     FK.forward_kinematics g q).
Proof.
  split; [apply forward_kinematics_home|].
  split; [reflexivity|].
  cbn [FK.upper_arm_length FK.forearm_length FK.d4 FK.d1 FK.d5 FK.__init__].
  repeat split; try lra.
Qed.

(** C4, as amended.  The two loops of [normalize_joint_angles] end on every
    angle, each output lies in the closed interval from [- PI] to [PI] and
    differs from its input by an integer multiple of [2 * PI], and an input
    above [- PI] gives an output above [- PI]. *)
Theorem normalize_joint_angles_closed_range (s : FK.self) (q : list R) :
  Forall2
    (fun a b =>
       (exists m, loop_above a m /\ loop_below m b) /\
       - PI <= b <= PI /\
       (exists k : Z, b = a + 2 * PI * IZR k) /\
       (- PI < a -> - PI < b))
    q (FK.normalize_joint_angles s q).
Proof.
  unfold FK.normalize_joint_angles.
  induction q as [|a q IH]; cbn [map]; constructor; [|exact IH].
  split; [apply normalize_angle_runs|].
  split; [apply normalize_angle_range|].
  split; [apply normalize_angle_shift | apply normalize_angle_open].
Qed.

(** C4 as stated fails: the angle [- PI] is returned as it is, and it is not
    in the half-open interval. *)
Lemma normalize_joint_angles_keeps_minus_pi :
  ~ Forall (fun a => - PI < a <= PI)
      (FK.normalize_joint_angles FK.__init__ [- PI; 0; 0; 0; 0; 0]).
Proof.
  intros H. unfold FK.normalize_joint_angles in H. cbn [map] in H.
  inversion H as [|a l Ha _]; subst.
  pose proof PI_gt_3.
  rewrite normalize_angle_id in Ha by lra. lra.
Qed.

End ForwardKinematicsClaims.

Section StepClaims.

(** C6. For every 6x6 Jacobian and every error vector of length 6, the
    matrix [J @ J.T + 0.01**2 * np.eye(6)] is symmetric and positive
    definite, [np.linalg.solve] returns the one solution of the system, and
    the damped step is defined.  Hence the update of any iterate of six
    angles is defined, whatever the configuration, and on a 4x4 target and
    a seed of six angles [_solve_single] raises no exception,
    [LinAlgError] among them. *)
Theorem damped_step_well_defined
    (J : mat) (error : vec) (s : IK.self) (T : mat) (q_init : vec) :
  shape 6 6 J -> length error = 6%nat ->
  shape 4 4 T -> length q_init = 6%nat ->
  transpose (IK.damped_matrix J 0.01) = IK.damped_matrix J 0.01 /\
  (forall x,
     length x = 6%nat -> x <> zeros 6 ->
     0 < dot x (matvec (IK.damped_matrix J 0.01) x)) /\
  (exists y,
     linalg_solve (IK.damped_matrix J 0.01) error = Ok y /\
     matvec (IK.damped_matrix J 0.01) y = error /\
     (forall y',
        length y' = 6%nat ->
        matvec (IK.damped_matrix J 0.01) y' = error -> y' = y) /\
     IK.damped_step J 0.01 error = Ok (matvec (transpose J) y)) /\
  (forall q e,
     length q = 6%nat -> length e = 6%nat ->
     exists q', IK.update s 0.01 q e = Ok q' /\ length q' = 6%nat) /\
  (forall e, IK._solve_single s T q_init <> Raised e).
Proof.
  intros HJ He [HT _] Hq.
  assert (Hd : 0.01 <> 0) by lra.
  split; [now apply damped_symmetric|].
  split; [intros x Hx Hne; now apply damped_positive|].
  split; [|split].
  - destruct (damped_step_ok J 0.01 error HJ Hd He)
      as (y & Hy & Hstep & _ & Hsol & Huniq).
    exists y. repeat split; assumption.
  - intros q e Hlq Hle. now apply update_ok.
  - intros e.
    destruct (solve_single_returns s T q_init) as [E|(r & E & _)];
      try rewrite E; (lia || assumption || discriminate).
Qed.

Lemma damped_step_well_defined_witness :
  shape 6 6 (eye 6) /\ length (zeros 6) = 6%nat /\
  shape 4 4 (eye 4) /\ length home = 6%nat /\
  (exists y,
     linalg_solve (IK.damped_matrix (eye 6) 0.01) (zeros 6) = Ok y /\
     matvec (IK.damped_matrix (eye 6) 0.01) y = zeros 6 /\
     (forall y',
        length y' = 6%nat ->
        matvec (IK.damped_matrix (eye 6) 0.01) y' = zeros 6 -> y' = y) /\
     IK.damped_step (eye 6) 0.01 (zeros 6)
       = Ok (matvec (transpose (eye 6)) y)) /\
  (forall q e,
     length q = 6%nat -> length e = 6%nat ->
     exists q', IK.update IK.__init__ 0.01 q e = Ok q' /\ length q' = 6%nat) /\
  (forall e, IK._solve_single IK.__init__ (eye 4) home <> Raised e).
Proof.
  assert (H66 : shape 6 6 (eye 6))
    by (split; [reflexivity | repeat constructor]).
  assert (H44 : shape 4 4 (eye 4))
    by (split; [reflexivity | repeat constructor]).
  split; [exact H66|]. split; [reflexivity|].
  split; [exact H44|]. split; [reflexivity|].
  exact (proj2 (proj2 (damped_step_well_defined (eye 6) (zeros 6) IK.__init__
                         (eye 4) home H66 eq_refl H44 eq_refl))).
Defined.

End StepClaims.

(** ** The claims about the inverse solver *)

Section SolverLemmas.

Lemma ForallOrdPairs_nth {A : Type} (Rel : A -> A -> Prop) l :
  ForallOrdPairs Rel l ->
  forall i j a b, (i < j)%nat ->
    nth_error l i = Some a -> nth_error l j = Some b -> Rel a b.
Proof.
  induction 1 as [|c l Hc _ IH]; intros i j a b Hij Ha Hb.
  - destruct i; discriminate Ha.
  - destruct j as [|j]; [lia|]. cbn in Hb. destruct i as [|i]; cbn in Ha.
    + injection Ha as <-. rewrite Forall_forall in Hc.
      eapply Hc, nth_error_In, Hb.
    + apply (IH i j); (lia || assumption).
Qed.

Lemma distinct_far solutions :
  distinct solutions ->
  forall i j a b, i <> j ->
    nth_error solutions i = Some a -> nth_error solutions j = Some b ->
    far a b.
Proof.
  intros [_ Hp] i j a b Hij Ha Hb.
  destruct (Nat.lt_total i j) as [Hlt|[Heq|Hgt]]; [|contradiction|].
  - exact (ForallOrdPairs_nth far _ Hp i j a b Hlt Ha Hb).
  - apply far_sym. exact (ForallOrdPairs_nth far _ Hp j i b a Hgt Hb Ha).
Qed.

Lemma distinct_fixed s solutions :
  distinct solutions ->
  Forall (fun q => FK.normalize_joint_angles (IK.fk s) q = q) solutions.
Proof.
  intros [Hn _]. apply Forall_forall. intros q Hq.
  rewrite Forall_forall in Hn. now apply normalize_fixed, Hn.
Qed.

Lemma collect_cases s solutions r :
  let c := FK.normalize_joint_angles (IK.fk s) r in
  (IK.collect s solutions (Some r) = solutions /\
   exists e, In e solutions /\
             within c (FK.normalize_joint_angles (IK.fk s) e)) \/
  (IK.collect s solutions (Some r) = solutions ++ [c] /\
   ~ exists e, In e solutions /\
               within c (FK.normalize_joint_angles (IK.fk s) e)).
Proof.
  intros c. cbn [IK.collect]. fold c.
  destruct (IK.is_new s c solutions) eqn:E.
  - right. split; [reflexivity|]. intros H.
    apply is_new_false in H. congruence.
  - left. split; [reflexivity|]. now apply is_new_false.
Qed.

Lemma distinct_nil : distinct [].
Proof. split; constructor. Qed.

End SolverLemmas.

Section SeedLemmas.

Variable RandomState : Type.
Variable RandomState_seed : Z -> RandomState.
Variable random_sample : RandomState -> R * RandomState.

Local Abbreviation uniform := (IK.uniform RandomState random_sample).
Local Abbreviation random_seeds := (IK.random_seeds RandomState random_sample).
Local Abbreviation uniform_at := (IK.uniform_at RandomState random_sample).
Local Abbreviation random_seeds_at :=
  (IK.random_seeds_at RandomState random_sample).
Local Abbreviation cells := (IK.cells RandomState).
Local Abbreviation next := (IK.next RandomState).
Local Abbreviation state_after := (advance RandomState random_sample).
Local Abbreviation sample := (nth_sample RandomState random_sample).

(** Draws from the object at [rng] on the store are the draws of [uniform]
    from the state of that object, and they change no other object. *)
Lemma uniform_at_uniform low high size rng : forall h,
  fst (uniform_at low high size rng h) =
    fst (uniform low high size (cells h rng)) /\
  cells (snd (uniform_at low high size rng h)) rng =
    snd (uniform low high size (cells h rng)) /\
  (forall a, a <> rng ->
     cells (snd (uniform_at low high size rng h)) a = cells h a) /\
  next (snd (uniform_at low high size rng h)) = next h.
Proof.
  induction size as [|n IH]; intros h; cbn [IK.uniform_at IK.uniform].
  - cbn. auto.
  - unfold IK.sample_at.
    destruct (random_sample (cells h rng)) as [u g] eqn:E.
    match goal with
    | |- context [IK.uniform_at _ _ _ _ n rng ?h1] =>
      destruct (IH h1) as (H1 & H2 & H3 & H4); revert H1 H2 H3 H4;
      destruct (IK.uniform_at _ _ low high n rng h1) as [v h2]
    end.
    cbn [fst snd IK.cells IK.next]. rewrite Nat.eqb_refl.
    destruct (IK.uniform _ _ low high n g) as [v' g'].
    cbn [fst snd]. intros -> H2 H3 H4.
    split; [reflexivity|]. split; [assumption|]. split; [|assumption].
    intros a Ha. rewrite (H3 a Ha).
    destruct (Nat.eqb_spec a rng); [contradiction | reflexivity].
Qed.

Lemma random_seeds_at_random_seeds n rng : forall h,
  fst (random_seeds_at n rng h) = random_seeds n (cells h rng) /\
  (forall a, a <> rng -> cells (snd (random_seeds_at n rng h)) a = cells h a) /\
  next (snd (random_seeds_at n rng h)) = next h.
Proof.
  induction n as [|n IH]; intros h;
    cbn [IK.random_seeds_at IK.random_seeds].
  - cbn. auto.
  - destruct (uniform_at_uniform (- PI) PI 6 rng h) as (H1 & H2 & H3 & H4).
    revert H1 H2 H3 H4.
    destruct (IK.uniform_at _ _ (- PI) PI 6 rng h) as [seed h1].
    destruct (IK.uniform _ _ (- PI) PI 6 (cells h rng)) as [seed' g1].
    cbn [fst snd]. intros -> H2 H3 H4.
    destruct (IH h1) as (H5 & H6 & H7). revert H5 H6 H7.
    destruct (IK.random_seeds_at _ _ n rng h1) as [seeds h2].
    cbn [fst snd]. intros -> H6 H7. rewrite H2.
    split; [reflexivity|]. split; [|congruence].
    intros a Ha. rewrite (H6 a Ha). now apply H3.
Qed.

(** A call of [_generate_seeds] on a store returns what the store does not
    appear in; it builds one object and changes no other. *)
Lemma run_generate_seeds_result s h :
  fst (IK.run_generate_seeds RandomState RandomState_seed random_sample s h) =
    IK._generate_seeds RandomState RandomState_seed random_sample s /\
  next (snd (IK.run_generate_seeds RandomState RandomState_seed
               random_sample s h)) = S (next h) /\
  (forall a, a <> next h ->
     cells (snd (IK.run_generate_seeds RandomState RandomState_seed
                   random_sample s h)) a = cells h a).
Proof.
  unfold IK.run_generate_seeds, IK._generate_seeds, IK.new_RandomState.
  match goal with
  | |- context [IK.random_seeds_at _ _ 24 ?rng ?h1] =>
    destruct (random_seeds_at_random_seeds 24 rng h1) as (H1 & H2 & H3);
    revert H1 H2 H3;
    destruct (IK.random_seeds_at _ _ 24 rng h1) as [seeds h2]
  end.
  cbn [fst snd IK.cells IK.next]. rewrite Nat.eqb_refl. intros -> H2 H3.
  split; [reflexivity|]. split; [assumption|].
  intros a Ha. rewrite (H2 a Ha).
  destruct (Nat.eqb_spec a (next h)); [contradiction | reflexivity].
Qed.

Lemma run_solve_ik_result s T h :
  fst (IK.run_solve_ik RandomState RandomState_seed random_sample s T h) =
    IK.solve_ik RandomState RandomState_seed random_sample s T /\
  next (snd (IK.run_solve_ik RandomState RandomState_seed
               random_sample s T h)) = S (next h) /\
  (forall a, a <> next h ->
     cells (snd (IK.run_solve_ik RandomState RandomState_seed
                   random_sample s T h)) a = cells h a).
Proof.
  unfold IK.run_solve_ik, IK.solve_ik.
  destruct (run_generate_seeds_result s h) as (H1 & H2 & H3).
  revert H1 H2 H3.
  destruct (IK.run_generate_seeds _ _ _ s h) as [seeds h'].
  cbn [fst snd]. intros -> H2 H3. auto.
Qed.

(** The calls of a program leave its two objects as they were. *)
Lemma run_all_objects calls : forall w,
  fk_object RandomState
    (run_all RandomState RandomState_seed random_sample calls w) =
    fk_object RandomState w /\
  ik_object RandomState
    (run_all RandomState RandomState_seed random_sample calls w) =
    ik_object RandomState w.
Proof.
  unfold run_all.
  induction calls as [|c calls IH]; intros w; cbn [fold_left]; [auto|].
  destruct (IH (snd (run RandomState RandomState_seed random_sample c w)))
    as [-> ->].
  destruct c as [q|T]; cbn [run FK.call_forward_kinematics].
  - cbn. auto.
  - destruct (IK.run_solve_ik _ _ _ _ _ _). cbn. auto.
Qed.

Lemma run_result c w :
  fst (run RandomState RandomState_seed random_sample c w) =
  match c with
  | Call_forward_kinematics q =>
    Link_transforms (FK.forward_kinematics (fk_object RandomState w) q)
  | Call_solve_ik T =>
    Solutions
      (IK.solve_ik RandomState RandomState_seed random_sample
         (ik_object RandomState w) T)
  end.
Proof.
  destruct c as [q|T]; cbn [run FK.call_forward_kinematics fst];
    [reflexivity|].
  pose proof (run_solve_ik_result (ik_object RandomState w) T
                (generators RandomState w)) as (H & _).
  revert H. destruct (IK.run_solve_ik _ _ _ _ _ _) as [r h].
  cbn [fst]. now intros ->.
Qed.

(** The draws of a generator, by their number. *)
Lemma nth_sample_advance a j g :
  sample (a + j) g = sample j (state_after a g).
Proof.
  unfold nth_sample. revert g.
  induction a as [|a IH]; intros g; cbn [Nat.add advance];
    [reflexivity | apply IH].
Qed.

Lemma uniform_stream low high size : forall g,
  uniform low high size g =
  (map (fun j => low + (high - low) * sample j g) (seq 0 size),
   state_after size g).
Proof.
  induction size as [|n IH]; intros g; cbn [IK.uniform]; [reflexivity|].
  destruct (random_sample g) as [u g1] eqn:E. rewrite IH.
  cbn [seq map advance]. rewrite <- seq_shift, map_map, E.
  cbn [snd]. unfold nth_sample at 2. cbn [advance].
  rewrite E. cbn [fst]. f_equal. f_equal. apply map_ext. intros j.
  unfold nth_sample. cbn [advance]. now rewrite E.
Qed.

Lemma random_seeds_stream n : forall g,
  random_seeds n g =
  map (fun i =>
         map (fun j => - PI + (PI - - PI) * sample (6 * i + j) g)
             (seq 0 6))
      (seq 0 n).
Proof.
  induction n as [|n IH]; intros g; cbn [IK.random_seeds]; [reflexivity|].
  rewrite uniform_stream, IH.
  change (seq 0 (S n)) with (0%nat :: seq 1 n). cbn [map].
  rewrite <- seq_shift, map_map.
  f_equal. apply map_ext. intros i. apply map_ext. intros j.
  replace (6 * S i + j)%nat with (6 + (6 * i + j))%nat by lia.
  now rewrite (nth_sample_advance 6 (6 * i + j) g).
Qed.

Lemma advance_add a b : forall g,
  state_after (a + b) g = state_after b (state_after a g).
Proof.
  induction a as [|a IH]; intros g; cbn [Nat.add advance];
    [reflexivity | apply IH].
Qed.

Lemma random_seeds_at_state n rng : forall h,
  cells (snd (random_seeds_at n rng h)) rng =
  state_after (6 * n) (cells h rng).
Proof.
  induction n as [|n IH]; intros h; cbn [IK.random_seeds_at];
    [reflexivity|].
  destruct (uniform_at_uniform (- PI) PI 6 rng h) as (_ & H2 & _ & _).
  revert H2. destruct (IK.uniform_at _ _ (- PI) PI 6 rng h) as [seed h1].
  cbn [snd]. intros H2. specialize (IH h1). revert IH.
  destruct (IK.random_seeds_at _ _ n rng h1) as [seeds h2].
  cbn [snd]. intros ->. rewrite H2, uniform_stream. cbn [snd].
  replace (6 * S n)%nat with (6 + 6 * n)%nat by lia.
  now rewrite advance_add.
Qed.

(** What a call of [solve_ik] leaves in the store of a program: one more
    generator object, in the state that 144 draws from the seed 42 leave,
    and the other objects as they were. *)
Lemma run_solve_ik_store T w :
  next (generators RandomState
          (snd (run RandomState RandomState_seed random_sample
                  (Call_solve_ik T) w))) =
    S (next (generators RandomState w)) /\
  cells (generators RandomState
           (snd (run RandomState RandomState_seed random_sample
                   (Call_solve_ik T) w)))
        (next (generators RandomState w)) =
    state_after 144 (RandomState_seed 42) /\
  (forall a,
     a <> next (generators RandomState w) ->
     cells (generators RandomState
              (snd (run RandomState RandomState_seed random_sample
                      (Call_solve_ik T) w))) a =
     cells (generators RandomState w) a).
Proof.
  cbn [run].
  destruct (run_solve_ik_result (ik_object RandomState w) T
              (generators RandomState w)) as (_ & H2 & H3).
  assert (H4 : cells (snd (IK.run_solve_ik RandomState RandomState_seed
                             random_sample (ik_object RandomState w) T
                             (generators RandomState w)))
                 (next (generators RandomState w)) =
               state_after 144 (RandomState_seed 42)).
  { unfold IK.run_solve_ik, IK.run_generate_seeds, IK.new_RandomState.
    match goal with
    | |- context [IK.random_seeds_at _ _ 24 ?rng ?h1] =>
      pose proof (random_seeds_at_state 24 rng h1) as H; revert H;
      destruct (IK.random_seeds_at _ _ 24 rng h1) as [seeds h2]
    end.
    cbn [snd IK.cells]. rewrite Nat.eqb_refl. now intros ->. }
  revert H2 H3 H4. destruct (IK.run_solve_ik _ _ _ _ _ _) as [r h].
  cbn [snd generators]. auto.
Qed.

Lemma random_seeds_range (P : R -> Prop) n g :
  (forall k, (k < 6 * n)%nat -> P (sample k g)) ->
  Forall (Forall (fun x => exists u, P u /\ x = - PI + (PI - - PI) * u))
         (random_seeds n g).
Proof.
  intros H. rewrite random_seeds_stream.
  apply Forall_forall. intros seed Hs. apply in_map_iff in Hs.
  destruct Hs as (i & <- & Hi). apply in_seq in Hi.
  apply Forall_forall. intros x Hx. apply in_map_iff in Hx.
  destruct Hx as (j & <- & Hj). apply in_seq in Hj.
  eexists. split; [|reflexivity]. apply H. lia.
Qed.

End SeedLemmas.

(** ** The linear congruential generator *)

Section Lcg.

Lemma advance_lcg n : forall g,
  advance Z lcg_sample n g = lcg_state n g.
Proof.
  induction n as [|n IH]; intros g; cbn [advance lcg_state];
    [reflexivity | apply IH].
Qed.

Lemma nth_sample_lcg n g :
  nth_sample Z lcg_sample n g = IZR (lcg_state n g) / 2147483648.
Proof. unfold nth_sample. now rewrite advance_lcg. Qed.

Lemma lcg_states_positive :
  forallb (fun n => (0 <? lcg_state n (lcg_seed 42))%Z &&
                    (lcg_state n (lcg_seed 42) <? 2147483648)%Z)
          (seq 0 144) = true.
Proof. vm_compute. reflexivity. Qed.

(** The first 144 draws from the seed 42 are strictly between 0 and 1. *)
Lemma lcg_samples_inside n :
  (n < 144)%nat -> 0 < nth_sample Z lcg_sample n (lcg_seed 42) < 1.
Proof.
  intros Hn. rewrite nth_sample_lcg.
  pose proof lcg_states_positive as H. rewrite forallb_forall in H.
  specialize (H n). rewrite in_seq in H.
  destruct (andb_prop _ _ (H ltac:(lia))) as [H0 H1].
  apply Z.ltb_lt in H0, H1. apply IZR_lt in H0, H1.
  split.
  - apply Rdiv_lt_0_compat; lra.
  - apply Rmult_lt_reg_r with 2147483648; [lra|].
    unfold Rdiv. rewrite Rmult_assoc, Rinv_l by lra. lra.
Qed.

End Lcg.

Section SolverClaims.

Variable RandomState : Type.
Variable RandomState_seed : Z -> RandomState.
Variable random_sample : RandomState -> R * RandomState.

Local Abbreviation solve_ik :=
  (IK.solve_ik RandomState RandomState_seed random_sample).
Local Abbreviation world := (world RandomState).
Local Abbreviation run := (run RandomState RandomState_seed random_sample).
Local Abbreviation run_all :=
  (run_all RandomState RandomState_seed random_sample).
Local Abbreviation _generate_seeds :=
  (IK._generate_seeds RandomState RandomState_seed random_sample).
Local Abbreviation random_seeds := (IK.random_seeds RandomState random_sample).
Local Abbreviation uniform := (IK.uniform RandomState random_sample).
Local Abbreviation normalize s := (FK.normalize_joint_angles (IK.fk s)).

(** C2. [_solve_single] returns an iterate [q] only if [q] is reached within
    the iteration cap and passes both the convergence test (position error
    norm below [tol], orientation error norm below [5 * tol]) and the
    verification by a fresh forward kinematics (position error below 1e-4,
    Frobenius norm of the difference of the rotation blocks below 5e-3).
    An iterate that passes the convergence test and fails the verification
    makes it return [None], which is also what it returns when the cap is
    reached.  The reference tolerance is 1e-6 and the cap is 200. *)
Theorem solve_single_accepts_only_verified
    (s : IK.self) (T : mat) (q_init : vec) :
  (forall q,
     IK._solve_single s T q_init = Ok (Some q) ->
     exists k dp dw T_actual,
       (k < IK.max_iter s)%nat /\
       reaches s T 0.01 k q_init q /\
       IK.pose_error s T q = Ok (dp, dw) /\
       norm dp < IK.tol s /\
       norm dw < IK.tol s * 5 /\
       FK.get_end_effector_transform (IK.fk s) q = Ok T_actual /\
       norm (vsub (col3 T_actual) (col3 T)) < 1e-4 /\
       norm_fro (msub (block33 T_actual) (block33 T)) < 5e-3) /\
  (forall k q dp dw,
     (k < IK.max_iter s)%nat ->
     reaches s T 0.01 k q_init q ->
     IK.pose_error s T q = Ok (dp, dw) ->
     norm dp < IK.tol s ->
     norm dw < IK.tol s * 5 ->
     IK._verify s q T 1e-4 5e-3 = false ->
     IK._solve_single s T q_init = Ok None) /\
  (forall q,
     reaches s T 0.01 (IK.max_iter s) q_init q ->
     IK._solve_single s T q_init = Ok None) /\
  IK.tol IK.__init__ = 1e-6 /\
  IK.max_iter IK.__init__ = 200%nat.
Proof.
  unfold IK._solve_single. repeat split.
  - intros q H.
    destruct (solve_loop_found _ _ _ _ _ _ H)
      as (k & dp & dw & Hk & Hr & He & Hc & Hv).
    apply converged_iff in Hc as [Hp Hw].
    apply verify_iff in Hv as (Ta & HTa & Hvp & Hvr).
    exists k, dp, dw, Ta. repeat split; assumption.
  - intros k q dp dw Hk Hr He Hp Hw Hv.
    eapply solve_loop_discards; try eassumption.
    apply converged_iff. now split.
  - intros q Hr. eapply solve_loop_exhausted, Hr.
Qed.

(** The first part of C2 at the home pose from the home seed, which is
    accepted, and its second part at the stretched home pose, which passes
    the convergence test and fails the verification. *)
Lemma solve_single_accepts_only_verified_witness :
  (exists k dp dw T_actual,
     (k < IK.max_iter IK.__init__)%nat /\
     reaches IK.__init__ (FK.wrist_3 home_transforms) 0.01 k home home /\
     IK.pose_error IK.__init__ (FK.wrist_3 home_transforms) home
       = Ok (dp, dw) /\
     norm dp < IK.tol IK.__init__ /\
     norm dw < IK.tol IK.__init__ * 5 /\
     FK.get_end_effector_transform (IK.fk IK.__init__) home = Ok T_actual /\
     norm (vsub (col3 T_actual) (col3 (FK.wrist_3 home_transforms))) < 1e-4 /\
     norm_fro (msub (block33 T_actual)
                 (block33 (FK.wrist_3 home_transforms))) < 5e-3) /\
  IK._solve_single IK.__init__ stretched_home home = Ok None.
Proof.
  split.
  - apply (proj1 (solve_single_accepts_only_verified
                    IK.__init__ (FK.wrist_3 home_transforms) home)).
    exact solve_single_home.
  - apply (proj1 (proj2 (solve_single_accepts_only_verified
                           IK.__init__ stretched_home home))
             O home (zeros 3) (zeros 3)).
    + cbn. lia.
    + constructor.
    + exact pose_error_stretched.
    + rewrite norm_zeros. cbn. lra.
    + rewrite norm_zeros. cbn. lra.
    + exact verify_stretched.
Defined.

(** C3. On a 4x4 target, [solve_ik] returns a list of solutions: the
    accumulation of [collect] over what the seeds gave, in seed order.  Any
    two of the solutions differ by 0.05 or more in some joint; they are a
    subsequence of the normalised results of the successful seeds, and the
    first of these is kept.  A result is discarded exactly when each of its
    normalised angles is within 0.05 of the same angle of a solution
    accepted before it, and it is appended otherwise. *)
Theorem solve_ik_keeps_distinct_in_order (s : IK.self) (T : mat) :
  shape 4 4 T ->
  (exists solutions,
     solve_ik s T = Ok solutions /\
     solutions =
       fold_left (IK.collect s)
         (map (seed_result s T) (_generate_seeds s)) [] /\
     (forall i j a b, i <> j ->
        nth_error solutions i = Some a ->
        nth_error solutions j = Some b -> far a b) /\
     Subseq solutions
       (map (normalize s)
          (successes (map (seed_result s T) (_generate_seeds s)))) /\
     (forall q rest,
        successes (map (seed_result s T) (_generate_seeds s)) = q :: rest ->
        hd_error solutions = Some (normalize s q))) /\
  (forall solutions r,
     let c := normalize s r in
     (IK.collect s solutions (Some r) = solutions /\
      exists e, In e solutions /\ within c (normalize s e)) \/
     (IK.collect s solutions (Some r) = solutions ++ [c] /\
      ~ exists e, In e solutions /\ within c (normalize s e))) /\
  (forall solutions, IK.collect s solutions None = solutions).
Proof.
  intros [HT _]. split; [|split; [apply collect_cases | reflexivity]].
  eexists. split; [apply solve_ik_returns; lia|].
  set (results := map (seed_result s T) (_generate_seeds s)).
  split; [reflexivity|]. split; [|split].
  - apply distinct_far, fold_collect_distinct, distinct_nil.
  - destruct (fold_collect_subseq s results []) as (kept & -> & Hk).
    exact Hk.
  - apply fold_collect_first.
Qed.

(** C10. On a 4x4 target, [solve_ik] returns a list of at most 32
    solutions, one for each of the 8 + 24 seeds at most, and each of them is
    its own normalisation. *)
Theorem solve_ik_at_most_32_normalized (s : IK.self) (T : mat) :
  shape 4 4 T ->
  length (_generate_seeds s) = 32%nat /\
  length IK.configs = 8%nat /\
  exists solutions,
    solve_ik s T = Ok solutions /\
    (length solutions <= 32)%nat /\
    Forall (fun q => normalize s q = q) solutions.
Proof.
  intros [HT _]. split; [apply generate_seeds_shape|]. split; [reflexivity|].
  eexists. split; [apply solve_ik_returns; lia|].
  set (results := map (seed_result s T) (_generate_seeds s)).
  split.
  - pose proof (fold_collect_length s results []) as H. cbn [length] in H.
    unfold results in H at 2. rewrite length_map in H.
    destruct (generate_seeds_shape RandomState RandomState_seed
                random_sample s) as [Hn _].
    rewrite Hn in H. lia.
  - apply distinct_fixed, fold_collect_distinct, distinct_nil.
Qed.

(** C7. When the rotation angle is below [epsilon], the orientation error
    is the zero vector and no division is evaluated; when it is below 1e-10,
    so are the angular rows of a column of the Jacobian.  Without the guard
    the division is by zero: with an [epsilon] that is not positive, the
    orientation error of the identity rotation is not finite.  With a
    positive [epsilon], at an iterate whose rotation relative to the target
    is the identity the error of the pose is the difference of the
    positions and the zero vector; the Jacobian of six angles is finite;
    and for every 4x4 target, those with the identity as relative rotation
    among them, [_solve_single] returns a solution or [None] from every
    seed of six angles and [solve_ik] returns a list of solutions, with no
    exception and no value that is not finite. *)
Theorem degenerate_rotation_guard (s : IK.self) (M : mat) (delta : R) :
  (IK.rotation_angle M < IK.epsilon s ->
   IK.orientation_error s M = Ok (zeros 3)) /\
  (IK.rotation_angle M < 1e-10 ->
   IK.angular_velocity M delta = Ok (zeros 3)) /\
  IK.rotation_angle (eye 3) = 0 /\
  IK.angular_velocity (eye 3) delta = Ok (zeros 3) /\
  (IK.epsilon s <= 0 -> IK.rotation_angle M = 0 ->
   IK.orientation_error s M = NonFinite) /\
  (0 < IK.epsilon s ->
   forall T q T_current,
     FK.get_end_effector_transform (IK.fk s) q = Ok T_current ->
     matmul (block33 T) (transpose (block33 T_current)) = eye 3 ->
     IK.pose_error s T q = Ok (vsub (col3 T) (col3 T_current), zeros 3)) /\
  (forall q,
     length q = 6%nat ->
     exists J, IK._numerical_jacobian s q 1e-6 = Ok J /\ shape 6 6 J) /\
  (0 < IK.epsilon s ->
   forall T,
     shape 4 4 T ->
     (forall q_init,
        length q_init = 6%nat ->
        exists r, IK._solve_single s T q_init = Ok r) /\
     (exists solutions,
        solve_ik s T = Ok solutions /\
        solutions =
          fold_left (IK.collect s)
            (map (seed_result s T) (_generate_seeds s)) [])) /\
  IK.epsilon IK.__init__ = 1e-6.
Proof.
  split; [apply orientation_error_guard|].
  split; [apply angular_velocity_guard|].
  split; [apply rotation_angle_eye3|].
  split; [apply angular_velocity_guard; rewrite rotation_angle_eye3; lra|].
  split; [apply orientation_error_unguarded|].
  split.
  { intros He T q Tc HTc Hid. unfold IK.pose_error. rewrite HTc. cbn [bind].
    rewrite Hid, orientation_error_guard; [reflexivity|].
    now rewrite rotation_angle_eye3. }
  split; [|split; [|reflexivity]].
  - intros q Hq. pose proof PI_gt_3.
    apply numerical_jacobian_ok; (lra || assumption).
  - intros He T [HT _]. split.
    + intros q_init Hq. apply solve_single_ok; (assumption || lia).
    + eexists. split; [apply solve_ik_returns; lia | reflexivity].
Qed.

(** C8. After any sequence of calls of [forward_kinematics] and [solve_ik]
    on the two objects of a program, a call returns what the same call
    returns before them; so two successive calls with the same argument
    return the same result.  The calls do leave a trace: each call of
    [solve_ik] builds a new generator object from the seed 42 and draws 144
    times from it, and no call draws from an object that another call
    built.  The battery of seeds is the same for every solver object: the 8
    configurations followed by 24 seeds of 6 angles, the angle [j] of the
    seed [i] being [- PI + (PI - - PI) * u] for the draw [u] number
    [6 * i + j] of the generator that the seed 42 builds.  The draws of
    [random_sample] being in [0, 1), these angles are in [- PI, PI), and
    strictly above [- PI] when no draw is 0. *)
Theorem two_runs_agree (w : world) (calls : list call) (c : call) :
  fst (run c (run_all calls w)) = fst (run c w) /\
  fst (run c (snd (run c w))) = fst (run c w) /\
  (forall T,
     IK.next RandomState
       (generators RandomState (snd (run (Call_solve_ik T) w))) =
       S (IK.next RandomState (generators RandomState w)) /\
     IK.cells RandomState
       (generators RandomState (snd (run (Call_solve_ik T) w)))
       (IK.next RandomState (generators RandomState w)) =
       advance RandomState random_sample 144 (RandomState_seed 42) /\
     forall a,
       a <> IK.next RandomState (generators RandomState w) ->
       IK.cells RandomState
         (generators RandomState (snd (run (Call_solve_ik T) w))) a =
       IK.cells RandomState (generators RandomState w) a) /\
  (forall s1 s2, _generate_seeds s1 = _generate_seeds s2) /\
  (forall s,
     _generate_seeds s =
     IK.configs ++
     map (fun i =>
            map (fun j =>
                   - PI + (PI - - PI) *
                          nth_sample RandomState random_sample (6 * i + j)
                            (RandomState_seed 42))
                (seq 0 6))
         (seq 0 24)) /\
  shape 8 6 IK.configs /\
  shape 24 6 (random_seeds 24 (RandomState_seed 42)) /\
  ((forall k, (k < 144)%nat ->
      0 <= nth_sample RandomState random_sample k (RandomState_seed 42) < 1) ->
   Forall (Forall (fun x => - PI <= x < PI))
          (random_seeds 24 (RandomState_seed 42))) /\
  ((forall k, (k < 144)%nat ->
      0 < nth_sample RandomState random_sample k (RandomState_seed 42) < 1) ->
   Forall (Forall (fun x => - PI < x < PI))
          (random_seeds 24 (RandomState_seed 42))).
Proof.
  split; [|split].
  - rewrite !run_result.
    destruct (run_all_objects RandomState RandomState_seed random_sample
                calls w) as [-> ->].
    reflexivity.
  - rewrite !run_result.
    destruct (run_all_objects RandomState RandomState_seed random_sample
                [c] w) as [Hf Hi].
    change (run_all [c] w) with (snd (run c w)) in Hf, Hi.
    rewrite Hf, Hi. reflexivity.
  - split; [|split; [reflexivity|]].
    { intros T. apply run_solve_ik_store. }
    split.
    { intros s. unfold IK._generate_seeds.
      now rewrite random_seeds_stream. }
    split; [split; [reflexivity | repeat constructor]|].
    split; [apply random_seeds_shape|].
    pose proof PI_RGT_0 as Hpi.
    split; intros H.
    + eapply Forall_impl;
        [|apply (random_seeds_range RandomState random_sample
                   (fun u => 0 <= u < 1) 24 _ H)].
      intros seed. apply Forall_impl. intros x (u & Hu & ->). nra.
    + eapply Forall_impl;
        [|apply (random_seeds_range RandomState random_sample
                   (fun u => 0 < u < 1) 24 _ H)].
      intros seed. apply Forall_impl. intros x (u & Hu & ->). nra.
Qed.

(** C9. Neither [forward_kinematics] nor [solve_ik] depends on the joint
    limits of the object, and [check_joint_limits], on no more angles than
    there are limits, returns [True] exactly when every angle lies within
    the limits of its joint; the limits of a new object are
    [(-2 * PI, 2 * PI)] for each of the six joints. *)
Theorem joint_limits_independence
    (limits : list (R * R)) (g : FK.self) (s : IK.self) (T : mat) (q : list R) :
  (length q <= length (FK.joint_limits g))%nat ->
  FK.forward_kinematics (FK.with_joint_limits limits g) q =
    FK.forward_kinematics g q /\
  solve_ik (IK.with_joint_limits limits s) T = solve_ik s T /\
  (exists b,
     FK.check_joint_limits g q = Ok b /\
     (b = true <->
      forall k angle lo hi,
        nth_error q k = Some angle ->
        nth_error (FK.joint_limits g) k = Some (lo, hi) ->
        lo <= angle <= hi)) /\
  FK.joint_limits FK.__init__ = repeat (-2 * PI, 2 * PI) 6.
Proof.
  intros Hlen. split; [reflexivity|]. split; [|split; [|reflexivity]].
  - unfold IK.solve_ik. apply solve_ik_loop_limits.
  - apply (check_joint_limits_from_spec g q O). exact Hlen.
Qed.

End SolverClaims.

(** ** The claims on a concrete generator *)

Section Witnesses.

Lemma shape_eye4 : shape 4 4 (eye 4).
Proof. split; [reflexivity | repeat constructor]. Qed.

Lemma joint_limits_independence_witness :
  (length home <= length (FK.joint_limits FK.__init__))%nat /\
  FK.forward_kinematics
    (FK.with_joint_limits [(0, 0)] FK.__init__) home =
    FK.forward_kinematics FK.__init__ home /\
  IK.solve_ik Z lcg_seed lcg_sample
    (IK.with_joint_limits [(0, 0)] IK.__init__) (eye 4) =
    IK.solve_ik Z lcg_seed lcg_sample IK.__init__ (eye 4) /\
  (exists b,
     FK.check_joint_limits FK.__init__ home = Ok b /\
     (b = true <->
      forall k angle lo hi,
        nth_error home k = Some angle ->
        nth_error (FK.joint_limits FK.__init__) k = Some (lo, hi) ->
        lo <= angle <= hi)) /\
  FK.joint_limits FK.__init__ = repeat (-2 * PI, 2 * PI) 6.
Proof.
  assert (H : (length home <= length (FK.joint_limits FK.__init__))%nat)
    by (cbn; lia).
  split; [exact H|].
  exact (joint_limits_independence Z lcg_seed lcg_sample [(0, 0)]
           FK.__init__ IK.__init__ (eye 4) home H).
Defined.

End Witnesses.

(** ** Rigid transforms *)

Section Rigid.

Lemma det3_matmul A B :
  shape 3 3 A -> shape 3 3 B -> det3 (matmul A B) = det3 A * det3 B.
Proof.
  intros HA HB. matrix_of_shape HA. matrix_of_shape HB.
  unfold det3. cbn. ring.
Qed.

Lemma det3_rotx a : det3 (block33 (FK._rotx a)) = 1.
Proof. pose proof (sin_cos_square a). unfold det3. cbn -[cos sin]. nra. Qed.

Lemma det3_roty a : det3 (block33 (FK._roty a)) = 1.
Proof. pose proof (sin_cos_square a). unfold det3. cbn -[cos sin]. nra. Qed.

Lemma det3_rotz a : det3 (block33 (FK._rotz a)) = 1.
Proof. pose proof (sin_cos_square a). unfold det3. cbn -[cos sin]. nra. Qed.

Lemma det3_joint_rotation axis q : det3 (block33 (joint_rotation axis q)) = 1.
Proof.
  unfold joint_rotation.
  destruct (String.eqb axis "z"); [apply det3_rotz|].
  destruct (String.eqb axis "y"); [apply det3_roty | apply det3_rotx].
Qed.

Lemma det3_create_transform xyz rpy :
  det3 (block33 (FK._create_transform xyz rpy)) = 1.
Proof.
  rewrite block33_create_transform.
  rewrite det3_matmul;
    [|apply shape_matmul33; [apply rotation3_rotz | apply rotation3_roty]
     |apply rotation3_rotx].
  rewrite det3_matmul; [|apply rotation3_rotz | apply rotation3_roty].
  rewrite det3_rotx, det3_roty, det3_rotz. ring.
Qed.

Lemma rigid_eye : rigid (eye 4).
Proof.
  split; [apply homogeneous_eye|]. split; [apply rotation3_eye|].
  unfold det3. cbn. ring.
Qed.

Lemma rigid_matmul A B : rigid A -> rigid B -> rigid (matmul A B).
Proof.
  intros (HA & RA & DA) (HB & RB & DB).
  split; [now apply homogeneous_matmul|].
  rewrite block33_matmul by (apply HA || assumption).
  split; [now apply rotation3_matmul|].
  rewrite det3_matmul, DA, DB by (apply RA || apply RB). ring.
Qed.

Lemma rigid_joint_transform xyz rpy q axis :
  rigid (FK.joint_transform xyz rpy q axis).
Proof.
  rewrite joint_transform_product. apply rigid_matmul.
  - split; [apply homogeneous_create_transform|].
    split; [apply rotation3_create_transform | apply det3_create_transform].
  - split; [apply homogeneous_joint_rotation|].
    split; [apply rotation3_joint_rotation | apply det3_joint_rotation].
Qed.

Lemma forward_kinematics_inv s q t :
  FK.forward_kinematics s q = Ok t ->
  exists q0 q1 q2 q3 q4 q5 rest,
    q = q0 :: q1 :: q2 :: q3 :: q4 :: q5 :: rest /\
    let Ts := joint_transforms s q in
    t = {| FK.base := eye 4;
           FK.shoulder := fold_left matmul (firstn 1 Ts) (eye 4);
           FK.upper_arm := fold_left matmul (firstn 2 Ts) (eye 4);
           FK.forearm := fold_left matmul (firstn 3 Ts) (eye 4);
           FK.wrist_1 := fold_left matmul (firstn 4 Ts) (eye 4);
           FK.wrist_2 := fold_left matmul (firstn 5 Ts) (eye 4);
           FK.wrist_3 := fold_left matmul Ts (eye 4) |}.
Proof.
  intros H. unfold FK.forward_kinematics in H.
  do 6 (destruct q as [|? q];
        [cbn [getitem nth_error bind] in H; discriminate H|]).
  cbn [getitem nth_error bind] in H.
  apply (f_equal (fun r => match r with Ok a => a | _ => t end)) in H.
  subst t. do 7 eexists. split; [reflexivity|].
  cbn [joint_transforms firstn fold_left]. reflexivity.
Qed.

Lemma rigid_fold Ts : forall P,
  rigid P -> Forall rigid Ts -> rigid (fold_left matmul Ts P).
Proof.
  induction Ts as [|T Ts IH]; intros P HP HTs; cbn [fold_left]; [assumption|].
  inversion HTs; subst. apply IH; [now apply rigid_matmul | assumption].
Qed.

Lemma Forall_prefix {A : Type} (P : A -> Prop) n : forall l,
  Forall P l -> Forall P (firstn n l).
Proof.
  induction n as [|n IH]; intros l H; [constructor|].
  destruct H; cbn [firstn]; constructor; auto.
Qed.

Lemma rigid_joint_transforms s q : Forall rigid (joint_transforms s q).
Proof.
  unfold joint_transforms.
  do 6 (destruct q as [|? q]; [constructor|]).
  repeat constructor; apply rigid_joint_transform.
Qed.

Lemma rigid_link s q k :
  rigid (fold_left matmul (firstn k (joint_transforms s q)) (eye 4)).
Proof.
  apply rigid_fold; [apply rigid_eye|].
  apply Forall_prefix, rigid_joint_transforms.
Qed.

Lemma link_shapes s q t :
  FK.forward_kinematics s q = Ok t ->
  Forall (fun link => shape 4 4 (snd link)) (FK.items t).
Proof.
  intros H.
  destruct (forward_kinematics_inv s q t H)
    as (q0 & q1 & q2 & q3 & q4 & q5 & rest & _ & ->).
  unfold FK.items.
  cbn [snd FK.base FK.shoulder FK.upper_arm FK.forearm FK.wrist_1 FK.wrist_2
       FK.wrist_3].
  repeat match goal with
         | |- Forall _ (_ :: _) => apply Forall_cons
         | |- Forall _ [] => apply Forall_nil
         end;
    cbn [snd];
    [ apply homogeneous_eye
    | apply (rigid_link s q) ..
    | rewrite <- (firstn_all (joint_transforms s q));
      apply (rigid_link s q) ].
Qed.

Lemma end_effector_rigid s q T :
  FK.get_end_effector_transform s q = Ok T -> rigid T.
Proof.
  unfold FK.get_end_effector_transform.
  destruct (FK.forward_kinematics s q) as [t| |] eqn:E; cbn [bind];
    try discriminate.
  intros H. apply (f_equal (fun r => match r with Ok a => a | _ => T end)) in H.
  subst T.
  destruct (forward_kinematics_inv s q t E)
    as (q0 & q1 & q2 & q3 & q4 & q5 & rest & _ & ->).
  cbn [FK.wrist_3].
  apply rigid_fold; [apply rigid_eye | apply rigid_joint_transforms].
Qed.

End Rigid.

(** ** Whole turns of a joint *)

Section Periodic.

Lemma cos_turns x (k : Z) : cos (x + 2 * PI * IZR k) = cos x.
Proof.
  destruct (Z_le_gt_dec 0 k) as [Hk|Hk].
  - rewrite <- (Z2Nat.id k Hk), <- INR_IZR_INZ.
    replace (x + 2 * PI * INR (Z.to_nat k)) with (x + 2 * INR (Z.to_nat k) * PI)
      by ring.
    apply cos_period.
  - rewrite <- (cos_period (x + 2 * PI * IZR k) (Z.to_nat (- k))).
    rewrite INR_IZR_INZ, Z2Nat.id, opp_IZR by lia. f_equal. ring.
Qed.

Lemma sin_turns x (k : Z) : sin (x + 2 * PI * IZR k) = sin x.
Proof.
  destruct (Z_le_gt_dec 0 k) as [Hk|Hk].
  - rewrite <- (Z2Nat.id k Hk), <- INR_IZR_INZ.
    replace (x + 2 * PI * INR (Z.to_nat k)) with (x + 2 * INR (Z.to_nat k) * PI)
      by ring.
    apply sin_period.
  - rewrite <- (sin_period (x + 2 * PI * IZR k) (Z.to_nat (- k))).
    rewrite INR_IZR_INZ, Z2Nat.id, opp_IZR by lia. f_equal. ring.
Qed.

Lemma joint_rotation_turns axis x (k : Z) :
  joint_rotation axis (x + 2 * PI * IZR k) = joint_rotation axis x.
Proof.
  unfold joint_rotation, FK._rotx, FK._roty, FK._rotz.
  now rewrite cos_turns, sin_turns.
Qed.

Lemma joint_transform_normalize xyz rpy x axis :
  FK.joint_transform xyz rpy (FK.normalize_angle x) axis =
  FK.joint_transform xyz rpy x axis.
Proof.
  rewrite !joint_transform_product.
  destruct (normalize_angle_shift x) as [k ->].
  now rewrite joint_rotation_turns.
Qed.

Lemma forward_kinematics_normalize s q :
  FK.forward_kinematics s (FK.normalize_joint_angles s q) =
  FK.forward_kinematics s q.
Proof.
  unfold FK.normalize_joint_angles, FK.forward_kinematics.
  do 6 (destruct q as [|? q]; [reflexivity|]).
  cbn [map getitem nth_error bind].
  now rewrite !joint_transform_normalize.
Qed.

Lemma end_effector_normalize s q :
  FK.get_end_effector_transform s (FK.normalize_joint_angles s q) =
  FK.get_end_effector_transform s q.
Proof.
  unfold FK.get_end_effector_transform.
  now rewrite forward_kinematics_normalize.
Qed.

End Periodic.

(** ** The loop of [check_joint_limits] *)

Section JointLimits.

Lemma check_joint_limits_from_prefix s ok : forall i tail,
  Forall2 in_limits ok (firstn (length ok) (skipn i (FK.joint_limits s))) ->
  FK.check_joint_limits_from s i (ok ++ tail) =
  FK.check_joint_limits_from s (i + length ok) tail.
Proof.
  induction ok as [|a ok IH]; intros i tail H; cbn [app length].
  - now rewrite Nat.add_0_r.
  - cbn [FK.check_joint_limits_from length firstn] in *.
    destruct (skipn i (FK.joint_limits s)) as [|[lo hi] ls] eqn:E;
      [inversion H|].
    assert (Ei : nth_error (FK.joint_limits s) i = Some (lo, hi)).
    { rewrite <- (Nat.add_0_r i), <- nth_error_skipn, E. reflexivity. }
    assert (Es : skipn (S i) (FK.joint_limits s) = ls).
    { change (S i) with (1 + i)%nat. rewrite <- skipn_skipn, E. reflexivity. }
    rewrite Ei. inversion H as [|? ? ? ? [Hlo Hhi] Hrest]; subst.
    cbn [fst snd] in Hlo, Hhi.
    rewrite (Rltb_false a lo) by lra.
    unfold Rgtb. destruct (Rgt_dec a hi) as [Hgt|_]; [lra|]. cbn [orb].
    rewrite IH by exact Hrest.
    f_equal. lia.
Qed.

End JointLimits.

(** ** Joint positions *)

Section Positions.

Lemma col3_matmul A B :
  homogeneous A -> homogeneous B ->
  col3 (matmul A B) = vadd (matvec (block33 A) (col3 B)) (col3 A).
Proof.
  intros [HA HAl] [HB HBl]. matrix_of_shape HA. matrix_of_shape HB.
  cbn in HAl, HBl. injection HAl as -> -> -> ->. injection HBl as -> -> -> ->.
  cbn. mat_eq ring.
Qed.

Lemma col3_joint_transform x y z rpy q axis :
  col3 (FK.joint_transform (x, y, z) rpy q axis) = [x; y; z].
Proof.
  destruct rpy as [[r p] yw].
  unfold FK.joint_transform.
  destruct (String.eqb axis "z"); [|destruct (String.eqb axis "y")];
    cbn -[cos sin]; mat_eq ring.
Qed.

Lemma matvec_rotation_dot A v :
  rotation3 A -> length v = 3%nat ->
  dot (matvec A v) (matvec A v) = dot v v.
Proof.
  intros (HA & _ & H) Hv.
  transitivity (dot v (matvec (matmul (transpose A) A) v)).
  - matrix_of_shape HA. list_of_length Hv. cbn. ring.
  - rewrite H. list_of_length Hv. cbn. ring.
Qed.

Lemma segment_length P x y z rpy q axis :
  rigid P ->
  norm (vsub (col3 (matmul P (FK.joint_transform (x, y, z) rpy q axis)))
             (col3 P)) = norm [x; y; z].
Proof.
  intros (HP & HR & _).
  rewrite col3_matmul, col3_joint_transform
    by (assumption || apply homogeneous_joint_transform).
  unfold norm. f_equal.
  rewrite <- (matvec_rotation_dot (block33 P) [x; y; z] HR eq_refl).
  destruct HP as [HP _]. matrix_of_shape HP. cbn. ring.
Qed.

End Positions.

(** ** A seed at its own pose *)

Section RoundTrip.

Lemma norm_fro_msub_diag (M : mat) : norm_fro (msub M M) = 0.
Proof.
  unfold norm_fro, msub.
  replace (fold_right _ 0 _) with 0; [apply sqrt_0|].
  induction M as [|r M IH]; cbn [combine map fold_right fst snd];
    [reflexivity|].
  rewrite <- IH, vsub_diag, dot_zeros_l. ring.
Qed.

Lemma verify_self (s : IK.self) q T pos_tol rot_tol :
  FK.get_end_effector_transform (IK.fk s) q = Ok T ->
  0 < pos_tol -> 0 < rot_tol ->
  IK._verify s q T pos_tol rot_tol = true.
Proof.
  intros HT Hp Hr. apply verify_iff. exists T. split; [assumption|].
  now rewrite vsub_diag, norm_zeros, norm_fro_msub_diag.
Qed.

Lemma pose_error_self (s : IK.self) q T :
  FK.get_end_effector_transform (IK.fk s) q = Ok T ->
  0 < IK.epsilon s ->
  IK.pose_error s T q = Ok (zeros 3, zeros 3).
Proof.
  intros HT He. unfold IK.pose_error. rewrite HT. cbn [bind].
  destruct (end_effector_rigid _ _ _ HT) as (HH & (_ & HR & _) & _).
  rewrite HR, orientation_error_guard
    by (rewrite rotation_angle_eye3; exact He).
  cbn [bind]. rewrite vsub_diag, length_col3; [reflexivity|].
  destruct HH as [[-> _] _]. lia.
Qed.

Lemma converged_at_zero (s : IK.self) :
  0 < IK.tol s -> IK.converged s (zeros 3) (zeros 3) = true.
Proof.
  intros Ht. apply converged_iff. rewrite norm_zeros. lra.
Qed.

Lemma solve_single_self (s : IK.self) q T :
  FK.get_end_effector_transform (IK.fk s) q = Ok T ->
  0 < IK.epsilon s -> 0 < IK.tol s -> (0 < IK.max_iter s)%nat ->
  IK._solve_single s T q = Ok (Some q).
Proof.
  intros HT He Ht Hn. unfold IK._solve_single.
  destruct (IK.max_iter s) as [|n]; [lia|].
  rewrite (solve_loop_converged s T _ n q _ _
             (pose_error_self s q T HT He) (converged_at_zero s Ht)).
  rewrite verify_self by (assumption || lra). reflexivity.
Qed.

Lemma verify_normalize (s : IK.self) q T pos_tol rot_tol :
  IK._verify s (FK.normalize_joint_angles (IK.fk s) q) T pos_tol rot_tol =
  IK._verify s q T pos_tol rot_tol.
Proof. unfold IK._verify. now rewrite end_effector_normalize. Qed.

Lemma successes_in results q :
  In q (successes results) <-> In (Some q) results.
Proof.
  induction results as [|[r|] results IH]; cbn [successes In].
  - reflexivity.
  - rewrite IH. split; (intros [H|H]; [left; congruence | now right]).
  - rewrite IH. split; [now right | intros [H|H]; [discriminate | exact H]].
Qed.

Lemma Subseq_in {A : Type} (l1 l2 : list A) x :
  Subseq l1 l2 -> In x l1 -> In x l2.
Proof.
  induction 1 as [|a l1 l2 _ IH|a l1 l2 _ IH]; cbn [In]; intuition.
Qed.

Lemma within_refl a : within a a.
Proof.
  intros k x y Hx Hy. rewrite Hx in Hy. injection Hy as <-.
  unfold Rminus. rewrite Rplus_opp_r, Rabs_R0. lra.
Qed.

Lemma collect_covers (s : IK.self) solutions q :
  Forall normalized solutions ->
  exists e, In e (IK.collect s solutions (Some q)) /\
            within (FK.normalize_joint_angles (IK.fk s) q) e.
Proof.
  intros Hn. cbn [IK.collect].
  destruct (IK.is_new _ _ _) eqn:E.
  - eexists. split; [apply in_or_app; right; now left | apply within_refl].
  - apply is_new_false in E. destruct E as (e & Hin & Hw).
    exists e. split; [assumption|].
    rewrite Forall_forall in Hn.
    now rewrite (normalize_fixed s e (Hn e Hin)) in Hw.
Qed.

Lemma fold_collect_covers (s : IK.self) results : forall solutions q,
  distinct solutions -> In (Some q) results ->
  exists e, In e (fold_left (IK.collect s) results solutions) /\
            within (FK.normalize_joint_angles (IK.fk s) q) e.
Proof.
  induction results as [|r results IH]; intros sols q Hd []; subst;
    cbn [fold_left].
  - destruct (collect_covers s sols q (proj1 Hd)) as (e & Hin & Hw).
    exists e. split; [|assumption].
    destruct (fold_collect_subseq s results (IK.collect s sols (Some q)))
      as (kept & -> & _).
    apply in_or_app. now left.
  - apply IH; [apply collect_distinct|]; assumption.
Qed.

End RoundTrip.

(** ** A turn of the base joint *)

Section BaseJoint.

Lemma end_effector_inv s q T :
  FK.get_end_effector_transform s q = Ok T ->
  (6 <= length q)%nat /\
  T = fold_left matmul (joint_transforms s q) (eye 4) /\
  block33 T = fold_left matmul (map block33 (joint_transforms s q)) (eye 3).
Proof.
  unfold FK.get_end_effector_transform.
  destruct (FK.forward_kinematics s q) as [t| |] eqn:E; cbn [bind];
    try discriminate.
  intros H. apply (f_equal (fun r => match r with Ok a => a | _ => T end)) in H.
  subst T.
  destruct (forward_kinematics_inv s q t E)
    as (q0 & q1 & q2 & q3 & q4 & q5 & rest & Hq & ->).
  cbn [FK.wrist_3]. split; [subst q; cbn [length]; lia|].
  split; [reflexivity|].
  rewrite block33_fold;
    [reflexivity | apply homogeneous_eye | apply homogeneous_joint_transforms].
Qed.

Lemma rotz_error a theta :
  matmul (block33 (FK._rotz (a + theta))) (transpose (block33 (FK._rotz a))) =
  block33 (FK._rotz theta).
Proof.
  assert (Hc : cos theta * (sin a * sin a + cos a * cos a) = cos theta)
    by (rewrite sin_cos_square; ring).
  assert (Hs : sin theta * (sin a * sin a + cos a * cos a) = sin theta)
    by (rewrite sin_cos_square; ring).
  cbn -[cos sin]. rewrite cos_plus, sin_plus.
  mat_eq lra.
Qed.

Lemma block33_base_joint d q :
  block33 (FK.joint_transform (0, 0, d) (0, 0, 0) q "z") =
  block33 (FK._rotz q).
Proof.
  cbn -[cos sin]. rewrite cos_0, sin_0. mat_eq ring.
Qed.

Lemma rotation_angle_rotz theta :
  Rabs theta <= PI -> IK.rotation_angle (block33 (FK._rotz theta)) = Rabs theta.
Proof.
  intros H. apply rotation_angle_of_trace.
  - unfold Rabs. destruct (Rcase_abs theta); [rewrite cos_neg|];
      cbn -[cos sin]; ring.
  - split; [apply Rabs_pos | assumption].
Qed.

Lemma sin_abs_pos theta : theta <> 0 -> Rabs theta < PI -> 0 < sin (Rabs theta).
Proof.
  intros H0 H. apply sin_gt_0; [|assumption]. now apply Rabs_pos_lt.
Qed.

Lemma abs_over_sin theta :
  theta <> 0 -> Rabs theta < PI ->
  Rabs theta / (2 * sin (Rabs theta)) * (sin theta - - sin theta) = theta.
Proof.
  intros H0 H. pose proof (sin_abs_pos theta H0 H) as Hs. revert Hs.
  unfold Rabs. destruct (Rcase_abs theta); [rewrite sin_neg|];
    intros Hs; field; lra.
Qed.

Lemma orientation_error_rotz s theta :
  theta <> 0 -> IK.epsilon s <= Rabs theta -> Rabs theta < PI ->
  IK.orientation_error s (block33 (FK._rotz theta)) = Ok [0; 0; theta].
Proof.
  intros H0 He Hpi. unfold IK.orientation_error.
  pose proof (sin_abs_pos theta H0 Hpi) as Hs.
  rewrite rotation_angle_rotz, Rltb_false, sin_angle_below, fdiv_ok by lra.
  cbn [bind]. f_equal.
  pose proof (abs_over_sin theta H0 Hpi) as Hc.
  unfold IK.skew_part, get, FK._rotz, block33, scale.
  cbn [firstn map nth].
  mat_eq (try ring; exact Hc).
Qed.

Lemma angular_velocity_rotz delta :
  1e-10 <= delta -> delta < PI ->
  IK.angular_velocity (block33 (FK._rotz delta)) delta = Ok [0; 0; 1].
Proof.
  intros Hlo Hhi. unfold IK.angular_velocity.
  assert (Habs : Rabs delta = delta) by (apply Rabs_pos_eq; lra).
  assert (Hs : 0 < sin delta) by (apply sin_gt_0; lra).
  rewrite rotation_angle_rotz, Habs, Rltb_false, sin_angle_below, fdiv_ok
    by (nra || lra).
  cbn [bind]. f_equal.
  unfold IK.skew_part, get, FK._rotz, block33, scale.
  cbn [firstn map nth].
  mat_eq (field; lra).
Qed.

Lemma base_turn_error s q0 theta rest T T0 :
  FK.get_end_effector_transform s (q0 + theta :: rest) = Ok T ->
  FK.get_end_effector_transform s (q0 :: rest) = Ok T0 ->
  matmul (block33 T) (transpose (block33 T0)) = block33 (FK._rotz theta).
Proof.
  intros HT HT0.
  apply end_effector_inv in HT. destruct HT as (Hl & _ & ->).
  apply end_effector_inv in HT0. destruct HT0 as (_ & _ & ->).
  cbn [length] in Hl.
  do 5 (destruct rest as [|? rest]; [cbn [length] in Hl; lia|]).
  cbn [joint_transforms map].
  rewrite !block33_base_joint.
  match goal with
  | |- matmul (fold_left matmul (?b' :: ?rs) ?P)
         (transpose (fold_left matmul (?b :: ?rs) ?P)) = ?rhs =>
    change (matmul (fold_left matmul rs (matmul P b'))
              (transpose (fold_left matmul rs (matmul P b))) = rhs);
    rewrite (fold_cancel rs)
  end.
  - rewrite !matmul_eye_l33 by apply rotation3_rotz. apply rotz_error.
  - apply shape_matmul33; [apply rotation3_eye | apply rotation3_rotz].
  - apply shape_matmul33; [apply rotation3_eye | apply rotation3_rotz].
  - repeat constructor; apply rotation3_joint_transform.
Qed.

End BaseJoint.

(** ** The columns of the Jacobian *)

Section JacobianColumns.

Lemma nth_set_nth_other i j x r :
  i <> j -> nth j (set_nth i x r) 0 = nth j r 0.
Proof.
  revert i j. induction r as [|h r IH]; intros [|i] [|j] H; cbn [set_nth nth];
    try reflexivity; try lia.
  apply IH. lia.
Qed.

Lemma column_assign_col_other (M : mat) i j : forall r0 v,
  i <> j -> column j (assign_col M r0 i v) = column j M.
Proof.
  unfold column.
  induction M as [|row M IH]; intros r0 v H; cbn [assign_col map];
    [reflexivity|].
  destruct r0 as [|r0]; [destruct v as [|x v]|]; cbn [map];
    rewrite ?IH, ?nth_set_nth_other by assumption; reflexivity.
Qed.

Lemma column_assign_col_angular (M : mat) j w :
  shape 6 6 M -> (j < 6)%nat -> length w = 3%nat ->
  skipn 3 (column j (assign_col M 3 j w)) = w.
Proof.
  intros HM Hj Hw. matrix_of_shape HM. list_of_length Hw.
  destruct j as [|[|[|[|[|[|j]]]]]]; [..|lia]; reflexivity.
Qed.

Lemma end_effector_total s q :
  (6 <= length q)%nat -> exists T, FK.get_end_effector_transform s q = Ok T.
Proof.
  intros H. unfold FK.get_end_effector_transform, FK.forward_kinematics.
  do 6 (destruct q as [|? q]; [cbn [length] in H; lia|]).
  cbn [getitem nth_error bind]. eexists. reflexivity.
Qed.

Lemma col3_cons T :
  rigid T -> exists a b c, col3 T = [a; b; c].
Proof.
  intros ([HT _] & _). matrix_of_shape HT. cbn. eauto.
Qed.

Lemma jacobian_column_keeps s q delta T0 J i :
  1e-10 <= delta -> delta < PI -> length q = 6%nat -> (i < 6)%nat ->
  FK.get_end_effector_transform (IK.fk s) q = Ok T0 ->
  shape 6 6 J ->
  exists J',
    IK.jacobian_column s q delta (col3 T0) (block33 T0) J i = Ok J' /\
    shape 6 6 J' /\
    forall j, i <> j -> column j J' = column j J.
Proof.
  intros Hlo Hhi Hq Hi HT0 HJ. unfold IK.jacobian_column.
  destruct (perturbed_trace (IK.fk s) q delta i Hq Hi)
    as (q_plus & Tp & T0' & Hadd & _ & HTp & HT0' & Htr).
  rewrite HT0 in HT0'. injection HT0' as <-.
  rewrite Hadd. cbn [bind]. rewrite HTp. cbn [bind].
  rewrite vdiv_ok by lra. cbn [bind].
  destruct (angular_velocity_ok
              (matmul (block33 Tp) (transpose (block33 T0))) delta)
    as (w & -> & _); try assumption.
  { apply rotation_angle_of_trace; [assumption | lra]. }
  cbn [bind]. eexists. split; [reflexivity|].
  split; [now do 2 apply shape_assign_col|].
  intros j Hj. now rewrite !column_assign_col_other.
Qed.

Lemma jacobian_base_column s q delta T0 J :
  1e-10 <= delta -> delta < PI -> length q = 6%nat ->
  FK.get_end_effector_transform (IK.fk s) q = Ok T0 ->
  shape 6 6 J ->
  exists J',
    IK.jacobian_column s q delta (col3 T0) (block33 T0) J 0 = Ok J' /\
    shape 6 6 J' /\
    skipn 3 (column 0 J') = [0; 0; 1].
Proof.
  intros Hlo Hhi Hq HT0 HJ. unfold IK.jacobian_column.
  destruct q as [|q0 rest]; [discriminate Hq|]. cbn [IK.add_at bind].
  destruct (end_effector_total (IK.fk s) (q0 + delta :: rest)) as [Tp HTp];
    [cbn [length] in *; lia|].
  rewrite HTp. cbn [bind]. rewrite vdiv_ok by lra. cbn [bind].
  rewrite (base_turn_error _ _ _ _ _ _ HTp HT0).
  rewrite angular_velocity_rotz by assumption. cbn [bind].
  eexists. split; [reflexivity|].
  split; [now do 2 apply shape_assign_col|].
  apply column_assign_col_angular; [now apply shape_assign_col | lia |].
  reflexivity.
Qed.

Lemma jacobian_columns_keep s q delta T0 cols :
  1e-10 <= delta -> delta < PI -> length q = 6%nat ->
  FK.get_end_effector_transform (IK.fk s) q = Ok T0 ->
  Forall (fun i => (i < 6)%nat) cols ->
  forall J, shape 6 6 J ->
  exists J',
    IK.foldM (IK.jacobian_column s q delta (col3 T0) (block33 T0)) cols J =
      Ok J' /\
    shape 6 6 J' /\
    forall j, ~ In j cols -> column j J' = column j J.
Proof.
  intros Hlo Hhi Hq HT0.
  induction 1 as [|i cols Hi _ IH]; intros J HJ; cbn [IK.foldM].
  - exists J. auto.
  - destruct (jacobian_column_keeps s q delta T0 J i)
      as (J1 & -> & HJ1 & Hk); try assumption.
    cbn [bind]. destruct (IH J1 HJ1) as (J' & -> & HJ' & Hk').
    exists J'. split; [reflexivity|]. split; [assumption|].
    intros j Hj. cbn [In] in Hj.
    rewrite Hk', Hk by tauto. reflexivity.
Qed.

End JacobianColumns.

(** ** Proper rotations and the axis-angle vector *)

Section Special.

Lemma rotation3_transpose A : rotation3 A -> rotation3 (transpose A).
Proof.
  intros (HA & H1 & H2). pose proof (shape_transpose33 A HA) as Ht.
  assert (E : transpose (transpose A) = A) by (matrix_of_shape HA; reflexivity).
  split; [assumption|]. rewrite E. split; assumption.
Qed.

Lemma det3_transpose A : shape 3 3 A -> det3 (transpose A) = det3 A.
Proof. intros HA. matrix_of_shape HA. unfold det3. cbn. ring. Qed.

Lemma special_block T : rigid T -> special (block33 T).
Proof. intros (_ & HR & HD). now split. Qed.

Lemma special_error A B :
  special A -> special B -> special (matmul A (transpose B)).
Proof.
  intros [HA DA] [HB DB]. pose proof (rotation3_transpose B HB) as HBt.
  split; [now apply rotation3_matmul|].
  rewrite det3_matmul, det3_transpose, DA, DB
    by (apply HA || apply HB || apply HBt).
  ring.
Qed.

Lemma skew_norm_special M :
  special M ->
  dot (IK.skew_part M) (IK.skew_part M) = (3 - trace M) * (1 + trace M).
Proof.
  intros [(HM & H1 & H2) Hd]. matrix_of_shape HM.
  unfold det3, get in Hd. cbn in Hd.
  cbn in H1, H2.
  injection H1 as E11 E12 E13 E21 E22 E23 E31 E32 E33.
  injection H2 as F11 F12 F13 F21 F22 F23 F31 F32 F33.
  unfold IK.skew_part, get, trace. cbn.
  nsatz.
Qed.

Lemma trace_special M : special M -> -1 <= trace M <= 3.
Proof.
  intros H. pose proof (skew_norm_special M H) as E.
  pose proof (dot_self_nonneg (IK.skew_part M)) as Hn.
  rewrite E in Hn. clear E.
  destruct H as [(HM & H1 & _) _]. matrix_of_shape HM.
  cbn in H1. injection H1 as E11 E12 E13 E21 E22 E23 E31 E32 E33.
  unfold trace in *. cbn in *. nra.
Qed.

Lemma trace_rotation_angle M :
  special M -> trace M = 1 + 2 * cos (IK.rotation_angle M).
Proof.
  intros H. pose proof (trace_special M H) as Ht.
  unfold IK.rotation_angle. rewrite clip_inside by lra.
  rewrite cos_acos by lra. field.
Qed.

Lemma skew_norm_angle M :
  special M -> norm (IK.skew_part M) = 2 * sin (IK.rotation_angle M).
Proof.
  intros H. unfold norm. rewrite (skew_norm_special M H).
  rewrite (trace_rotation_angle M H).
  pose proof (rotation_angle_bounds M) as Hb.
  set (a := IK.rotation_angle M) in *.
  assert (Hs : 0 <= sin a) by (apply sin_ge_0; lra).
  replace ((3 - (1 + 2 * cos a)) * (1 + (1 + 2 * cos a)))
    with (Rsqr (2 * sin a)).
  - apply sqrt_Rsqr. lra.
  - pose proof (sin_cos_square a). unfold Rsqr. nra.
Qed.

Lemma norm_scale c v : norm (scale c v) = Rabs c * norm v.
Proof.
  unfold norm. rewrite dot_scale_l, dot_scale_r.
  replace (c * (c * dot v v)) with (Rsqr c * dot v v) by (unfold Rsqr; ring).
  rewrite sqrt_mult by (apply Rle_0_sqr || apply dot_self_nonneg).
  now rewrite sqrt_Rsqr_abs.
Qed.

Lemma orientation_error_norm s M :
  special M -> 0 < IK.epsilon s -> IK.rotation_angle M < PI ->
  exists dw,
    IK.orientation_error s M = Ok dw /\
    norm dw =
    if Rlt_dec (IK.rotation_angle M) (IK.epsilon s) then 0
    else IK.rotation_angle M.
Proof.
  intros H He Hpi. unfold IK.orientation_error, Rltb.
  pose proof (rotation_angle_bounds M) as Hb.
  pose proof (skew_norm_angle M H) as Hn.
  set (a := IK.rotation_angle M) in *.
  destruct (Rlt_dec a (IK.epsilon s)) as [Hlt|Hge].
  - eexists. split; [reflexivity | apply norm_zeros].
  - assert (Hs : 0 < sin a) by (apply sin_gt_0; lra).
    rewrite sin_angle_below, fdiv_ok by lra. cbn [bind].
    eexists. split; [reflexivity|].
    rewrite norm_scale, Hn, Rabs_pos_eq.
    + field. lra.
    + apply Rlt_le, Rdiv_lt_0_compat; lra.
Qed.

Lemma angular_velocity_unit dR delta :
  special dR -> IK.rotation_angle dR = delta ->
  1e-10 <= delta -> delta < PI ->
  exists w,
    IK.angular_velocity dR delta = Ok w /\ length w = 3%nat /\ norm w = 1.
Proof.
  intros H Ha Hlo Hhi. unfold IK.angular_velocity.
  pose proof (skew_norm_angle dR H) as Hn.
  rewrite Ha in *. rewrite Rltb_false by lra.
  assert (Hs : 0 < sin delta) by (apply sin_gt_0; lra).
  rewrite sin_angle_below by assumption.
  rewrite fdiv_ok by nra. cbn [bind].
  eexists. split; [reflexivity|]. split; [reflexivity|].
  rewrite norm_scale, Hn, Rabs_pos_eq.
  - field. lra.
  - apply Rlt_le, Rdiv_lt_0_compat; nra.
Qed.

End Special.

Section UnitAxes.

Lemma jacobian_column_unit s q delta T0 J i :
  1e-10 <= delta -> delta < PI -> length q = 6%nat -> (i < 6)%nat ->
  FK.get_end_effector_transform (IK.fk s) q = Ok T0 ->
  shape 6 6 J ->
  exists J',
    IK.jacobian_column s q delta (col3 T0) (block33 T0) J i = Ok J' /\
    shape 6 6 J' /\
    (forall j, i <> j -> column j J' = column j J) /\
    norm (skipn 3 (column i J')) = 1.
Proof.
  intros Hlo Hhi Hq Hi HT0 HJ. unfold IK.jacobian_column.
  destruct (perturbed_trace (IK.fk s) q delta i Hq Hi)
    as (q_plus & Tp & T0' & Hadd & _ & HTp & HT0' & Htr).
  rewrite HT0 in HT0'. injection HT0' as <-.
  rewrite Hadd. cbn [bind]. rewrite HTp. cbn [bind].
  rewrite vdiv_ok by lra. cbn [bind].
  destruct (angular_velocity_unit
              (matmul (block33 Tp) (transpose (block33 T0))) delta)
    as (w & -> & Hw & Hn); try assumption.
  { apply special_error; apply special_block;
      eapply end_effector_rigid; eassumption. }
  { apply rotation_angle_of_trace; [assumption | lra]. }
  cbn [bind]. eexists. split; [reflexivity|].
  split; [now do 2 apply shape_assign_col|].
  split; [intros j Hj; now rewrite !column_assign_col_other|].
  rewrite column_assign_col_angular;
    [assumption | now apply shape_assign_col | assumption | assumption].
Qed.

Lemma jacobian_columns_unit s q delta T0 cols :
  1e-10 <= delta -> delta < PI -> length q = 6%nat ->
  FK.get_end_effector_transform (IK.fk s) q = Ok T0 ->
  NoDup cols -> Forall (fun i => (i < 6)%nat) cols ->
  forall J, shape 6 6 J ->
  exists J',
    IK.foldM (IK.jacobian_column s q delta (col3 T0) (block33 T0)) cols J =
      Ok J' /\
    shape 6 6 J' /\
    (forall j, ~ In j cols -> column j J' = column j J) /\
    (forall j, In j cols -> norm (skipn 3 (column j J')) = 1).
Proof.
  intros Hlo Hhi Hq HT0 Hnd.
  induction Hnd as [|i cols Hi Hnd IH]; intros Hlt J HJ; cbn [IK.foldM].
  - exists J. split; [reflexivity|]. split; [assumption|].
    split; [reflexivity | intros j []].
  - inversion Hlt as [|? ? Hi6 Hlt']; subst.
    destruct (jacobian_column_unit s q delta T0 J i)
      as (J1 & -> & HJ1 & Hk & Hu); try assumption.
    cbn [bind]. destruct (IH Hlt' J1 HJ1) as (J' & -> & HJ' & Hk' & Hu').
    exists J'. split; [reflexivity|]. split; [assumption|]. split.
    + intros j Hj. cbn [In] in Hj. rewrite Hk', Hk by tauto. reflexivity.
    + intros j [<-|Hj]; [rewrite Hk' by assumption; exact Hu | now apply Hu'].
Qed.

End UnitAxes.

Section Frobenius.

Lemma fro_rotations A B :
  rotation3 A -> rotation3 B ->
  fold_right (fun r acc => dot r r + acc) 0 (msub A B) =
  6 - 2 * trace (matmul B (transpose A)).
Proof.
  intros (HA & HA1 & _) (HB & HB1 & _).
  matrix_of_shape HA. matrix_of_shape HB.
  cbn in HA1, HB1.
  injection HA1 as E11 E12 E13 E21 E22 E23 E31 E32 E33.
  injection HB1 as F11 F12 F13 F21 F22 F23 F31 F32 F33.
  unfold trace. cbn. lra.
Qed.

Lemma sqrt_lt_square x r : 0 <= x -> sqrt x < r -> x < r * r.
Proof.
  intros Hx Hr. pose proof (sqrt_pos x) as Hs.
  rewrite <- (sqrt_sqrt x Hx). nra.
Qed.

End Frobenius.

(** ** The damped step *)

Section DampedStep.

Lemma damped_normal_identity J d y :
  shape 6 6 J -> length y = 6%nat ->
  matvec (madd (matmul (transpose J) J) (mscale (d ^ 2) (eye 6)))
         (matvec (transpose J) y) =
  matvec (transpose J) (matvec (IK.damped_matrix J d) y).
Proof.
  intros HJ Hy. matrix_of_shape HJ. list_of_length Hy.
  unfold IK.damped_matrix. cbn -[pow]. mat_eq ring.
Qed.

Lemma matvec_transpose_comb J y :
  shape 6 6 J -> length y = 6%nat -> matvec (transpose J) y = comb 6 y J.
Proof.
  intros HJ Hy. matrix_of_shape HJ. list_of_length Hy.
  cbn. mat_eq ring.
Qed.

Lemma dot_completed_square (e y : vec) c :
  length e = 6%nat -> length y = 6%nat ->
  0 <= dot e e - 2 * c * dot y e + c * c * dot y y.
Proof.
  intros He Hy.
  replace (dot e e - 2 * c * dot y e + c * c * dot y y)
    with (dot (vsub e (scale c y)) (vsub e (scale c y))).
  - apply dot_self_nonneg.
  - list_of_length He. list_of_length Hy. cbn. ring.
Qed.

Lemma damped_step_solution J d error :
  shape 6 6 J -> d <> 0 -> length error = 6%nat ->
  exists y,
    length y = 6%nat /\
    matvec (IK.damped_matrix J d) y = error /\
    IK.damped_step J d error = Ok (matvec (transpose J) y) /\
    (error = zeros 6 -> y = zeros 6).
Proof.
  intros HJ Hd He.
  destruct (linalg_solve_regular 6 (IK.damped_matrix J d) error)
    as (y & Hy & Hl & Hsol & Huniq).
  - now apply shape_damped.
  - assumption.
  - intros x Hx. now apply damped_kernel.
  - exists y. unfold IK.damped_step. rewrite Hy. cbn [bind].
    repeat split; try assumption.
    intros ->. symmetry. apply Huniq; [reflexivity|].
    pose proof (shape_damped J d HJ) as HD. matrix_of_shape HD.
    cbn. mat_eq ring.
Qed.

Lemma damped_step_square_bound J d error y :
  shape 6 6 J -> d <> 0 -> length error = 6%nat -> length y = 6%nat ->
  matvec (IK.damped_matrix J d) y = error ->
  dot (matvec (transpose J) y) (matvec (transpose J) y) <=
  dot error error / (4 * d ^ 2).
Proof.
  intros HJ Hd He Hy Hsol.
  pose proof (damped_quadratic J d y HJ Hy) as Hq.
  rewrite Hsol in Hq.
  rewrite matvec_transpose_comb by assumption.
  pose proof (dot_completed_square error y (2 * d ^ 2) He Hy) as Hsq.
  assert (Hd2 : 0 < d ^ 2) by (simpl; nra).
  apply Rmult_le_reg_r with (4 * d ^ 2); [lra|].
  unfold Rdiv. rewrite Rmult_assoc, Rinv_l, Rmult_1_r by lra.
  set (c := dot (comb 6 y J) (comb 6 y J)) in *.
  set (ye := dot y error) in *. set (ee := dot error error) in *.
  set (yy := dot y y) in *. set (D := d ^ 2) in *.
  nra.
Qed.

Lemma sqrt_quarter a d :
  0 <= a -> d <> 0 -> sqrt (a / (4 * d ^ 2)) = sqrt a / (2 * Rabs d).
Proof.
  intros Ha Hd.
  assert (Hd2 : 0 < d ^ 2) by (simpl; nra).
  rewrite sqrt_div_alt by lra. f_equal.
  replace (4 * d ^ 2) with (Rsqr (2 * Rabs d)).
  - apply sqrt_Rsqr. pose proof (Rabs_pos d). lra.
  - unfold Rsqr. replace (d ^ 2) with (Rsqr d) by (unfold Rsqr; ring).
    rewrite (Rsqr_abs d). unfold Rsqr. ring.
Qed.

End DampedStep.

(** ** Meshes *)

Section Meshes.

Variable Trimesh : Type.
Variable copy : Trimesh -> Trimesh.
Variable apply_transform : mat -> Trimesh -> Trimesh.

Lemma matmul_eye_r44 A : shape 4 4 A -> matmul A (eye 4) = A.
Proof. intros HA. matrix_of_shape HA. cbn. mat_eq ring. Qed.

Lemma apply_transform_to_mesh_offsets loaded mesh T name :
  shape 4 4 T ->
  Loader.apply_transform_to_mesh Trimesh copy apply_transform
    (Loader.with_meshes Trimesh loaded (Loader.__init__ Trimesh)) mesh T name =
  apply_transform T (copy mesh).
Proof.
  intros HT. unfold Loader.apply_transform_to_mesh.
  cbn [Loader.mesh_offsets Loader.with_meshes Loader.__init__].
  destruct (dict_get String.eqb _ name) as [offset|] eqn:E; [|reflexivity].
  assert (offset = eye 4) as ->; [|now rewrite matmul_eye_r44].
  revert E. cbn [dict_get].
  repeat match goal with
         | |- (if ?b then _ else _) = _ -> _ => destruct b
         end; congruence.
Qed.

End Meshes.

(** ** Further properties of the forward kinematics *)

Section ForwardKinematicsProperties.

(** X1. [forward_kinematics] reads the first six joint angles and nothing
    else: on fewer than six angles it raises [IndexError], and so do
    [get_joint_positions] and [get_end_effector_transform]; on six or more
    it returns, and the angles after the sixth have no effect. *)
Theorem forward_kinematics_needs_six_angles (s : FK.self) (q : list R) :
  ((length q < 6)%nat /\
   FK.forward_kinematics s q = Raised IndexError /\
   FK.get_joint_positions s q = Raised IndexError /\
   FK.get_end_effector_transform s q = Raised IndexError) \/
  ((6 <= length q)%nat /\
   exists t, FK.forward_kinematics s q = Ok t /\
             FK.forward_kinematics s (firstn 6 q) = Ok t).
Proof.
  unfold FK.get_joint_positions, FK.get_end_effector_transform,
    FK.forward_kinematics.
  do 6 (destruct q as [|? q];
        [left; cbn [length getitem nth_error bind];
         split; [lia | repeat split] |]).
  right. cbn [length firstn getitem nth_error bind].
  split; [lia|]. eexists. split; reflexivity.
Qed.

(** X2. Every link pose that [forward_kinematics] returns is a rigid
    transform, for any geometry and any angles: a 4x4 array whose last row
    is [0, 0, 0, 1] and whose rotation block [R] satisfies [R R^T = I],
    [R^T R = I] and [det R = 1]. *)
Theorem link_poses_are_rigid
    (s : FK.self) (q : list R) (t : FK.link_transforms) :
  FK.forward_kinematics s q = Ok t ->
  Forall (fun link => rigid (snd link)) (FK.items t).
Proof.
  intros H.
  destruct (forward_kinematics_inv s q t H)
    as (q0 & q1 & q2 & q3 & q4 & q5 & rest & _ & ->).
  unfold FK.items.
  cbn [snd FK.base FK.shoulder FK.upper_arm FK.forearm FK.wrist_1 FK.wrist_2
       FK.wrist_3].
  repeat match goal with
         | |- Forall _ (_ :: _) => apply Forall_cons
         | |- Forall _ [] => apply Forall_nil
         end;
    cbn [snd];
    [ apply rigid_eye
    | apply (rigid_link s q) ..
    | apply rigid_fold; [apply rigid_eye | apply rigid_joint_transforms] ].
Qed.

Lemma link_poses_are_rigid_witness :
  FK.forward_kinematics FK.__init__ home = Ok home_transforms /\
  Forall (fun link => rigid (snd link)) (FK.items home_transforms).
Proof.
  split; [exact forward_kinematics_home|].
  exact (link_poses_are_rigid FK.__init__ home home_transforms
           forward_kinematics_home).
Defined.

(** X3. A joint does not move the links before it: the pose of the link of
    index [k] (the base has index 0, [wrist_3] index 6) is the same for two
    angle vectors that agree on their first [k] angles. *)
Theorem link_pose_ignores_later_joints
    (s : FK.self) (q q' : list R) (t t' : FK.link_transforms) (k : nat) :
  FK.forward_kinematics s q = Ok t ->
  FK.forward_kinematics s q' = Ok t' ->
  firstn k q = firstn k q' ->
  nth_error (FK.items t) k = nth_error (FK.items t') k.
Proof.
  intros Ht Ht' Hk.
  destruct (forward_kinematics_inv s q t Ht)
    as (a0 & a1 & a2 & a3 & a4 & a5 & ra & -> & ->).
  destruct (forward_kinematics_inv s q' t' Ht')
    as (b0 & b1 & b2 & b3 & b4 & b5 & rb & -> & ->).
  unfold FK.items.
  cbn [FK.base FK.shoulder FK.upper_arm FK.forearm FK.wrist_1 FK.wrist_2
       FK.wrist_3 joint_transforms firstn fold_left].
  do 7 (destruct k as [|k];
        [cbn [firstn] in Hk; inversion Hk; subst; reflexivity|]).
  reflexivity.
Qed.

(** X3 at the home configuration and at a half turn of the last joint: the
    last angle differs and the last link has moved, and the link of index 5
    has not. *)
Lemma link_pose_ignores_later_joints_witness :
  FK.forward_kinematics FK.__init__ home = Ok home_transforms /\
  FK.forward_kinematics FK.__init__ wrist_turned =
    Ok wrist_turned_transforms /\
  firstn 5 home = firstn 5 wrist_turned /\
  nth 5 home 0 <> nth 5 wrist_turned 0 /\
  FK.wrist_3 home_transforms <> FK.wrist_3 wrist_turned_transforms /\
  nth_error (FK.items home_transforms) 5 =
  nth_error (FK.items wrist_turned_transforms) 5.
Proof.
  split; [exact forward_kinematics_home|].
  split; [exact forward_kinematics_wrist_turned|].
  split; [reflexivity|]. split; [|split].
  - cbn. pose proof PI_RGT_0. lra.
  - intros H.
    apply (f_equal (fun m : mat => nth 0 (nth 0 m []) 0)) in H.
    cbn in H. lra.
  - exact (link_pose_ignores_later_joints FK.__init__ home wrist_turned
             home_transforms wrist_turned_transforms 5
             forward_kinematics_home forward_kinematics_wrist_turned
             eq_refl).
Defined.

(** X4. Normalising the joint angles does not move the arm:
    [forward_kinematics] and [get_joint_positions] give the same result on
    [normalize_joint_angles(q)] as on [q], the same exception included. *)
Theorem forward_kinematics_of_normalized (s : FK.self) (q : list R) :
  FK.forward_kinematics s (FK.normalize_joint_angles s q) =
  FK.forward_kinematics s q /\
  FK.get_joint_positions s (FK.normalize_joint_angles s q) =
  FK.get_joint_positions s q.
Proof.
  unfold FK.get_joint_positions.
  now rewrite forward_kinematics_normalize.
Qed.

(** X5. [get_joint_positions] returns seven points of three coordinates:
    the origin, then the point at height [d1] above it whatever the angles,
    and last the translation of the end-effector transform.  The links are
    rigid: the distance between two consecutive points is the length of the
    origin offset of the joint between them, whatever the angles. *)
Theorem joint_positions_keep_link_lengths
    (s : FK.self) (q : list R) (ps : list vec) :
  FK.get_joint_positions s q = Ok ps ->
  length ps = 7%nat /\
  Forall (fun p => length p = 3%nat) ps /\
  firstn 2 ps = [[0; 0; 0]; [0; 0; FK.d1 s]] /\
  (forall T, FK.get_end_effector_transform s q = Ok T ->
             nth_error ps 6 = Some (col3 T)) /\
  map norm (segments ps) = map norm (joint_offsets s).
Proof.
  unfold FK.get_joint_positions, FK.get_end_effector_transform.
  destruct (FK.forward_kinematics s q) as [t| |] eqn:E; cbn [bind];
    try discriminate.
  intros H.
  apply (f_equal (fun r => match r with Ok a => a | _ => ps end)) in H.
  subst ps.
  destruct (forward_kinematics_inv s q t E)
    as (q0 & q1 & q2 & q3 & q4 & q5 & rest & -> & ->).
  cbn [FK.base FK.shoulder FK.upper_arm FK.forearm FK.wrist_1 FK.wrist_2
       FK.wrist_3 joint_transforms firstn fold_left].
  pose proof (rigid_joint_transforms s
                (q0 :: q1 :: q2 :: q3 :: q4 :: q5 :: rest)) as Hr.
  cbn [joint_transforms] in Hr.
  repeat match type of Hr with
         | Forall _ (_ :: _) =>
           let H1 := fresh "Hj" in
           apply Forall_cons_iff in Hr; destruct Hr as [H1 Hr]
         end.
  clear Hr.
  set (T1 := FK.joint_transform _ _ q0 _) in *.
  set (T2 := FK.joint_transform _ _ q1 _) in *.
  set (T3 := FK.joint_transform _ _ q2 _) in *.
  set (T4 := FK.joint_transform _ _ q3 _) in *.
  set (T5 := FK.joint_transform _ _ q4 _) in *.
  set (T6 := FK.joint_transform _ _ q5 _) in *.
  pose proof rigid_eye as H0.
  pose proof (rigid_matmul _ _ H0 Hj) as H1.
  pose proof (rigid_matmul _ _ H1 Hj0) as H2.
  pose proof (rigid_matmul _ _ H2 Hj1) as H3.
  pose proof (rigid_matmul _ _ H3 Hj2) as H4.
  pose proof (rigid_matmul _ _ H4 Hj3) as H5.
  pose proof (rigid_matmul _ _ H5 Hj4) as H6.
  assert (Hlen : forall P, rigid P -> length (col3 P) = 3%nat).
  { intros P ((HP & _) & _). apply length_col3. destruct HP as [-> _]. lia. }
  split; [reflexivity|].
  split; [repeat (apply Forall_cons || apply Forall_nil); now apply Hlen|].
  split.
  { cbn [firstn]. subst T1. rewrite col3_matmul, col3_joint_transform
      by (apply homogeneous_eye || apply homogeneous_joint_transform).
    cbn. mat_eq ring. }
  split.
  { intros T HT.
    apply (f_equal (fun r => match r with Ok a => a | _ => T end)) in HT.
    subst T. reflexivity. }
  cbn [segments map joint_offsets].
  subst T1 T2 T3 T4 T5 T6.
  rewrite !segment_length by assumption. reflexivity.
Qed.

Lemma joint_positions_keep_link_lengths_witness :
  exists ps,
    FK.get_joint_positions FK.__init__ home = Ok ps /\
    length ps = 7%nat /\
    map norm (segments ps) = map norm (joint_offsets FK.__init__).
Proof.
  eexists. split; [reflexivity|].
  split;
    apply (joint_positions_keep_link_lengths FK.__init__ home); reflexivity.
Defined.

(** X6. [check_joint_limits] returns [False] at the first angle outside its
    limits and looks no further: the angles after it are not read, however
    many they are. *)
Theorem check_joint_limits_stops_at_first_violation
    (s : FK.self) (ok : list R) (bad : R) (rest : list R) (lo hi : R) :
  Forall2 in_limits ok (firstn (length ok) (FK.joint_limits s)) ->
  nth_error (FK.joint_limits s) (length ok) = Some (lo, hi) ->
  bad < lo \/ hi < bad ->
  FK.check_joint_limits s (ok ++ bad :: rest) = Ok false.
Proof.
  intros Hok Hl Hbad. unfold FK.check_joint_limits.
  rewrite check_joint_limits_from_prefix by exact Hok.
  cbn [Nat.add FK.check_joint_limits_from]. rewrite Hl.
  unfold Rltb, Rgtb.
  destruct (Rlt_dec bad lo) as [|Hn]; [reflexivity|].
  destruct (Rgt_dec bad hi) as [|Hn']; [reflexivity|].
  unfold Rgt in Hn'. lra.
Qed.

Lemma check_joint_limits_stops_at_first_violation_witness :
  Forall2 in_limits [0; 1]
    (firstn (length [0; 1]) (FK.joint_limits FK.__init__)) /\
  nth_error (FK.joint_limits FK.__init__) (length [0; 1]) =
    Some (-2 * PI, 2 * PI) /\
  (9 < -2 * PI \/ 2 * PI < 9) /\
  FK.check_joint_limits FK.__init__ ([0; 1] ++ 9 :: [0; 0; 0; 0; 0; 0]) =
  Ok false.
Proof.
  pose proof PI_gt_3 as H0. pose proof PI_4 as H4.
  assert (H1 : Forall2 in_limits [0; 1]
                 (firstn (length [0; 1]) (FK.joint_limits FK.__init__))).
  { cbn [length firstn FK.joint_limits FK.__init__].
    repeat (apply Forall2_cons || apply Forall2_nil);
      unfold in_limits; cbn [fst snd]; lra. }
  assert (H2 : 9 < -2 * PI \/ 2 * PI < 9) by (right; lra).
  split; [exact H1|]. split; [reflexivity|]. split; [exact H2|].
  exact (check_joint_limits_stops_at_first_violation FK.__init__ [0; 1] 9
           [0; 0; 0; 0; 0; 0] (-2 * PI) (2 * PI) H1 eq_refl H2).
Defined.

(** X7. When there is exactly one angle per limit and every angle is within
    its limits, [check_joint_limits] returns [True]; with one more angle
    after them, or several, it raises [IndexError]. *)
Theorem check_joint_limits_more_angles_than_limits
    (s : FK.self) (q : list R) (extra : R) (rest : list R) :
  Forall2 in_limits q (FK.joint_limits s) ->
  FK.check_joint_limits s q = Ok true /\
  FK.check_joint_limits s (q ++ extra :: rest) = Raised IndexError.
Proof.
  intros H. pose proof (Forall2_length H) as Hlen.
  assert (Hp : Forall2 in_limits q
                 (firstn (length q) (skipn 0 (FK.joint_limits s)))).
  { cbn [skipn]. rewrite Hlen, firstn_all. exact H. }
  unfold FK.check_joint_limits. split.
  - rewrite <- (app_nil_r q) at 1.
    rewrite check_joint_limits_from_prefix by exact Hp. reflexivity.
  - rewrite check_joint_limits_from_prefix by exact Hp.
    cbn [Nat.add FK.check_joint_limits_from].
    rewrite (proj2 (nth_error_None _ _)) by lia. reflexivity.
Qed.

Lemma check_joint_limits_more_angles_than_limits_witness :
  Forall2 in_limits home (FK.joint_limits FK.__init__) /\
  FK.check_joint_limits FK.__init__ home = Ok true /\
  FK.check_joint_limits FK.__init__ (home ++ 0 :: []) = Raised IndexError.
Proof.
  pose proof PI_gt_3 as H0.
  assert (H : Forall2 in_limits home (FK.joint_limits FK.__init__)).
  { cbn [FK.joint_limits FK.__init__]. unfold home.
    repeat (apply Forall2_cons || apply Forall2_nil);
      unfold in_limits; cbn [fst snd]; lra. }
  split; [exact H|].
  exact (check_joint_limits_more_angles_than_limits FK.__init__ home 0 [] H).
Defined.

(** X8. Up to six angles that [normalize_joint_angles] has normalised pass
    [check_joint_limits] with the limits that the constructor sets. *)
Theorem normalized_angles_within_default_limits (q : list R) :
  (length q <= 6)%nat ->
  FK.check_joint_limits FK.__init__
    (FK.normalize_joint_angles FK.__init__ q) = Ok true.
Proof.
  intros Hlen. pose proof PI_gt_3 as H0.
  unfold FK.check_joint_limits.
  rewrite <- (app_nil_r (FK.normalize_joint_angles FK.__init__ q)).
  rewrite check_joint_limits_from_prefix; [reflexivity|].
  unfold FK.normalize_joint_angles. rewrite length_map. cbn [skipn].
  assert (Hr : forall a, in_limits (FK.normalize_angle a) (-2 * PI, 2 * PI)).
  { intros a. pose proof (normalize_angle_range a). unfold in_limits.
    cbn [fst snd]. lra. }
  do 7 (destruct q as [|? q];
        [cbn [map length firstn FK.joint_limits FK.__init__];
         repeat (apply Forall2_cons || apply Forall2_nil); apply Hr |]).
  cbn [length] in Hlen. lia.
Qed.

Lemma normalized_angles_within_default_limits_witness :
  (length [3 * PI; 0; 0; 0; 0; 0]%R <= 6)%nat /\
  FK.check_joint_limits FK.__init__
    (FK.normalize_joint_angles FK.__init__ [3 * PI; 0; 0; 0; 0; 0]) =
  Ok true.
Proof.
  assert (H : (length [3 * PI; 0; 0; 0; 0; 0]%R <= 6)%nat) by (cbn; lia).
  split; [exact H|].
  exact (normalized_angles_within_default_limits [3 * PI; 0; 0; 0; 0; 0] H).
Defined.

End ForwardKinematicsProperties.

(** ** Further properties of the inverse solver *)

Section SolverProperties.

(** X9. [_verify] accepts a configuration against its own end-effector
    pose, and against that pose it accepts the normalised configuration as
    well, for any positive tolerances. *)
Theorem verify_accepts_exact_pose
    (s : IK.self) (q : vec) (T : mat) (pos_tol rot_tol : R) :
  FK.get_end_effector_transform (IK.fk s) q = Ok T ->
  0 < pos_tol -> 0 < rot_tol ->
  IK._verify s q T pos_tol rot_tol = true /\
  IK._verify s (FK.normalize_joint_angles (IK.fk s) q) T pos_tol rot_tol =
  true.
Proof.
  intros HT Hp Hr. rewrite verify_normalize.
  split; now apply verify_self.
Qed.

Lemma verify_accepts_exact_pose_witness :
  FK.get_end_effector_transform (IK.fk IK.__init__) home =
    Ok (FK.wrist_3 home_transforms) /\
  0 < 1e-4 /\ 0 < 5e-3 /\
  IK._verify IK.__init__ home (FK.wrist_3 home_transforms) 1e-4 5e-3 = true /\
  IK._verify IK.__init__
    (FK.normalize_joint_angles (IK.fk IK.__init__) home)
    (FK.wrist_3 home_transforms) 1e-4 5e-3 = true.
Proof.
  assert (H1 : 0 < 1e-4) by lra. assert (H2 : 0 < 5e-3) by lra.
  split; [exact end_effector_home|]. split; [exact H1|]. split; [exact H2|].
  exact (verify_accepts_exact_pose IK.__init__ home
           (FK.wrist_3 home_transforms) 1e-4 5e-3 end_effector_home H1 H2).
Defined.

(** X10. [_verify] raises nothing and returns [False] on a configuration of
    fewer than six angles, whatever the target; it also returns [False] on
    every configuration when a tolerance is zero or negative, the
    comparisons being strict. *)
Theorem verify_rejects_short_or_zero_tolerance
    (s : IK.self) (q : vec) (T : mat) (pos_tol rot_tol : R) :
  (length q < 6)%nat \/ pos_tol <= 0 \/ rot_tol <= 0 ->
  IK._verify s q T pos_tol rot_tol = false.
Proof.
  intros H. unfold IK._verify.
  destruct (FK.get_end_effector_transform (IK.fk s) q) as [Ta| |] eqn:E;
    try reflexivity.
  destruct H as [Hq|[Hp|Hr]].
  - exfalso. revert E.
    unfold FK.get_end_effector_transform, FK.forward_kinematics.
    do 6 (destruct q as [|? q];
          [cbn [getitem nth_error bind]; discriminate|]).
    cbn [length] in Hq. lia.
  - rewrite (Rltb_false _ pos_tol); [reflexivity|].
    pose proof (sqrt_pos (dot (vsub (col3 Ta) (col3 T))
                              (vsub (col3 Ta) (col3 T)))).
    unfold norm. lra.
  - rewrite (Rltb_false _ rot_tol); [apply andb_false_r|].
    unfold norm_fro.
    pose proof (sqrt_pos (fold_right (fun r acc => dot r r + acc) 0
                            (msub (block33 Ta) (block33 T)))).
    lra.
Qed.

Lemma verify_rejects_short_or_zero_tolerance_witness :
  ((length [0; 0; 0]%R < 6)%nat \/ 1e-4 <= 0 \/ 5e-3 <= 0) /\
  IK._verify IK.__init__ [0; 0; 0] (eye 4) 1e-4 5e-3 = false.
Proof.
  assert (H : (length [0; 0; 0]%R < 6)%nat \/ 1e-4 <= 0 \/ 5e-3 <= 0)
    by (left; cbn; lia).
  split; [exact H|].
  exact (verify_rejects_short_or_zero_tolerance IK.__init__ [0; 0; 0]
           (eye 4) 1e-4 5e-3 H).
Defined.

(** X11. Round trip: when the target is the end-effector pose of the seed
    itself, both errors are zero at the first iteration and [_solve_single]
    returns the seed unchanged, for any geometry, any positive [epsilon] and
    [tol] and at least one iteration allowed. *)
Theorem solve_single_returns_seed_at_target
    (s : IK.self) (q : vec) (T : mat) :
  FK.get_end_effector_transform (IK.fk s) q = Ok T ->
  0 < IK.epsilon s -> 0 < IK.tol s -> (0 < IK.max_iter s)%nat ->
  IK.pose_error s T q = Ok (zeros 3, zeros 3) /\
  IK._solve_single s T q = Ok (Some q).
Proof.
  intros HT He Ht Hn.
  split; [now apply pose_error_self | now apply solve_single_self].
Qed.

Lemma solve_single_returns_seed_at_target_witness :
  FK.get_end_effector_transform (IK.fk IK.__init__) home =
    Ok (FK.wrist_3 home_transforms) /\
  0 < IK.epsilon IK.__init__ /\ 0 < IK.tol IK.__init__ /\
  (0 < IK.max_iter IK.__init__)%nat /\
  IK.pose_error IK.__init__ (FK.wrist_3 home_transforms) home =
    Ok (zeros 3, zeros 3) /\
  IK._solve_single IK.__init__ (FK.wrist_3 home_transforms) home =
    Ok (Some home).
Proof.
  assert (H1 : 0 < IK.epsilon IK.__init__) by (cbn; lra).
  assert (H2 : 0 < IK.tol IK.__init__) by (cbn; lra).
  assert (H3 : (0 < IK.max_iter IK.__init__)%nat) by (cbn; lia).
  split; [exact end_effector_home|].
  split; [exact H1|]. split; [exact H2|]. split; [exact H3|].
  exact (solve_single_returns_seed_at_target IK.__init__ home
           (FK.wrist_3 home_transforms) end_effector_home H1 H2 H3).
Defined.

(** X12. On a seed of fewer than six angles [_solve_single] raises
    [IndexError] at its first iteration; with no iteration allowed it
    returns [None] without reading the seed. *)
Theorem solve_single_short_seed (s : IK.self) (T : mat) (q : vec) :
  shape 4 4 T -> (length q < 6)%nat ->
  IK._solve_single s T q =
  match IK.max_iter s with
  | O => Ok None
  | S _ => Raised IndexError
  end.
Proof.
  intros _ Hq. unfold IK._solve_single.
  destruct (IK.max_iter s) as [|n]; [reflexivity|].
  cbn [IK.solve_loop]. unfold IK.pose_error,
    FK.get_end_effector_transform, FK.forward_kinematics.
  do 6 (destruct q as [|? q]; [reflexivity|]).
  cbn [length] in Hq. lia.
Qed.

Lemma solve_single_short_seed_witness :
  shape 4 4 (eye 4) /\ (length [0; 0; 0]%R < 6)%nat /\
  IK._solve_single IK.__init__ (eye 4) [0; 0; 0] = Raised IndexError.
Proof.
  assert (H : (length [0; 0; 0]%R < 6)%nat) by (cbn; lia).
  split; [exact shape_eye4|]. split; [exact H|].
  exact (solve_single_short_seed IK.__init__ (eye 4) [0; 0; 0]
           shape_eye4 H).
Defined.

(** X13. The orientation error is the axis-angle vector of the rotation
    from the current pose to the target, in the world frame: when the
    target is the pose of the configuration with its base joint turned by
    [theta], the orientation error is [[0, 0, theta]], sign included, for
    every [theta] with [epsilon <= |theta| < pi]. *)
Theorem pose_error_of_base_turn
    (s : IK.self) (q0 theta : R) (rest : vec) (T : mat) :
  FK.get_end_effector_transform (IK.fk s) (q0 + theta :: rest) = Ok T ->
  theta <> 0 -> IK.epsilon s <= Rabs theta -> Rabs theta < PI ->
  exists dp,
    IK.pose_error s T (q0 :: rest) = Ok (dp, [0; 0; theta]) /\
    length dp = 3%nat.
Proof.
  intros HT H0 He Hpi.
  destruct (FK.get_end_effector_transform (IK.fk s) (q0 :: rest))
    as [T0| |] eqn:HT0.
  - unfold IK.pose_error. rewrite HT0. cbn [bind].
    rewrite (base_turn_error _ _ _ _ _ _ HT HT0).
    rewrite orientation_error_rotz by assumption. cbn [bind].
    eexists. split; [reflexivity|].
    unfold vsub. rewrite length_zipWith, !length_col3; [reflexivity| |].
    + destruct (end_effector_rigid _ _ _ HT0) as ([[-> _] _] & _). lia.
    + destruct (end_effector_rigid _ _ _ HT) as ([[-> _] _] & _). lia.
  - exfalso. apply end_effector_inv in HT. destruct HT as (Hl & _).
    revert HT0. unfold FK.get_end_effector_transform, FK.forward_kinematics.
    cbn [length] in Hl.
    do 5 (destruct rest as [|? rest]; [cbn [length] in Hl; lia|]).
    cbn [getitem nth_error bind]. discriminate.
  - exfalso. eapply end_effector_finite, HT0.
Qed.

Lemma pose_error_of_base_turn_witness :
  FK.get_end_effector_transform (IK.fk IK.__init__)
    (0 + 1 :: [0; 0; 0; 0; 0]) = Ok base_turned /\
  1 <> 0 /\ IK.epsilon IK.__init__ <= Rabs 1 /\ Rabs 1 < PI /\
  exists dp,
    IK.pose_error IK.__init__ base_turned (0 :: [0; 0; 0; 0; 0]) =
      Ok (dp, [0; 0; 1]) /\
    length dp = 3%nat.
Proof.
  pose proof PI_gt_3 as Hpi.
  assert (H1 : FK.get_end_effector_transform (IK.fk IK.__init__)
                 (0 + 1 :: [0; 0; 0; 0; 0]) = Ok base_turned)
    by (apply end_effector_fold; reflexivity).
  assert (H2 : 1 <> 0) by lra.
  assert (H3 : IK.epsilon IK.__init__ <= Rabs 1)
    by (rewrite Rabs_R1; cbn; lra).
  assert (H4 : Rabs 1 < PI) by (rewrite Rabs_R1; lra).
  split; [exact H1|]. split; [exact H2|]. split; [exact H3|].
  split; [exact H4|].
  exact (pose_error_of_base_turn IK.__init__ 0 1 [0; 0; 0; 0; 0]
           base_turned H1 H2 H3 H4).
Defined.

(** X14. For six angles, at the step 1e-6 that [_solve_single] passes and
    that is the default of the method, the numerical Jacobian is a 6x6
    array whose first column has the angular part [[0, 0, 1]]: the base
    joint turns the end effector about the world Z axis at unit rate, in
    every configuration and for every geometry. *)
Theorem numerical_jacobian_base_axis (s : IK.self) (q : vec) :
  length q = 6%nat ->
  exists J,
    IK._numerical_jacobian s q 1e-6 = Ok J /\
    shape 6 6 J /\
    skipn 3 (column 0 J) = [0; 0; 1].
Proof.
  intros Hq. pose proof PI_gt_3 as Hpi.
  assert (Hlo : 1e-10 <= 1e-6) by lra.
  assert (Hhi : 1e-6 < PI) by lra.
  unfold IK._numerical_jacobian.
  destruct (end_effector_ok (IK.fk s) q Hq) as (T0 & HT0 & _).
  rewrite HT0. cbn [bind].
  change (seq 0 6) with (0%nat :: seq 1 5). cbn [IK.foldM].
  destruct (jacobian_base_column s q 1e-6 T0 (zeros2 6 6))
    as (J1 & -> & HJ1 & Hc); try assumption.
  { split; [reflexivity | repeat constructor]. }
  cbn [bind].
  destruct (jacobian_columns_keep s q 1e-6 T0 (seq 1 5) Hlo Hhi Hq HT0)
    with (J := J1) as (J & -> & HJ & Hk); [|assumption|].
  { apply Forall_forall. intros i Hi. apply in_seq in Hi. lia. }
  exists J. split; [reflexivity|]. split; [assumption|].
  rewrite Hk; [assumption|]. rewrite in_seq. lia.
Qed.

Lemma numerical_jacobian_base_axis_witness :
  length home = 6%nat /\
  exists J,
    IK._numerical_jacobian IK.__init__ home 1e-6 = Ok J /\
    shape 6 6 J /\
    skipn 3 (column 0 J) = [0; 0; 1].
Proof.
  split; [reflexivity|].
  exact (numerical_jacobian_base_axis IK.__init__ home eq_refl).
Defined.

(** X15. With a step of zero [_numerical_jacobian] divides by zero in the
    linear part of its first column: the result is not finite, for any
    configuration of six angles or more. *)
Theorem numerical_jacobian_zero_step (s : IK.self) (q : vec) :
  (6 <= length q)%nat -> IK._numerical_jacobian s q 0 = NonFinite.
Proof.
  intros Hq. unfold IK._numerical_jacobian.
  destruct (end_effector_total (IK.fk s) q Hq) as [T0 HT0].
  rewrite HT0. cbn [bind seq IK.foldM]. unfold IK.jacobian_column.
  destruct q as [|q0 rest]; [cbn [length] in Hq; lia|].
  cbn [IK.add_at bind].
  destruct (end_effector_total (IK.fk s) (q0 + 0 :: rest)) as [Tp HTp];
    [exact Hq|].
  rewrite HTp. cbn [bind].
  destruct (col3_cons Tp (end_effector_rigid _ _ _ HTp)) as (a & b & c & ->).
  destruct (col3_cons T0 (end_effector_rigid _ _ _ HT0))
    as (a0 & b0 & c0 & ->).
  unfold IK.vdiv, vsub. cbn [zipWith mapM]. unfold fdiv.
  destruct (Req_dec_T 0 0) as [_|H]; [reflexivity | now elim H].
Qed.

Lemma numerical_jacobian_zero_step_witness :
  (6 <= length home)%nat /\
  IK._numerical_jacobian IK.__init__ home 0 = NonFinite.
Proof.
  assert (H : (6 <= length home)%nat) by (cbn; lia).
  split; [exact H|].
  exact (numerical_jacobian_zero_step IK.__init__ home H).
Defined.

(** X16. The damped step [dq = J.T @ solve(J @ J.T + d**2 * I, error)]
    solves the normal equations of damped least squares,
    [(J.T @ J + d**2 * I) @ dq = J.T @ error], for every 6x6 Jacobian, the
    singular ones included, and every non-zero damping. *)
Theorem damped_step_normal_equations (J : mat) (d : R) (error : vec) :
  shape 6 6 J -> d <> 0 -> length error = 6%nat ->
  exists dq,
    IK.damped_step J d error = Ok dq /\
    length dq = 6%nat /\
    matvec (madd (matmul (transpose J) J) (mscale (d ^ 2) (eye 6))) dq =
    matvec (transpose J) error.
Proof.
  intros HJ Hd He.
  destruct (damped_step_solution J d error HJ Hd He)
    as (y & Hy & Hsol & Hstep & _).
  eexists. split; [exact Hstep|]. split.
  - rewrite length_matvec. now apply (length_transpose 6 5).
  - rewrite <- Hsol. now apply damped_normal_identity.
Qed.

Lemma damped_step_normal_equations_witness :
  shape 6 6 (eye 6) /\ 0.01 <> 0 /\ length (zeros 6) = 6%nat /\
  exists dq,
    IK.damped_step (eye 6) 0.01 (zeros 6) = Ok dq /\
    length dq = 6%nat /\
    matvec (madd (matmul (transpose (eye 6)) (eye 6))
                 (mscale (0.01 ^ 2) (eye 6))) dq =
    matvec (transpose (eye 6)) (zeros 6).
Proof.
  assert (H1 : shape 6 6 (eye 6))
    by (split; [reflexivity | repeat constructor]).
  assert (H2 : 0.01 <> 0) by lra.
  split; [exact H1|]. split; [exact H2|]. split; [reflexivity|].
  exact (damped_step_normal_equations (eye 6) 0.01 (zeros 6) H1 H2 eq_refl).
Defined.

(** X17. The damped step is bounded by the error whatever the Jacobian:
    [|dq| <= |error| / (2 |d|)], and a zero error gives a zero step. *)
Theorem damped_step_is_bounded (J : mat) (d : R) (error : vec) :
  shape 6 6 J -> d <> 0 -> length error = 6%nat ->
  exists dq,
    IK.damped_step J d error = Ok dq /\
    norm dq <= norm error / (2 * Rabs d) /\
    (error = zeros 6 -> dq = zeros 6).
Proof.
  intros HJ Hd He.
  destruct (damped_step_solution J d error HJ Hd He)
    as (y & Hy & Hsol & Hstep & Hz).
  eexists. split; [exact Hstep|]. split.
  - unfold norm.
    rewrite <- sqrt_quarter by (apply dot_self_nonneg || assumption).
    apply sqrt_le_1_alt. now apply damped_step_square_bound.
  - intros E. rewrite (Hz E). matrix_of_shape HJ. cbn. mat_eq ring.
Qed.

Lemma damped_step_is_bounded_witness :
  shape 6 6 (eye 6) /\ 0.01 <> 0 /\ length (zeros 6) = 6%nat /\
  exists dq,
    IK.damped_step (eye 6) 0.01 (zeros 6) = Ok dq /\
    norm dq <= norm (zeros 6) / (2 * Rabs 0.01) /\
    (zeros 6 = zeros 6 -> dq = zeros 6).
Proof.
  assert (H1 : shape 6 6 (eye 6))
    by (split; [reflexivity | repeat constructor]).
  assert (H2 : 0.01 <> 0) by lra.
  split; [exact H1|]. split; [exact H2|]. split; [reflexivity|].
  exact (damped_step_is_bounded (eye 6) 0.01 (zeros 6) H1 H2 eq_refl).
Defined.

(** X18. One iteration of [_solve_single] moves a configuration of six
    angles by at most fifty times the norm of the error vector, the damping
    being 0.01, in every configuration. *)
Theorem update_step_is_bounded (s : IK.self) (q error : vec) :
  length q = 6%nat -> length error = 6%nat ->
  exists q',
    IK.update s 0.01 q error = Ok q' /\
    norm (vsub q' q) <= 50 * norm error.
Proof.
  intros Hq He. unfold IK.update. pose proof PI_gt_3.
  destruct (numerical_jacobian_ok s q 1e-6) as (J & -> & HJ);
    [lra | lra | assumption |].
  cbn [bind].
  assert (Hd : 0.01 <> 0) by lra.
  destruct (damped_step_solution J 0.01 error HJ Hd He)
    as (y & Hy & Hsol & -> & _).
  cbn [bind].
  assert (Hl : length (matvec (transpose J) y) = 6%nat).
  { rewrite length_matvec. now apply (length_transpose 6 5). }
  unfold add. rewrite Hq, Hl. cbn [Nat.eqb].
  eexists. split; [reflexivity|].
  replace (vsub (vadd q (matvec (transpose J) y)) q)
    with (matvec (transpose J) y).
  - unfold norm.
    replace (50 * sqrt (dot error error))
      with (sqrt (dot error error) / (2 * Rabs 0.01)).
    + rewrite <- sqrt_quarter by (apply dot_self_nonneg || assumption).
      apply sqrt_le_1_alt. now apply damped_step_square_bound.
    + rewrite Rabs_pos_eq by lra. lra.
  - list_of_length Hq. list_of_length Hl. cbn. mat_eq ring.
Qed.

Lemma update_step_is_bounded_witness :
  length home = 6%nat /\ length (zeros 6) = 6%nat /\
  exists q',
    IK.update IK.__init__ 0.01 home (zeros 6) = Ok q' /\
    norm (vsub q' home) <= 50 * norm (zeros 6).
Proof.
  split; [reflexivity|]. split; [reflexivity|].
  exact (update_step_is_bounded IK.__init__ home (zeros 6) eq_refl eq_refl).
Defined.

(** X25. For a target that is a rigid transform, the position error is the
    target position minus the current position, and the norm of the
    orientation error is the angle of the rotation from the current
    orientation to the target orientation, or zero when that angle is below
    [epsilon]; the angle [pi] is left out, where the code divides by the
    sine of the angle. *)
Theorem orientation_error_norm_is_angle
    (s : IK.self) (T : mat) (q : vec) (T_current : mat) :
  rigid T ->
  FK.get_end_effector_transform (IK.fk s) q = Ok T_current ->
  0 < IK.epsilon s ->
  IK.rotation_angle (matmul (block33 T) (transpose (block33 T_current)))
    < PI ->
  exists dw,
    IK.pose_error s T q = Ok (vsub (col3 T) (col3 T_current), dw) /\
    norm dw =
    if Rlt_dec
         (IK.rotation_angle
            (matmul (block33 T) (transpose (block33 T_current))))
         (IK.epsilon s)
    then 0
    else IK.rotation_angle
           (matmul (block33 T) (transpose (block33 T_current))).
Proof.
  intros HT Hc He Hpi. unfold IK.pose_error. rewrite Hc. cbn [bind].
  destruct (orientation_error_norm s
              (matmul (block33 T) (transpose (block33 T_current))))
    as (dw & -> & Hn); try assumption.
  { apply special_error; apply special_block;
      [assumption | eapply end_effector_rigid; eassumption]. }
  cbn [bind]. exists dw. split; [reflexivity | exact Hn].
Qed.

Lemma orientation_error_norm_is_angle_witness :
  rigid (FK.wrist_3 home_transforms) /\
  FK.get_end_effector_transform (IK.fk IK.__init__) home =
    Ok (FK.wrist_3 home_transforms) /\
  0 < IK.epsilon IK.__init__ /\
  IK.rotation_angle
    (matmul (block33 (FK.wrist_3 home_transforms))
       (transpose (block33 (FK.wrist_3 home_transforms)))) < PI /\
  exists dw,
    IK.pose_error IK.__init__ (FK.wrist_3 home_transforms) home =
      Ok (vsub (col3 (FK.wrist_3 home_transforms))
               (col3 (FK.wrist_3 home_transforms)), dw) /\
    norm dw =
    if Rlt_dec
         (IK.rotation_angle
            (matmul (block33 (FK.wrist_3 home_transforms))
               (transpose (block33 (FK.wrist_3 home_transforms)))))
         (IK.epsilon IK.__init__)
    then 0
    else IK.rotation_angle
           (matmul (block33 (FK.wrist_3 home_transforms))
              (transpose (block33 (FK.wrist_3 home_transforms)))).
Proof.
  pose proof PI_gt_3 as Hpi.
  pose proof (end_effector_rigid _ _ _ end_effector_home) as H1.
  assert (H2 : 0 < IK.epsilon IK.__init__) by (cbn; lra).
  assert (H3 : IK.rotation_angle
                 (matmul (block33 (FK.wrist_3 home_transforms))
                    (transpose (block33 (FK.wrist_3 home_transforms))))
               < PI).
  { destruct H1 as (_ & (_ & -> & _) & _). rewrite rotation_angle_eye3. lra. }
  split; [exact H1|]. split; [exact end_effector_home|].
  split; [exact H2|]. split; [exact H3|].
  exact (orientation_error_norm_is_angle IK.__init__
           (FK.wrist_3 home_transforms) home (FK.wrist_3 home_transforms)
           H1 end_effector_home H2 H3).
Defined.

(** X26. For six angles, at the step 1e-6 that [_solve_single] passes and
    that is the default of the method, the angular part of every column of
    the numerical Jacobian is a unit vector: each joint turns the end
    effector at unit rate about some axis, in every configuration and for
    every geometry. *)
Theorem numerical_jacobian_unit_axes (s : IK.self) (q : vec) :
  length q = 6%nat ->
  exists J,
    IK._numerical_jacobian s q 1e-6 = Ok J /\
    shape 6 6 J /\
    forall i, (i < 6)%nat -> norm (skipn 3 (column i J)) = 1.
Proof.
  intros Hq. pose proof PI_gt_3 as Hpi.
  assert (Hlo : 1e-10 <= 1e-6) by lra.
  assert (Hhi : 1e-6 < PI) by lra.
  unfold IK._numerical_jacobian.
  destruct (end_effector_ok (IK.fk s) q Hq) as (T0 & HT0 & _).
  rewrite HT0. cbn [bind].
  destruct (jacobian_columns_unit s q 1e-6 T0 (seq 0 6) Hlo Hhi Hq HT0)
    with (J := zeros2 6 6) as (J & -> & HJ & _ & Hu).
  - apply seq_NoDup.
  - apply Forall_forall. intros i Hi. apply in_seq in Hi. lia.
  - split; [reflexivity | repeat constructor].
  - exists J. split; [reflexivity|]. split; [assumption|].
    intros i Hi. apply Hu, in_seq. lia.
Qed.

Lemma numerical_jacobian_unit_axes_witness :
  length home = 6%nat /\
  exists J,
    IK._numerical_jacobian IK.__init__ home 1e-6 = Ok J /\
    shape 6 6 J /\
    forall i, (i < 6)%nat -> norm (skipn 3 (column i J)) = 1.
Proof.
  split; [reflexivity|].
  exact (numerical_jacobian_unit_axes IK.__init__ home eq_refl).
Defined.

(** X27. What [_verify] accepts is close to a rigid target in angle as
    well: the position is within [pos_tol], and the angle [a] of the
    rotation between the reached and the target orientation satisfies
    [4 (1 - cos a) < rot_tol ** 2], the square of the Frobenius norm of the
    difference of two rotations being [4 (1 - cos a)]. *)
Theorem verify_bounds_rotation_angle
    (s : IK.self) (q : vec) (T : mat) (pos_tol rot_tol : R) :
  rigid T ->
  IK._verify s q T pos_tol rot_tol = true ->
  exists T_actual,
    FK.get_end_effector_transform (IK.fk s) q = Ok T_actual /\
    norm (vsub (col3 T_actual) (col3 T)) < pos_tol /\
    4 * (1 - cos (IK.rotation_angle
                    (matmul (block33 T) (transpose (block33 T_actual)))))
    < rot_tol * rot_tol.
Proof.
  intros HT Hv. apply verify_iff in Hv.
  destruct Hv as (Ta & HTa & Hp & Hr).
  exists Ta. split; [assumption|]. split; [assumption|].
  pose proof (end_effector_rigid _ _ _ HTa) as HRa.
  assert (Hs : special (matmul (block33 T) (transpose (block33 Ta))))
    by (apply special_error; now apply special_block).
  unfold norm_fro in Hr.
  rewrite fro_rotations in Hr by (apply HRa || apply HT).
  apply sqrt_lt_square in Hr.
  - rewrite (trace_rotation_angle _ Hs) in Hr. lra.
  - pose proof (trace_special _ Hs). lra.
Qed.

Lemma verify_bounds_rotation_angle_witness :
  rigid (FK.wrist_3 home_transforms) /\
  IK._verify IK.__init__ home (FK.wrist_3 home_transforms) 1e-4 5e-3 = true /\
  exists T_actual,
    FK.get_end_effector_transform (IK.fk IK.__init__) home = Ok T_actual /\
    norm (vsub (col3 T_actual) (col3 (FK.wrist_3 home_transforms))) < 1e-4 /\
    4 * (1 - cos (IK.rotation_angle
                    (matmul (block33 (FK.wrist_3 home_transforms))
                       (transpose (block33 T_actual)))))
    < 5e-3 * 5e-3.
Proof.
  pose proof (end_effector_rigid _ _ _ end_effector_home) as H1.
  split; [exact H1|]. split; [exact verify_home|].
  exact (verify_bounds_rotation_angle IK.__init__ home
           (FK.wrist_3 home_transforms) 1e-4 5e-3 H1 verify_home).
Defined.

End SolverProperties.

(** ** Further properties of [solve_ik] *)

Section SolveIkProperties.

Variable RandomState : Type.
Variable RandomState_seed : Z -> RandomState.
Variable random_sample : RandomState -> R * RandomState.

Local Abbreviation solve_ik :=
  (IK.solve_ik RandomState RandomState_seed random_sample).
Local Abbreviation _generate_seeds :=
  (IK._generate_seeds RandomState RandomState_seed random_sample).
Local Abbreviation normalize s := (FK.normalize_joint_angles (IK.fk s)).

(** Every solution is the normalised result of a seed. *)
Lemma solve_ik_solutions (s : IK.self) (T : mat) :
  (3 <= length T)%nat ->
  exists solutions,
    solve_ik s T = Ok solutions /\
    Forall (fun sol =>
              exists seed q,
                In seed (_generate_seeds s) /\
                IK._solve_single s T seed = Ok (Some q) /\
                length q = 6%nat /\
                sol = normalize s q)
           solutions.
Proof.
  intros HT. eexists.
  split; [apply solve_ik_returns; assumption|].
  set (results := map (seed_result s T) (_generate_seeds s)).
  destruct (fold_collect_subseq s results []) as (kept & -> & Hk).
  cbn [app]. apply Forall_forall. intros sol Hin.
  apply (Subseq_in _ _ _ Hk), in_map_iff in Hin.
  destruct Hin as (q & <- & Hq). apply successes_in in Hq.
  unfold results in Hq. apply in_map_iff in Hq.
  destruct Hq as (seed & Hs & Hseed). unfold seed_result in Hs.
  exists seed, q.
  destruct (generate_seeds_shape RandomState RandomState_seed random_sample s)
    as [_ Hsh].
  rewrite Forall_forall in Hsh.
  destruct (solve_single_returns s T seed HT (Hsh seed Hseed))
    as [E|(r & E & Hr)]; rewrite E in Hs; [discriminate|].
  subst r. repeat split; try assumption. now apply Hr.
Qed.

(** The solutions cover every seed that succeeded. *)
Lemma solve_ik_covers (s : IK.self) (T : mat) (seed q : vec) :
  (3 <= length T)%nat ->
  In seed (_generate_seeds s) ->
  IK._solve_single s T seed = Ok (Some q) ->
  exists solutions,
    solve_ik s T = Ok solutions /\
    exists sol, In sol solutions /\ within (normalize s q) sol.
Proof.
  intros HT Hseed Hs. eexists.
  split; [apply solve_ik_returns; assumption|].
  apply fold_collect_covers; [split; constructor|].
  apply in_map_iff. exists seed. split; [|assumption].
  unfold seed_result. now rewrite Hs.
Qed.

(** X19. On a 4x4 target [solve_ik] returns a list, and every solution in
    it has six angles and reaches the target after its normalisation: a
    fresh forward kinematics of the returned angles is within 1e-4 of the
    target position and within 5e-3 of the target rotation in Frobenius
    norm, so [_verify] accepts it. *)
Theorem solve_ik_solutions_reach_target (s : IK.self) (T : mat) :
  shape 4 4 T ->
  exists solutions,
    solve_ik s T = Ok solutions /\
    Forall (fun sol =>
              length sol = 6%nat /\
              IK._verify s sol T 1e-4 5e-3 = true /\
              exists T_actual,
                FK.get_end_effector_transform (IK.fk s) sol = Ok T_actual /\
                norm (vsub (col3 T_actual) (col3 T)) < 1e-4 /\
                norm_fro (msub (block33 T_actual) (block33 T)) < 5e-3)
           solutions.
Proof.
  intros [HT _].
  assert (HT' : (3 <= length T)%nat) by lia.
  destruct (solve_ik_solutions s T HT') as (sols & E & H).
  exists sols. split; [exact E|].
  apply Forall_forall. intros sol Hin.
  rewrite Forall_forall in H.
  destruct (H sol Hin) as (seed & q & _ & Hs & Hq & ->).
  apply solve_loop_found in Hs.
  destruct Hs as (k & dp & dw & _ & _ & _ & _ & Hv).
  assert (Hv' : IK._verify s (normalize s q) T 1e-4 5e-3 = true)
    by now rewrite verify_normalize.
  split; [unfold FK.normalize_joint_angles; now rewrite length_map|].
  split; [exact Hv'|].
  apply verify_iff, Hv'.
Qed.

(** X20. When the joint limits are those that the constructor sets, on a
    4x4 target [solve_ik] returns a list and every solution in it passes
    [check_joint_limits]. *)
Theorem solve_ik_solutions_within_limits (s : IK.self) (T : mat) :
  shape 4 4 T ->
  FK.joint_limits (IK.fk s) = FK.joint_limits FK.__init__ ->
  exists solutions,
    solve_ik s T = Ok solutions /\
    Forall (fun sol => FK.check_joint_limits (IK.fk s) sol = Ok true)
           solutions.
Proof.
  intros [HT _] Hl.
  assert (HT' : (3 <= length T)%nat) by lia.
  destruct (solve_ik_solutions s T HT') as (sols & E & H).
  exists sols. split; [exact E|].
  apply Forall_forall. intros sol Hin.
  rewrite Forall_forall in H.
  destruct (H sol Hin) as (seed & q & _ & _ & Hq & ->).
  unfold FK.check_joint_limits.
  rewrite <- (app_nil_r (normalize s q)).
  rewrite check_joint_limits_from_prefix; [reflexivity|].
  unfold FK.normalize_joint_angles. rewrite length_map, Hq, Hl.
  cbn [skipn firstn FK.joint_limits FK.__init__].
  assert (Hr : forall a, in_limits (FK.normalize_angle a) (-2 * PI, 2 * PI)).
  { intros a. pose proof (normalize_angle_range a). pose proof PI_gt_3.
    unfold in_limits. cbn [fst snd]. lra. }
  list_of_length Hq. cbn [map].
  repeat (apply Forall2_cons || apply Forall2_nil); apply Hr.
Qed.

(** X21. Round trip through [solve_ik]: when the target is the end-effector
    pose of one of the 32 seeds, [solve_ik] returns a list that is not
    empty, and one of the solutions is within 0.05 of the normalised seed
    in every joint. *)
Theorem solve_ik_solves_seed_pose (s : IK.self) (seed : vec) (T : mat) :
  In seed (_generate_seeds s) ->
  FK.get_end_effector_transform (IK.fk s) seed = Ok T ->
  0 < IK.epsilon s -> 0 < IK.tol s -> (0 < IK.max_iter s)%nat ->
  exists solutions,
    solve_ik s T = Ok solutions /\
    solutions <> [] /\
    exists sol, In sol solutions /\ within (normalize s seed) sol.
Proof.
  intros Hseed Hfk He Ht Hn.
  assert (HT : (3 <= length T)%nat).
  { destruct (end_effector_rigid _ _ _ Hfk) as ([[-> _] _] & _). lia. }
  pose proof (solve_single_self s seed T Hfk He Ht Hn) as Hs.
  destruct (solve_ik_covers s T seed seed HT Hseed Hs)
    as (sols & E & sol & Hin & Hw).
  exists sols. split; [exact E|]. split.
  - intros ->. exact Hin.
  - exists sol. split; assumption.
Qed.

End SolveIkProperties.

(** ** Properties of the mesh placement *)

Section MeshProperties.

Variable Trimesh : Type.
Variable copy : Trimesh -> Trimesh.
Variable apply_transform : mat -> Trimesh -> Trimesh.

Local Abbreviation get_transformed_meshes :=
  (Visualizer.get_transformed_meshes Trimesh copy apply_transform).
Local Abbreviation get_link_transforms :=
  (Visualizer.get_link_transforms Trimesh).

(** X22. The [_create_transform] of the mesh loader builds the same matrix
    as the [_create_transform] of the kinematics, for every translation and
    every roll, pitch and yaw. *)
Theorem mesh_create_transform_agrees (translation rotation_rpy : R * R * R) :
  Loader._create_transform translation rotation_rpy =
  FK._create_transform translation rotation_rpy.
Proof.
  destruct translation as [[x y] z], rotation_rpy as [[roll pitch] yaw].
  unfold Loader._create_transform, FK._create_transform.
  cbn -[cos sin]. mat_eq ring.
Qed.

(** X23. For a visualizer built on a loader whose offsets are those that
    the constructor sets, whatever meshes are loaded,
    [get_transformed_meshes] raises no [KeyError] and returns exactly the
    loaded meshes among the seven link names, in link order, each one a copy
    moved by the pose that [forward_kinematics] gives the link of the same
    name.  The offsets change nothing: for every mesh name, known or not,
    [apply_transform_to_mesh] applies the 4x4 transform it is given to a
    copy of the mesh. *)
Theorem transformed_meshes_follow_links
    (g : FK.self) (loaded : list (string * Trimesh)) (q : list R)
    (t : FK.link_transforms) :
  FK.forward_kinematics g q = Ok t ->
  get_transformed_meshes
    (Visualizer.__init__ Trimesh g
       (Loader.with_meshes Trimesh loaded (Loader.__init__ Trimesh))) q =
  Ok (inr (placed copy apply_transform loaded (FK.items t))) /\
  (forall mesh T name,
     shape 4 4 T ->
     Loader.apply_transform_to_mesh Trimesh copy apply_transform
       (Loader.with_meshes Trimesh loaded (Loader.__init__ Trimesh))
       mesh T name =
     apply_transform T (copy mesh)).
Proof.
  intros Ht.
  split; [|intros mesh T name; apply apply_transform_to_mesh_offsets].
  pose proof (link_shapes g q t Ht) as Hr.
  unfold FK.items in Hr.
  repeat match type of Hr with
         | Forall _ (_ :: _) =>
           let H := fresh "Hs" in
           apply Forall_cons_iff in Hr; destruct Hr as [H Hr];
           cbn [snd] in H
         end.
  clear Hr.
  unfold Visualizer.get_transformed_meshes, Visualizer.get_link_transforms.
  cbn [Visualizer.fk Visualizer.__init__]. rewrite Ht. cbn [bind].
  do 2 f_equal.
  unfold placed, FK.items.
  cbn [Visualizer.link_mesh_mapping Visualizer.__init__
       Visualizer.transform_links Visualizer.mesh_loader flat_map fst snd
       dict_get Visualizer.key_eqb String.eqb Ascii.eqb Bool.eqb
       Z.eqb Pos.eqb].
  unfold Loader.get_mesh. cbn [Loader.meshes Loader.with_meshes].
  repeat match goal with
         | |- context [dict_get String.eqb loaded ?n] =>
           destruct (dict_get String.eqb loaded n);
           cbn [app dict_set String.eqb Ascii.eqb Bool.eqb];
           rewrite ?apply_transform_to_mesh_offsets by assumption
         end;
    reflexivity.
Qed.

(** X24. On fewer than six joint angles [get_link_transforms] and
    [get_transformed_meshes] raise [IndexError], whatever the loader holds
    and whatever the mapping is. *)
Theorem transformed_meshes_need_six_angles
    (s : Visualizer.self Trimesh) (q : list R) :
  (length q < 6)%nat ->
  get_link_transforms s q = Raised IndexError /\
  get_transformed_meshes s q = Raised IndexError.
Proof.
  intros Hq.
  unfold Visualizer.get_transformed_meshes, Visualizer.get_link_transforms,
    FK.forward_kinematics.
  do 6 (destruct q as [|? q]; [split; reflexivity|]).
  cbn [length] in Hq. lia.
Qed.

End MeshProperties.

(** ** The further properties on a concrete generator and a concrete mesh *)

Section PropertyWitnesses.

Lemma home_seed :
  In home (IK._generate_seeds Z lcg_seed lcg_sample IK.__init__).
Proof.
  unfold IK._generate_seeds. apply in_or_app. left. right. left. reflexivity.
Qed.

Lemma shape_home_pose : shape 4 4 (FK.wrist_3 home_transforms).
Proof. split; [reflexivity | repeat constructor]. Qed.

(** At the home pose the solutions are not empty. *)
Lemma solve_ik_home_pose solutions :
  IK.solve_ik Z lcg_seed lcg_sample IK.__init__ (FK.wrist_3 home_transforms) =
    Ok solutions ->
  solutions <> [].
Proof.
  intros E.
  destruct (solve_ik_covers Z lcg_seed lcg_sample IK.__init__
              (FK.wrist_3 home_transforms) home home)
    as (sols & E' & sol & Hin & _).
  - cbn. lia.
  - exact home_seed.
  - exact solve_single_home.
  - rewrite E in E'.
    apply (f_equal (fun r => match r with Ok a => a | _ => [] end)) in E'.
    subst sols. intros ->. exact Hin.
Qed.

(** C3 at the home pose: the list is not empty. *)
Lemma solve_ik_keeps_distinct_in_order_witness :
  shape 4 4 (FK.wrist_3 home_transforms) /\
  exists solutions,
    IK.solve_ik Z lcg_seed lcg_sample IK.__init__
      (FK.wrist_3 home_transforms) = Ok solutions /\
    solutions <> [] /\
    (forall i j a b, i <> j ->
       nth_error solutions i = Some a ->
       nth_error solutions j = Some b -> far a b) /\
    Subseq solutions
      (map (FK.normalize_joint_angles (IK.fk IK.__init__))
         (successes
            (map (seed_result IK.__init__ (FK.wrist_3 home_transforms))
               (IK._generate_seeds Z lcg_seed lcg_sample IK.__init__)))) /\
    (forall q rest,
       successes
         (map (seed_result IK.__init__ (FK.wrist_3 home_transforms))
            (IK._generate_seeds Z lcg_seed lcg_sample IK.__init__))
       = q :: rest ->
       hd_error solutions =
       Some (FK.normalize_joint_angles (IK.fk IK.__init__) q)).
Proof.
  split; [exact shape_home_pose|].
  destruct (proj1 (solve_ik_keeps_distinct_in_order Z lcg_seed lcg_sample
                     IK.__init__ (FK.wrist_3 home_transforms)
                     shape_home_pose))
    as (solutions & E & _ & Hfar & Hsub & Hfirst).
  exists solutions. split; [exact E|].
  split; [exact (solve_ik_home_pose solutions E)|].
  split; [exact Hfar|]. split; [exact Hsub | exact Hfirst].
Defined.

(** C10 at the home pose: the list is not empty. *)
Lemma solve_ik_at_most_32_normalized_witness :
  shape 4 4 (FK.wrist_3 home_transforms) /\
  length (IK._generate_seeds Z lcg_seed lcg_sample IK.__init__) = 32%nat /\
  length IK.configs = 8%nat /\
  exists solutions,
    IK.solve_ik Z lcg_seed lcg_sample IK.__init__
      (FK.wrist_3 home_transforms) = Ok solutions /\
    solutions <> [] /\
    (length solutions <= 32)%nat /\
    Forall (fun q => FK.normalize_joint_angles (IK.fk IK.__init__) q = q)
           solutions.
Proof.
  split; [exact shape_home_pose|].
  destruct (solve_ik_at_most_32_normalized Z lcg_seed lcg_sample
              IK.__init__ (FK.wrist_3 home_transforms) shape_home_pose)
    as (H32 & H8 & solutions & E & Hlen & Hnorm).
  split; [exact H32|]. split; [exact H8|].
  exists solutions. split; [exact E|].
  split; [exact (solve_ik_home_pose solutions E)|].
  split; [exact Hlen | exact Hnorm].
Defined.

(** C7 at the identity rotation, and at the home pose: seen from the home
    seed its relative rotation is the identity, and [solve_ik] returns a
    list that is not empty. *)
Lemma degenerate_rotation_guard_witness :
  IK.rotation_angle (eye 3) < IK.epsilon IK.__init__ /\
  IK.orientation_error IK.__init__ (eye 3) = Ok (zeros 3) /\
  IK.rotation_angle (eye 3) < 1e-10 /\
  IK.angular_velocity (eye 3) 1e-6 = Ok (zeros 3) /\
  0 < IK.epsilon IK.__init__ /\
  matmul (block33 (FK.wrist_3 home_transforms))
    (transpose (block33 (FK.wrist_3 home_transforms))) = eye 3 /\
  IK.pose_error IK.__init__ (FK.wrist_3 home_transforms) home =
    Ok (vsub (col3 (FK.wrist_3 home_transforms))
             (col3 (FK.wrist_3 home_transforms)), zeros 3) /\
  shape 4 4 (FK.wrist_3 home_transforms) /\
  (exists r,
     IK._solve_single IK.__init__ (FK.wrist_3 home_transforms) home = Ok r) /\
  (exists solutions,
     IK.solve_ik Z lcg_seed lcg_sample IK.__init__
       (FK.wrist_3 home_transforms) = Ok solutions /\
     solutions <> []).
Proof.
  assert (He : 0 < IK.epsilon IK.__init__) by (cbn; lra).
  assert (H0 : IK.rotation_angle (eye 3) < IK.epsilon IK.__init__)
    by (rewrite rotation_angle_eye3; exact He).
  assert (H1 : IK.rotation_angle (eye 3) < 1e-10)
    by (rewrite rotation_angle_eye3; lra).
  assert (Hid : matmul (block33 (FK.wrist_3 home_transforms))
                  (transpose (block33 (FK.wrist_3 home_transforms))) = eye 3)
    by (cbn; mat_eq lra).
  pose proof (degenerate_rotation_guard Z lcg_seed lcg_sample IK.__init__
                (eye 3) 1e-6)
    as (Hg & Ha & _ & _ & _ & Hp & _ & Hs & _).
  destruct (Hs He (FK.wrist_3 home_transforms) shape_home_pose)
    as (Hsingle & solutions & E & _).
  split; [exact H0|]. split; [exact (Hg H0)|].
  split; [exact H1|]. split; [exact (Ha H1)|].
  split; [exact He|]. split; [exact Hid|].
  split; [exact (Hp He _ _ _ end_effector_home Hid)|].
  split; [exact shape_home_pose|].
  split; [exact (Hsingle home eq_refl)|].
  exists solutions. split; [exact E | exact (solve_ik_home_pose solutions E)].
Defined.

(** C8 on the linear congruential generator: a call of [solve_ik] at the
    home pose returns the same list, which is not empty, in the first
    world, after itself, and after itself and a call of
    [forward_kinematics]; and the 144 draws are strictly between 0 and 1,
    so every angle of the 24 drawn seeds is strictly between [- PI] and
    [PI]. *)
Lemma two_runs_agree_witness :
  (exists solutions,
     fst (run Z lcg_seed lcg_sample
            (Call_solve_ik (FK.wrist_3 home_transforms)) home_world) =
       Solutions (Ok solutions) /\
     solutions <> [] /\
     fst (run Z lcg_seed lcg_sample
            (Call_solve_ik (FK.wrist_3 home_transforms))
            (run_all Z lcg_seed lcg_sample
               [Call_solve_ik (FK.wrist_3 home_transforms);
                Call_forward_kinematics home] home_world)) =
       Solutions (Ok solutions) /\
     fst (run Z lcg_seed lcg_sample
            (Call_solve_ik (FK.wrist_3 home_transforms))
            (snd (run Z lcg_seed lcg_sample
                    (Call_solve_ik (FK.wrist_3 home_transforms))
                    home_world))) =
       Solutions (Ok solutions)) /\
  IK.next Z
    (generators Z
       (snd (run Z lcg_seed lcg_sample
               (Call_solve_ik (FK.wrist_3 home_transforms)) home_world))) =
    1%nat /\
  IK.cells Z
    (generators Z
       (snd (run Z lcg_seed lcg_sample
               (Call_solve_ik (FK.wrist_3 home_transforms)) home_world)))
    0 = lcg_state 144 (lcg_seed 42) /\
  (forall k, (k < 144)%nat ->
     0 < nth_sample Z lcg_sample k (lcg_seed 42) < 1) /\
  Forall (Forall (fun x => - PI < x < PI))
         (IK.random_seeds Z lcg_sample 24 (lcg_seed 42)) /\
  length (IK.random_seeds Z lcg_sample 24 (lcg_seed 42)) = 24%nat.
Proof.
  pose proof (two_runs_agree Z lcg_seed lcg_sample home_world
                [Call_solve_ik (FK.wrist_3 home_transforms);
                 Call_forward_kinematics home]
                (Call_solve_ik (FK.wrist_3 home_transforms)))
    as (H1 & H2 & H3 & _ & _ & _ & H7 & _ & H9).
  split; [|split; [|split; [|split; [|split]]]].
  - destruct (solve_ik_covers Z lcg_seed lcg_sample IK.__init__
                (FK.wrist_3 home_transforms) home home)
      as (solutions & E & _).
    + cbn. lia.
    + exact home_seed.
    + exact solve_single_home.
    + exists solutions.
      assert (H0 : fst (run Z lcg_seed lcg_sample
                          (Call_solve_ik (FK.wrist_3 home_transforms))
                          home_world) = Solutions (Ok solutions)).
      { rewrite run_result. cbn [ik_object home_world]. now rewrite E. }
      split; [exact H0|].
      split; [exact (solve_ik_home_pose solutions E)|].
      split; [rewrite H1; exact H0 | rewrite H2; exact H0].
  - exact (proj1 (H3 (FK.wrist_3 home_transforms))).
  - rewrite <- advance_lcg.
    exact (proj1 (proj2 (H3 (FK.wrist_3 home_transforms)))).
  - exact lcg_samples_inside.
  - exact (H9 lcg_samples_inside).
  - exact (proj1 H7).
Defined.

(** X19 at the home pose: the list is not empty. *)
Lemma solve_ik_solutions_reach_target_witness :
  shape 4 4 (FK.wrist_3 home_transforms) /\
  exists solutions,
    IK.solve_ik Z lcg_seed lcg_sample IK.__init__
      (FK.wrist_3 home_transforms) = Ok solutions /\
    solutions <> [] /\
    Forall (fun sol =>
              length sol = 6%nat /\
              IK._verify IK.__init__ sol (FK.wrist_3 home_transforms)
                1e-4 5e-3 = true /\
              exists T_actual,
                FK.get_end_effector_transform (IK.fk IK.__init__) sol =
                  Ok T_actual /\
                norm (vsub (col3 T_actual)
                        (col3 (FK.wrist_3 home_transforms))) < 1e-4 /\
                norm_fro (msub (block33 T_actual)
                            (block33 (FK.wrist_3 home_transforms)))
                  < 5e-3)
           solutions.
Proof.
  split; [exact shape_home_pose|].
  destruct (solve_ik_solutions_reach_target Z lcg_seed lcg_sample
              IK.__init__ (FK.wrist_3 home_transforms) shape_home_pose)
    as (solutions & E & H).
  exists solutions. split; [exact E|].
  split; [exact (solve_ik_home_pose solutions E) | exact H].
Defined.

(** X20 at the home pose: the list is not empty. *)
Lemma solve_ik_solutions_within_limits_witness :
  shape 4 4 (FK.wrist_3 home_transforms) /\
  FK.joint_limits (IK.fk IK.__init__) = FK.joint_limits FK.__init__ /\
  exists solutions,
    IK.solve_ik Z lcg_seed lcg_sample IK.__init__
      (FK.wrist_3 home_transforms) = Ok solutions /\
    solutions <> [] /\
    Forall (fun sol =>
              FK.check_joint_limits (IK.fk IK.__init__) sol = Ok true)
           solutions.
Proof.
  split; [exact shape_home_pose|]. split; [reflexivity|].
  destruct (solve_ik_solutions_within_limits Z lcg_seed lcg_sample
              IK.__init__ (FK.wrist_3 home_transforms) shape_home_pose
              eq_refl)
    as (solutions & E & H).
  exists solutions. split; [exact E|].
  split; [exact (solve_ik_home_pose solutions E) | exact H].
Defined.

Lemma solve_ik_solves_seed_pose_witness :
  In home (IK._generate_seeds Z lcg_seed lcg_sample IK.__init__) /\
  FK.get_end_effector_transform (IK.fk IK.__init__) home =
    Ok (FK.wrist_3 home_transforms) /\
  0 < IK.epsilon IK.__init__ /\ 0 < IK.tol IK.__init__ /\
  (0 < IK.max_iter IK.__init__)%nat /\
  exists solutions,
    IK.solve_ik Z lcg_seed lcg_sample IK.__init__
      (FK.wrist_3 home_transforms) = Ok solutions /\
    solutions <> [] /\
    exists sol,
      In sol solutions /\
      within (FK.normalize_joint_angles (IK.fk IK.__init__) home) sol.
Proof.
  assert (H1 : 0 < IK.epsilon IK.__init__) by (cbn; lra).
  assert (H2 : 0 < IK.tol IK.__init__) by (cbn; lra).
  assert (H3 : (0 < IK.max_iter IK.__init__)%nat) by (cbn; lia).
  split; [exact home_seed|]. split; [exact end_effector_home|].
  split; [exact H1|]. split; [exact H2|]. split; [exact H3|].
  exact (solve_ik_solves_seed_pose Z lcg_seed lcg_sample IK.__init__ home
           (FK.wrist_3 home_transforms) home_seed end_effector_home
           H1 H2 H3).
Defined.

Lemma transformed_meshes_follow_links_witness :
  FK.forward_kinematics FK.__init__ home = Ok home_transforms /\
  Visualizer.get_transformed_meshes vertex_mesh vertex_copy
    vertex_apply_transform
    (Visualizer.__init__ vertex_mesh FK.__init__
       (Loader.with_meshes vertex_mesh [("forearm"%string, [[0; 0; 0]])]
          (Loader.__init__ vertex_mesh))) home =
  Ok (inr (placed vertex_copy vertex_apply_transform
             [("forearm"%string, [[0; 0; 0]])] (FK.items home_transforms))).
Proof.
  split; [exact forward_kinematics_home|].
  exact (proj1 (transformed_meshes_follow_links vertex_mesh vertex_copy
           vertex_apply_transform FK.__init__
           [("forearm"%string, [[0; 0; 0]])] home home_transforms
           forward_kinematics_home)).
Defined.

Lemma transformed_meshes_need_six_angles_witness :
  (length [0; 0; 0]%R < 6)%nat /\
  Visualizer.get_link_transforms vertex_mesh
    (Visualizer.__init__ vertex_mesh FK.__init__
       (Loader.__init__ vertex_mesh)) [0; 0; 0] = Raised IndexError /\
  Visualizer.get_transformed_meshes vertex_mesh vertex_copy
    vertex_apply_transform
    (Visualizer.__init__ vertex_mesh FK.__init__
       (Loader.__init__ vertex_mesh)) [0; 0; 0] = Raised IndexError.
Proof.
  assert (H : (length [0; 0; 0]%R < 6)%nat) by (cbn; lia).
  split; [exact H|].
  exact (transformed_meshes_need_six_angles vertex_mesh vertex_copy
           vertex_apply_transform
           (Visualizer.__init__ vertex_mesh FK.__init__
              (Loader.__init__ vertex_mesh)) [0; 0; 0] H).
Defined.

End PropertyWitnesses.
